(** * The graph labeling problem of dlib's structural SVM

    A shallow embedding of [dlib/svm/structural_svm_graph_labeling_problem.h]:
    the validator [is_graph_labeling_problem], the constructor's dimension
    scan, the dense and the sparse [get_joint_feature_vector], and
    [separation_oracle].

    Conventions of the embedding.
    - In the main part a [double] is an exact integer ([Z]).  Where
      rounding decides, the two [get_joint_feature_vector] and the inner
      product are run over an arithmetic, of which IEEE 754 binary64 is one
      ([binary64]); a binary64 run in which no operation rounds is tied to
      the run in the integers.
    - A [long] is a [Z]; container sizes and sparse indices are [nat].  The
      two places where the code leaves the range of its integer types are
      written out: the conversion [(long)max_index_plus_one(...)] of the
      constructor ([to_long]) and the sum [i->first+offset] of
      [add_to_sparse_vect] ([unsigned_long_add]).
    - A member function that writes to an argument it receives by
      reference is a function of the embedding that returns the value
      written; the section on calls threads these arguments and the object
      through sequences of calls.
    - A read past the end of a [std::vector], and a matrix operation whose
      [requires] clause is broken, is the error [None]. *)

From Stdlib Require Import ZArith List Bool Lia PeanoNat NArith SpecFloat.
Import ListNotations.
Open Scope Z_scope.

(** ** The error monad *)

Definition bind {A B : Type} (m : option A) (f : A -> option B) : option B :=
  match m with
  | Some a => f a
  | None => None
  end.

Notation "x <- m ;; k" := (bind m (fun x => k))
  (at level 61, m at next level, right associativity).

(** A loop over a container whose body may fail: the state is threaded from
    one element to the next, and the first failure ends the loop. *)
Fixpoint foldM {A S : Type} (f : S -> A -> option S) (l : list A) (s : S)
  : option S :=
  match l with
  | [] => Some s
  | a :: l' => s' <- f s a ;; foldM f l' s'
  end.

Fixpoint mapM {A B : Type} (f : A -> option B) (l : list A) : option (list B) :=
  match l with
  | [] => Some []
  | a :: l' => b <- f a ;; bs <- mapM f l' ;; Some (b :: bs)
  end.

(** The elements of a container paired with their positions, for the loops
    [for (unsigned long i = 0; i < c.size(); ++i)]. *)
Definition indexed {A : Type} (l : list A) : list (nat * A) :=
  combine (seq 0 (length l)) l.

(** ** Integer types

    [long] and [unsigned long] have 64 bits.  [(long)x] for an
    [unsigned long] [x] keeps the bits of [x] and reads them as a two's
    complement number; a natural number stands here for the index it is
    before the [unsigned long] holds it, hence the reduction to 64 bits. *)
Definition to_long (x : nat) : Z :=
  let u := Z.of_nat x mod 2 ^ 64 in
  if u <? 2 ^ 63 then u else u - 2 ^ 64.

(** [a + b] on two [unsigned long]: the sum reduced to 64 bits. *)
Definition unsigned_long_add (a b : nat) : nat :=
  Z.to_nat ((Z.of_nat a + Z.of_nat b) mod 2 ^ 64).

(** ** Labels *)

(** [node_label] is dlib's [unsigned char]; the code only ever tests it
    against zero. *)
Definition node_label : Type := N.
Definition label_type : Type := list node_label.

(** [label != 0] *)
Definition is_true_label (l : node_label) : bool := negb (N.eqb l 0%N).

(** ** Dense column vectors ([dlib::matrix]) *)

Definition matrix : Type := list Z.

Definition msize (m : matrix) : Z := Z.of_nat (length m).

Definition zeros (n : Z) : matrix := repeat 0 (Z.to_nat n).

(** Modelled from the spec: [rowm(m, range(first, last))], the block of rows
    [first .. last] of a column vector (dlib/matrix/matrix_subexp.h is not
    under src/).  The block must lie inside the vector. *)
Definition rowm_range (m : matrix) (first last : Z) : option matrix :=
  if (0 <=? first) && (first <=? last) && (last <? msize m)
  then Some (firstn (Z.to_nat (last - first + 1)) (skipn (Z.to_nat first) m))
  else None.

(** Modelled from the spec: [set_rowm(m, range(first, last)) = v], the
    assignment of a column vector to the same block; [v] must have the
    size of the block. *)
Definition set_rowm_range (m : matrix) (first last : Z) (v : matrix)
  : option matrix :=
  if (0 <=? first) && (first <=? last) && (last <? msize m)
     && (msize v =? last - first + 1)
  then Some (firstn (Z.to_nat first) m ++ v ++ skipn (Z.to_nat (last + 1)) m)
  else None.

Fixpoint zip_with (f : Z -> Z -> Z) (a b : matrix) : matrix :=
  match a, b with
  | x :: a', y :: b' => f x y :: zip_with f a' b'
  | _, _ => []
  end.

(** Modelled from the spec: [a + b] and [a - b] on two matrices, which dlib
    requires to have the same size. *)
Definition mat_add (a b : matrix) : option matrix :=
  if msize a =? msize b then Some (zip_with Z.add a b) else None.

Definition mat_sub (a b : matrix) : option matrix :=
  if msize a =? msize b then Some (zip_with Z.sub a b) else None.

Definition sum_list (l : list Z) : Z := fold_right Z.add 0 l.

(** The inner product of two dense vectors. *)
Definition inner (a b : matrix) : Z := sum_list (zip_with Z.mul a b).

(** Modelled from the spec: [dot(a, b)] on two column vectors, which dlib
    requires to have the same size. *)
Definition dot_dense (a b : matrix) : option Z :=
  if msize a =? msize b then Some (inner a b) else None.

(** Modelled from the spec: [min(m)], the least entry of a matrix.  The
    validator only calls it on a matrix of non-zero size. *)
Definition min_dense (m : matrix) : Z :=
  match m with
  | [] => 0
  | x :: m' => fold_left Z.min m' x
  end.

(** ** Sparse vectors (containers of index-value pairs) *)

Definition sparse_vect : Type := list (nat * Z).

(** Modelled from the spec: [min(v)] on a sparse vector; the entries that
    are not stored are zero, so the result is never above zero
    (dlib/svm/sparse_vector.h is not under src/). *)
Definition min_sparse (v : sparse_vect) : Z :=
  fold_left (fun acc p => Z.min acc (snd p)) v 0.

(** Modelled from the spec: [max_index_plus_one(v)], one plus the largest
    index stored in [v], and zero for an empty vector. *)
Definition max_index_plus_one_sparse (v : sparse_vect) : nat :=
  fold_left (fun acc p => Nat.max acc (S (fst p))) v 0%nat.

(** Modelled from the spec: the inner product of a sparse vector with a
    dense one; a repeated index contributes once per occurrence.  An index
    past the end of [w] reads as zero here; no theorem below relies on it. *)
Definition inner_sparse (v : sparse_vect) (w : matrix) : Z :=
  sum_list (map (fun p => nth (fst p) w 0 * snd p) v).

(** ** The two representations of a feature vector

    The source selects between [dlib::matrix] and sparse vectors at compile
    time through [is_matrix].  The interface below collects what the code
    asks of a feature vector [V] and of the joint feature vector [PSI] it
    accumulates. *)

Class FeatureVector (V PSI : Type) : Type := {
  (** [is_matrix<typename graph_type::type>::value] *)
  is_matrix : bool;
  (** [v.size()] *)
  vect_size : V -> nat;
  (** [min(v)] *)
  vect_min : V -> Z;
  (** [max_index_plus_one(v)] *)
  max_index_plus_one : V -> nat;
  (** [(long)max_index_plus_one(v)], lines 179 and 182 *)
  max_index_plus_one_long : V -> Z;
  (** [dot(block, v)] for a block of the weight vector *)
  dot : matrix -> V -> option Z;
  (** [psi.set_size(n); psi = 0] (dense) or [psi.clear()] (sparse) *)
  psi_init : Z -> PSI;
  (** the accumulation of a node vector, with the value of [edge_dims] *)
  psi_add_node : Z -> PSI -> V -> option PSI;
  (** the accumulation of an edge vector, with the value of [edge_dims] *)
  psi_sub_edge : Z -> PSI -> V -> option PSI;
  (** the inner product of a joint feature vector with a weight vector *)
  psi_dot : PSI -> matrix -> Z
}.

(** *** Dense accumulation, lines 231 and 242 *)

(** [set_rowm(psi, range(edge_dims, psi.size()-1)) =
     rowm(psi, range(edge_dims, psi.size()-1)) + sample.node(i).data] *)
Definition add_node_block (edge_dims : Z) (psi : matrix) (v : matrix)
  : option matrix :=
  blk <- rowm_range psi edge_dims (msize psi - 1) ;;
  s <- mat_add blk v ;;
  set_rowm_range psi edge_dims (msize psi - 1) s.

(** [set_rowm(psi, range(0, edge_dims-1)) =
     rowm(psi, range(0, edge_dims-1)) - sample.node(i).edge(n)] *)
Definition sub_edge_block (edge_dims : Z) (psi : matrix) (v : matrix)
  : option matrix :=
  blk <- rowm_range psi 0 (edge_dims - 1) ;;
  s <- mat_sub blk v ;;
  set_rowm_range psi 0 (edge_dims - 1) s.

(** For a matrix [max_index_plus_one] is its size: the indices of a column
    vector of [n] rows are [0 .. n-1].  A matrix holds its size as a [long],
    so the conversion of the size to [unsigned long] and back to [long]
    returns it. *)
#[export] Instance dense_vectors : FeatureVector matrix matrix := {
  is_matrix := true;
  vect_size := @length Z;
  vect_min := min_dense;
  max_index_plus_one := @length Z;
  max_index_plus_one_long := fun v => Z.of_nat (length v);
  dot := dot_dense;
  psi_init := zeros;
  psi_add_node := add_node_block;
  psi_sub_edge := sub_edge_block;
  psi_dot := inner
}.

(** *** Sparse accumulation, lines 248 to 271 *)

(** [psi.insert(psi.end(), std::make_pair(i->first+offset, i->second))]
    for every pair of [vect].  The sparse vector is a sequence of pairs, as
    the spec has it ([std::vector] of pairs): the insertion appends, and an
    index that is present already is stored once more. *)
Definition add_to_sparse_vect (psi vect : sparse_vect) (offset : nat)
  : sparse_vect :=
  fold_left
    (fun acc p => acc ++ [(unsigned_long_add (fst p) offset, snd p)])
    vect psi.

(** [psi.insert(psi.end(), std::make_pair(i->first, -i->second))]
    for every pair of [vect]. *)
Definition subtract_from_sparse_vect (psi vect : sparse_vect) : sparse_vect :=
  fold_left (fun acc p => acc ++ [(fst p, - snd p)]) vect psi.

#[export] Instance sparse_vectors : FeatureVector sparse_vect sparse_vect := {
  is_matrix := false;
  vect_size := @length (nat * Z);
  vect_min := min_sparse;
  max_index_plus_one := max_index_plus_one_sparse;
  max_index_plus_one_long := fun v => to_long (max_index_plus_one_sparse v);
  dot := fun w v => Some (inner_sparse v w);
  psi_init := fun _ => [];
  psi_add_node := fun edge_dims psi v =>
    Some (add_to_sparse_vect psi v (Z.to_nat edge_dims));
  psi_sub_edge := fun _ psi v => Some (subtract_from_sparse_vect psi v);
  psi_dot := inner_sparse
}.

(** ** Graphs

    A node of a dlib [graph] carries its [data] and, for every neighbour
    [n], the index [neighbor(n).index()] and the edge payload [edge(n)].
    An undirected edge shows up at both of its end points. *)

Record node_type (V : Type) : Type := {
  data : V;
  neighbors : list (nat * V)
}.
Arguments data {V} _.
Arguments neighbors {V} _.

Definition graph (V : Type) : Type := list (node_type V).

Definition number_of_nodes {V : Type} (g : graph V) : nat := length g.

(** Every neighbour index names a node of the graph: the invariant of the
    graph container. *)
Definition graph_wf {V : Type} (g : graph V) : bool :=
  forallb (fun nd =>
    forallb (fun nb => (fst nb <? number_of_nodes g)%nat) (neighbors nd)) g.

(** Modelled from the spec: [graph_contains_length_one_cycle(g)], true when
    some node has an edge to itself (dlib/graph_utils is not under src/). *)
Definition graph_contains_length_one_cycle {V : Type} (g : graph V) : bool :=
  existsb (fun ind =>
    existsb (fun nb => (fst nb =? fst ind)%nat) (neighbors (snd ind)))
    (indexed g).

(** Modelled from the spec: [is_learning_problem(samples, labels)], the two
    sequences have the same, non-zero length (dlib/svm/svm.h is not under
    src/). *)
Definition is_learning_problem {V : Type} (samples : list (graph V))
  (labels : list label_type) : bool :=
  (length samples =? length labels)%nat && (0 <? length samples)%nat.

(** ** The validator, lines 61 to 106 *)

Section Validator.
Context {V PSI : Type} {FV : FeatureVector V PSI}.

(** The body of the loop over the neighbours, lines 91 to 100; the state
    is the local [edge_dims], and [None] is [return false]. *)
Definition check_edge (edge_dims : Z) (e : V) : option Z :=
  if is_matrix && (vect_size e =? 0)%nat then None
  else if vect_min e <? 0 then None
  else
    let edge_dims :=
      if is_matrix && (edge_dims =? -1) then Z.of_nat (vect_size e)
      else edge_dims in
    if is_matrix && negb (Z.of_nat (vect_size e) =? edge_dims) then None
    else Some edge_dims.

(** The body of the loop over the nodes, lines 80 to 101; the state is
    the pair of locals [(node_dims, edge_dims)]. *)
Definition check_node (st : Z * Z) (nd : node_type V) : option (Z * Z) :=
  let (node_dims, edge_dims) := st in
  if (vect_size (data nd) =? 0)%nat then None
  else
    let node_dims :=
      if is_matrix && (node_dims =? -1) then Z.of_nat (vect_size (data nd))
      else node_dims in
    if is_matrix && negb (Z.of_nat (vect_size (data nd)) =? node_dims)
    then None
    else
      edge_dims <- foldM check_edge (map snd (neighbors nd)) edge_dims ;;
      Some (node_dims, edge_dims).

(** The body of the loop over the samples, lines 73 to 102. *)
Definition check_sample (st : Z * Z) (sl : graph V * label_type)
  : option (Z * Z) :=
  let (samp, lab) := sl in
  if negb (number_of_nodes samp =? length lab)%nat then None
  else if graph_contains_length_one_cycle samp then None
  else foldM check_node samp st.

(** [samples[i]] and [labels[i]] are read for [i < samples.size()]; past
    the guard of [is_learning_problem] the two have the same length, so
    the loop runs over the pairs. *)
Definition is_graph_labeling_problem (samples : list (graph V))
  (labels : list label_type) : bool :=
  if negb (is_learning_problem samples labels) then false
  else
    match foldM check_sample (combine samples labels) (-1, -1) with
    | Some _ => true
    | None => false
    end.
End Validator.

(** ** The problem object *)

(** The members of [structural_svm_graph_labeling_problem]: the two
    references to the dataset, and the two dimensions of type [long]. *)
Record problem (V : Type) : Type := {
  samples : list (graph V);
  labels : list label_type;
  node_dims : Z;
  edge_dims : Z
}.
Arguments samples {V} _.
Arguments labels {V} _.
Arguments node_dims {V} _.
Arguments edge_dims {V} _.

Definition get_num_edge_weights {V : Type} (p : problem V) : Z := edge_dims p.

(** The sum of two [long]; it is a [long] whenever a weight vector of
    that many entries exists, the size of a matrix being a [long]. *)
Definition get_num_dimensions {V : Type} (p : problem V) : Z :=
  edge_dims p + node_dims p.

Definition get_num_samples {V : Type} (p : problem V) : Z :=
  Z.of_nat (length (samples p)).

Section Problem.
Context {V PSI : Type} {FV : FeatureVector V PSI}.

(** *** The constructor, lines 157 to 186 *)

(** The loop over the neighbours of one node, lines 180 to 183. *)
Definition scan_edges (edge_dims : Z) (nbs : list (nat * V)) : Z :=
  fold_left
    (fun ed nb => Z.max ed (max_index_plus_one_long (snd nb))) nbs
    edge_dims.

(** The body of the loop over the nodes, lines 179 to 183; the state is the
    pair of members [(node_dims, edge_dims)]. *)
Definition scan_node (st : Z * Z) (nd : node_type V) : Z * Z :=
  (Z.max (fst st) (max_index_plus_one_long (data nd)),
   scan_edges (snd st) (neighbors nd)).

(** The dimension scan, lines 173 to 185. *)
Definition scan_dims (samps : list (graph V)) : Z * Z :=
  fold_left (fun st samp => fold_left scan_node samp st) samps (0, 0).

(** The constructor; a dataset that breaks the [requires] clause stops at
    the [DLIB_ASSERT]. *)
Definition structural_svm_graph_labeling_problem (samps : list (graph V))
  (labs : list label_type) : option (problem V) :=
  if is_graph_labeling_problem samps labs
  then Some {| samples := samps; labels := labs;
               node_dims := fst (scan_dims samps);
               edge_dims := snd (scan_dims samps) |}
  else None.

(** *** get_joint_feature_vector, lines 216 to 246 and 273 to 302

    The two overloads run the same loop; they differ in how [psi] starts
    and in the two accumulation statements, which [FeatureVector] supplies. *)

(** The body of the loop over the neighbours of node [i]. *)
Definition joint_edge_step (p : problem V) (label : label_type) (i : nat)
  (label_i : bool) (psi : PSI) (nb : nat * V) : option PSI :=
  let j := fst nb in
  lj <- nth_error label j ;;
  let label_j := is_true_label lj in
  if (i <? j)%nat && xorb label_i label_j
  then psi_sub_edge (edge_dims p) psi (snd nb)
  else Some psi.

(** The body of the loop over the nodes. *)
Definition joint_node_step (p : problem V) (label : label_type) (psi : PSI)
  (ind : nat * node_type V) : option PSI :=
  let (i, nd) := ind in
  li <- nth_error label i ;;
  let label_i := is_true_label li in
  psi <- (if label_i then psi_add_node (edge_dims p) psi (data nd)
          else Some psi) ;;
  foldM (joint_edge_step p label i label_i) (neighbors nd) psi.

Definition get_joint_feature_vector (p : problem V) (sample : graph V)
  (label : label_type) : option PSI :=
  foldM (joint_node_step p label) (indexed sample)
    (psi_init (get_num_dimensions p)).

(** [get_truth_joint_feature_vector], lines 304 to 310. *)
Definition get_truth_joint_feature_vector (p : problem V) (idx : nat)
  : option PSI :=
  samp <- nth_error (samples p) idx ;;
  lab <- nth_error (labels p) idx ;;
  get_joint_feature_vector p samp lab.
End Problem.

(** The dense and the sparse overload by name. *)
Definition get_joint_feature_vector_dense :
  problem matrix -> graph matrix -> label_type -> option matrix :=
  get_joint_feature_vector.

Definition get_joint_feature_vector_sparse :
  problem sparse_vect -> graph sparse_vect -> label_type -> option sparse_vect :=
  get_joint_feature_vector.

(** ** The separation oracle, lines 312 to 366 *)

(** The Potts graph [g]: a node holds its potential and, per neighbour, the
    neighbour's index and the weight of the edge.  The loop writes a weight
    only from the end point with the lower index; the entry at the other
    end point is [None]. *)
Record potts_node : Type := {
  potential : Z;
  links : list (nat * option Z)
}.

Definition potts_graph : Type := list potts_node.

Section Oracle.
Context {V PSI : Type} {FV : FeatureVector V PSI}.

(** The body of the loop over the neighbours, lines 339 to 345.

    Modelled from the spec: [copy_graph_structure(samp, g)]
    (dlib/graph_utils is not under src/) gives [g] the nodes and the edges
    of [samp].  Line 339 reads the index [j] of the [n]-th neighbour from
    [g] and line 344 reads the [n]-th edge from [samp]; the embedding takes
    the neighbours of a node of [g] in the order [samp] has them, so that
    both are read from the [n]-th neighbour of the sample. *)
Definition potts_link (p : problem V) (w : matrix) (i : nat) (nb : nat * V)
  : option (nat * option Z) :=
  let j := fst nb in
  if (i <? j)%nat
  then
    blk <- rowm_range w 0 (edge_dims p - 1) ;;
    x <- dot blk (snd nb) ;;
    Some (j, Some x)
  else Some (j, None).

(** The body of the loop over the nodes, lines 326 to 346. *)
Definition potts_node_of (p : problem V) (truth : label_type) (w : matrix)
  (ind : nat * node_type V) : option potts_node :=
  let (i, nd) := ind in
  blk <- rowm_range w (edge_dims p) (msize w - 1) ;;
  d <- dot blk (data nd) ;;
  t <- nth_error truth i ;;
  let label_i := is_true_label t in
  let d := if label_i then d - 1 else d + 1 in
  ls <- mapM (potts_link p w i) (neighbors nd) ;;
  Some {| potential := d; links := ls |}.

(** Lines 322 to 348: the Potts graph of a sample. *)
Definition potts_graph_of (p : problem V) (samp : graph V)
  (truth : label_type) (w : matrix) : option potts_graph :=
  mapM (potts_node_of p truth w) (indexed samp).

(** Lines 354 to 362: the loss of a labeling. *)
Definition loss_step (truth : label_type) (loss : Z) (il : nat * node_label)
  : option Z :=
  t <- nth_error truth (fst il) ;;
  let true_label := is_true_label t in
  let pred_label := is_true_label (snd il) in
  if xorb true_label pred_label then Some (loss + 1) else Some loss.

Definition oracle_loss (truth labeling : label_type) : option Z :=
  foldM (loss_step truth) (indexed labeling) 0.

(** The part of the oracle before the call of the solver. *)
Definition oracle_graph (p : problem V) (idx : nat) (w : matrix)
  : option potts_graph :=
  samp <- nth_error (samples p) idx ;;
  truth <- nth_error (labels p) idx ;;
  potts_graph_of p samp truth w.

(** The part of the oracle after the call of the solver. *)
Definition oracle_result (p : problem V) (idx : nat) (labeling : label_type)
  : option (Z * PSI) :=
  samp <- nth_error (samples p) idx ;;
  truth <- nth_error (labels p) idx ;;
  loss <- oracle_loss truth labeling ;;
  psi <- get_joint_feature_vector p samp labeling ;;
  Some (loss, psi).

(** The oracle over a solver given as a function. *)
Definition separation_oracle (find_max_factor_graph_potts :
  potts_graph -> label_type) (p : problem V) (idx : nat) (w : matrix)
  : option (Z * PSI) :=
  g <- oracle_graph p idx w ;;
  oracle_result p idx (find_max_factor_graph_potts g).
End Oracle.

(** ** Calls on the problem object

    The member functions are [const] and the data members are assigned in
    the constructor only.  A call reads the object and writes to what it
    receives by reference: [psi] for [get_joint_feature_vector] and
    [get_truth_joint_feature_vector], [loss] and [psi] for
    [separation_oracle].  The state of a run holds the object, the [long]
    returned last, and these two variables of the caller. *)

(** Modelled from the spec: [m.set_size(n)] on a column vector
    (dlib/matrix is not under src/).  dlib leaves the entries unspecified;
    here the entries that fit are kept and the rest is zero. *)
Definition set_size (n : Z) (m : matrix) : matrix :=
  firstn (Z.to_nat n) m ++ repeat 0 (Z.to_nat n - length m).

(** [m = x]: every entry of the matrix is assigned [x]. *)
Definition assign_all (x : Z) (m : matrix) : matrix := map (fun _ => x) m.

(** [v.clear()] on a sequence of pairs. *)
Definition clear (v : sparse_vect) : sparse_vect := [].

(** The first statements of the two overloads, lines 223, 224 and 280, on
    the [psi] they receive, and that they leave [psi] as [psi_init] has
    it. *)
Class FeatureVectorReset (V PSI : Type) {FV : FeatureVector V PSI} : Type := {
  psi_reset : Z -> PSI -> PSI;
  psi_reset_init : forall n psi, psi_reset n psi = psi_init n
}.

Record state (V PSI : Type) : Type := {
  this : problem V;
  returned : Z;
  loss_ref : Z;
  psi_ref : PSI
}.
Arguments this {V PSI} _.
Arguments returned {V PSI} _.
Arguments loss_ref {V PSI} _.
Arguments psi_ref {V PSI} _.

Inductive call (V : Type) : Type :=
| Get_num_edge_weights
| Get_num_dimensions
| Get_num_samples
| Get_joint_feature_vector (sample : graph V) (label : label_type)
| Get_truth_joint_feature_vector (idx : nat)
| Separation_oracle (idx : nat) (current_solution : matrix).
Arguments Get_num_edge_weights {V}.
Arguments Get_num_dimensions {V}.
Arguments Get_num_samples {V}.
Arguments Get_joint_feature_vector {V} _ _.
Arguments Get_truth_joint_feature_vector {V} _.
Arguments Separation_oracle {V} _ _.

Section Calls.
Context {V PSI : Type} {FV : FeatureVector V PSI}
  {FR : FeatureVectorReset V PSI}.

Definition return_long (x : Z) (st : state V PSI) : state V PSI :=
  {| this := this st; returned := x;
     loss_ref := loss_ref st; psi_ref := psi_ref st |}.

Definition write_psi (psi : PSI) (st : state V PSI) : state V PSI :=
  {| this := this st; returned := returned st;
     loss_ref := loss_ref st; psi_ref := psi |}.

Definition write_loss (loss : Z) (st : state V PSI) : state V PSI :=
  {| this := this st; returned := returned st;
     loss_ref := loss; psi_ref := psi_ref st |}.

(** [get_joint_feature_vector(sample, label, psi)] on the state. *)
Definition get_joint_feature_vector_call (sample : graph V)
  (label : label_type) (st : state V PSI) : option (state V PSI) :=
  let st := write_psi (psi_reset (get_num_dimensions (this st)) (psi_ref st))
              st in
  psi <- foldM (joint_node_step (this st) label) (indexed sample)
           (psi_ref st) ;;
  Some (write_psi psi st).

(** [get_truth_joint_feature_vector(idx, psi)] on the state. *)
Definition get_truth_joint_feature_vector_call (idx : nat)
  (st : state V PSI) : option (state V PSI) :=
  samp <- nth_error (samples (this st)) idx ;;
  lab <- nth_error (labels (this st)) idx ;;
  get_joint_feature_vector_call samp lab st.

(** [separation_oracle(idx, current_solution, loss, psi)] on the state;
    the graph [g] and the vector [labeling] are local to the call. *)
Definition separation_oracle_call (find_max_factor_graph_potts :
  potts_graph -> label_type) (idx : nat) (current_solution : matrix)
  (st : state V PSI) : option (state V PSI) :=
  samp <- nth_error (samples (this st)) idx ;;
  truth <- nth_error (labels (this st)) idx ;;
  g <- potts_graph_of (this st) samp truth current_solution ;;
  let labeling := find_max_factor_graph_potts g in
  let st := write_loss 0 st in
  loss <- foldM (loss_step truth) (indexed labeling) (loss_ref st) ;;
  let st := write_loss loss st in
  get_joint_feature_vector_call samp labeling st.

Definition exec (find_max_factor_graph_potts : potts_graph -> label_type)
  (st : state V PSI) (c : call V) : option (state V PSI) :=
  match c with
  | Get_num_edge_weights =>
      Some (return_long (get_num_edge_weights (this st)) st)
  | Get_num_dimensions =>
      Some (return_long (get_num_dimensions (this st)) st)
  | Get_num_samples =>
      Some (return_long (get_num_samples (this st)) st)
  | Get_joint_feature_vector sample label =>
      get_joint_feature_vector_call sample label st
  | Get_truth_joint_feature_vector idx =>
      get_truth_joint_feature_vector_call idx st
  | Separation_oracle idx w =>
      separation_oracle_call find_max_factor_graph_potts idx w st
  end.

(** A sequence of calls, one after the other. *)
Definition run (find_max_factor_graph_potts : potts_graph -> label_type)
  (cs : list (call V)) (st : state V PSI) : option (state V PSI) :=
  foldM (exec find_max_factor_graph_potts) cs st.
End Calls.

(** ** The two overloads over an arithmetic

    Above, a [double] is an integer and no operation rounds.  Here the two
    overloads of [get_joint_feature_vector] and the inner product with a
    weight vector are written once more over the arithmetic of the entries,
    so that they run in IEEE 754 binary64 as well.  An arithmetic may refuse
    an operation, which ends the run with [None]; the arithmetic of the code
    refuses none. *)

Record arithmetic (D : Type) : Type := {
  ar_zero : D;
  ar_add : D -> D -> option D;
  ar_sub : D -> D -> option D;
  ar_mul : D -> D -> option D;
  ar_neg : D -> D
}.
Arguments ar_zero {D} _.
Arguments ar_add {D} _ _ _.
Arguments ar_sub {D} _ _ _.
Arguments ar_mul {D} _ _ _.
Arguments ar_neg {D} _ _.

(** The integers, as in the rest of the embedding. *)
Definition integers : arithmetic Z := {|
  ar_zero := 0;
  ar_add := fun x y => Some (x + y);
  ar_sub := fun x y => Some (x - y);
  ar_mul := fun x y => Some (x * y);
  ar_neg := Z.opp
|}.

(** [double]: IEEE 754 binary64 with rounding to nearest, ties to even,
    every operation rounded on its own. *)
Definition double : Type := spec_float.

Definition binary64 : arithmetic double := {|
  ar_zero := S754_zero false;
  ar_add := fun x y => Some (SFadd 53 1024 x y);
  ar_sub := fun x y => Some (SFsub 53 1024 x y);
  ar_mul := fun x y => Some (SFmul 53 1024 x y);
  ar_neg := SFopp
|}.

(** The [double] nearest to an integer. *)
Definition double_of_Z (z : Z) : double := binary_normalize 53 1024 z 0 false.

(** The integer a [double] is, when it is one. *)
Definition integer_value (x : double) : option Z :=
  match x with
  | S754_zero _ => Some 0
  | S754_finite s m e =>
      if 0 <=? e then Some (cond_Zopp s (Z.pos m * 2 ^ e))
      else if Z.pos m mod 2 ^ (- e) =? 0
           then Some (cond_Zopp s (Z.pos m / 2 ^ (- e)))
           else None
  | _ => None
  end.

(** An operation on two integers that does not round: the result of [op]
    on [double] is the integer that [op_Z] gives. *)
Definition exactly (op_Z : Z -> Z -> Z) (op : double -> double -> double)
  (x y : double) : option double :=
  let r := op x y in
  match integer_value x, integer_value y, integer_value r with
  | Some a, Some b, Some c => if c =? op_Z a b then Some r else None
  | _, _, _ => None
  end.

(** binary64 on integers, refusing every operation that rounds. *)
Definition binary64_exact : arithmetic double := {|
  ar_zero := S754_zero false;
  ar_add := exactly Z.add (SFadd 53 1024);
  ar_sub := exactly Z.sub (SFsub 53 1024);
  ar_mul := exactly Z.mul (SFmul 53 1024);
  ar_neg := SFopp
|}.

(** [rowm(m, range(first, last))] and [set_rowm(m, range(first, last)) = v]
    for entries of any type, as [rowm_range] and [set_rowm_range] above. *)
Definition rowm_range_of {D : Type} (m : list D) (first last : Z)
  : option (list D) :=
  if (0 <=? first) && (first <=? last) && (last <? Z.of_nat (length m))
  then Some (firstn (Z.to_nat (last - first + 1)) (skipn (Z.to_nat first) m))
  else None.

Definition set_rowm_range_of {D : Type} (m : list D) (first last : Z)
  (v : list D) : option (list D) :=
  if (0 <=? first) && (first <=? last) && (last <? Z.of_nat (length m))
     && (Z.of_nat (length v) =? last - first + 1)
  then Some (firstn (Z.to_nat first) m ++ v ++ skipn (Z.to_nat (last + 1)) m)
  else None.

(** [a + b] and [a - b] on two matrices of the same size, entry by entry. *)
Fixpoint zip_op {D : Type} (op : D -> D -> option D) (a b : list D)
  : option (list D) :=
  match a, b with
  | [], [] => Some []
  | x :: a', y :: b' =>
      r <- op x y ;; rs <- zip_op op a' b' ;; Some (r :: rs)
  | _, _ => None
  end.

Section Arithmetic.
Context {D : Type} (ar : arithmetic D).

(** Line 231. *)
Definition add_node_block_in (edge_dims : Z) (psi v : list D)
  : option (list D) :=
  blk <- rowm_range_of psi edge_dims (Z.of_nat (length psi) - 1) ;;
  s <- zip_op (ar_add ar) blk v ;;
  set_rowm_range_of psi edge_dims (Z.of_nat (length psi) - 1) s.

(** Line 242. *)
Definition sub_edge_block_in (edge_dims : Z) (psi v : list D)
  : option (list D) :=
  blk <- rowm_range_of psi 0 (edge_dims - 1) ;;
  s <- zip_op (ar_sub ar) blk v ;;
  set_rowm_range_of psi 0 (edge_dims - 1) s.

(** Lines 248 to 259. *)
Definition add_to_sparse_vect_in (psi vect : list (nat * D)) (offset : nat)
  : list (nat * D) :=
  fold_left
    (fun acc p => acc ++ [(unsigned_long_add (fst p) offset, snd p)])
    vect psi.

(** Lines 261 to 271. *)
Definition subtract_from_sparse_vect_in (psi vect : list (nat * D))
  : list (nat * D) :=
  fold_left (fun acc p => acc ++ [(fst p, ar_neg ar (snd p))]) vect psi.

(** Modelled from the spec: the inner product of two column vectors of the
    same size, summed from zero in the order of the rows. *)
Definition dot_in (a b : list D) : option D :=
  if (length a =? length b)%nat
  then foldM (fun acc xy =>
                t <- ar_mul ar (fst xy) (snd xy) ;; ar_add ar acc t)
         (combine a b) (ar_zero ar)
  else None.

(** Modelled from the spec: the inner product of a sparse vector with a
    column vector, summed from zero in the order of the pairs, one term per
    pair; an index past the end of the column vector is an error. *)
Definition dot_sparse_in (v : list (nat * D)) (w : list D) : option D :=
  foldM (fun acc p =>
           x <- nth_error w (fst p) ;;
           t <- ar_mul ar x (snd p) ;; ar_add ar acc t)
    v (ar_zero ar).
End Arithmetic.

(** The loop the two overloads share, lines 225 to 245 and 281 to 301,
    over the two accumulation statements [add_node] and [sub_edge]. *)
Section JointFeatureLoop.
Context {V PSI : Type}.
Variable add_node : PSI -> V -> option PSI.
Variable sub_edge : PSI -> V -> option PSI.

Definition loop_edge_step (label : label_type) (i : nat) (label_i : bool)
  (psi : PSI) (nb : nat * V) : option PSI :=
  let j := fst nb in
  lj <- nth_error label j ;;
  let label_j := is_true_label lj in
  if (i <? j)%nat && xorb label_i label_j
  then sub_edge psi (snd nb)
  else Some psi.

Definition loop_node_step (label : label_type) (psi : PSI)
  (ind : nat * node_type V) : option PSI :=
  let (i, nd) := ind in
  li <- nth_error label i ;;
  let label_i := is_true_label li in
  psi <- (if label_i then add_node psi (data nd) else Some psi) ;;
  foldM (loop_edge_step label i label_i) (neighbors nd) psi.

Definition joint_feature_loop (init : PSI) (sample : graph V)
  (label : label_type) : option PSI :=
  foldM (loop_node_step label) (indexed sample) init.
End JointFeatureLoop.

(** The dense overload, lines 216 to 246, on an object whose members
    [edge_dims] and [node_dims] have the given values. *)
Definition get_joint_feature_vector_dense_in {D : Type} (ar : arithmetic D)
  (edge_dims node_dims : Z) (sample : graph (list D)) (label : label_type)
  : option (list D) :=
  joint_feature_loop (add_node_block_in ar edge_dims)
    (sub_edge_block_in ar edge_dims)
    (repeat (ar_zero ar) (Z.to_nat (edge_dims + node_dims))) sample label.

(** The sparse overload, lines 273 to 302. *)
Definition get_joint_feature_vector_sparse_in {D : Type} (ar : arithmetic D)
  (edge_dims : Z) (sample : graph (list (nat * D))) (label : label_type)
  : option (list (nat * D)) :=
  joint_feature_loop
    (fun psi v => Some (add_to_sparse_vect_in psi v (Z.to_nat edge_dims)))
    (fun psi v => Some (subtract_from_sparse_vect_in ar psi v))
    [] sample label.

(** The integers that the entries of a vector, of a sparse vector and of
    the vectors of a sample are, when all of them are integers. *)
Definition integer_values (v : list double) : option matrix :=
  mapM integer_value v.

Definition integer_values_sparse (v : list (nat * double))
  : option sparse_vect :=
  mapM (fun q => z <- integer_value (snd q) ;; Some (fst q, z)) v.

Definition integer_values_graph {V W : Type} (values : V -> option W)
  (g : graph V) : option (graph W) :=
  mapM (fun nd =>
          d <- values (data nd) ;;
          nbs <- mapM (fun nb => e <- values (snd nb) ;; Some (fst nb, e))
                   (neighbors nd) ;;
          Some {| data := d; neighbors := nbs |}) g.

(** What one arithmetic does, another does on related entries. *)
Record simulates {D1 D2 : Type} (ar1 : arithmetic D1) (ar2 : arithmetic D2)
  (R : D1 -> D2 -> Prop) : Prop := {
  sim_zero : R (ar_zero ar1) (ar_zero ar2);
  sim_add : forall x y r x' y',
    ar_add ar1 x y = Some r -> R x x' -> R y y' ->
    exists r', ar_add ar2 x' y' = Some r' /\ R r r';
  sim_sub : forall x y r x' y',
    ar_sub ar1 x y = Some r -> R x x' -> R y y' ->
    exists r', ar_sub ar2 x' y' = Some r' /\ R r r';
  sim_mul : forall x y r x' y',
    ar_mul ar1 x y = Some r -> R x x' -> R y y' ->
    exists r', ar_mul ar2 x' y' = Some r' /\ R r r';
  sim_neg : forall x x', R x x' -> R (ar_neg ar1 x) (ar_neg ar2 x')
}.

(** Two sparse vectors with the same indices and related entries, and two
    graphs with the same edges and related vectors. *)
Definition sparse_related {D1 D2 : Type} (R : D1 -> D2 -> Prop)
  (v : list (nat * D1)) (v' : list (nat * D2)) : Prop :=
  Forall2 (fun q q' => fst q = fst q' /\ R (snd q) (snd q')) v v'.

Definition graph_related {V1 V2 : Type} (R : V1 -> V2 -> Prop)
  (g : graph V1) (g' : graph V2) : Prop :=
  Forall2 (fun nd nd' =>
    R (data nd) (data nd') /\
    Forall2 (fun nb nb' => fst nb = fst nb' /\ R (snd nb) (snd nb'))
      (neighbors nd) (neighbors nd')) g g'.

(** ** A reference solver

    Modelled from the spec: [find_max_factor_graph_potts] (dlib/graph_cuts
    is not under src/), by exhaustive search: a labeling that maximises the
    potentials of the nodes labelled true plus the weights of the edges
    whose end points carry the same label; the first maximiser found wins. *)

Fixpoint all_labelings (n : nat) : list label_type :=
  match n with
  | O => [[]]
  | S n' => flat_map (fun l => [0%N :: l; 1%N :: l]) (all_labelings n')
  end.

Definition label_at (l : label_type) (i : nat) : bool :=
  is_true_label (nth i l 0%N).

Definition potts_score (g : potts_graph) (l : label_type) : Z :=
  sum_list (map (fun ind =>
    let i := fst ind in
    let nd := snd ind in
    (if label_at l i then potential nd else 0) +
    sum_list (map (fun lk =>
      match snd lk with
      | Some x => if Bool.eqb (label_at l i) (label_at l (fst lk)) then x else 0
      | None => 0
      end) (links nd))) (indexed g)).

Definition exhaustive_potts (g : potts_graph) : label_type :=
  fold_left (fun best l =>
    if potts_score g best <? potts_score g l then l else best)
    (all_labelings (length g)) (repeat 0%N (length g)).

(** ** Scenario A: a path of three nodes, dense vectors *)

Definition scenario_A_sample : graph matrix := [
  {| data := [1; 0]; neighbors := [(1%nat, [1])] |};
  {| data := [1; 0]; neighbors := [(0%nat, [1]); (2%nat, [1])] |};
  {| data := [1; 0]; neighbors := [(1%nat, [1])] |}
].

Definition scenario_A_labels : label_type := [1%N; 1%N; 0%N].

(** ** Notions the properties are stated with *)

(** Two label vectors that agree on which labels are zero. *)
Definition same_truth (l l' : label_type) : Prop :=
  map is_true_label l = map is_true_label l'.

(** The problem object with another vector of label vectors. *)
Definition relabel {V : Type} (p : problem V) (labs : list label_type)
  : problem V :=
  {| samples := samples p; labels := labs;
     node_dims := node_dims p; edge_dims := edge_dims p |}.

(** The unweighted Hamming distance of two labelings of [n] nodes. *)
Definition disagree (truth labeling : label_type) (i : nat) : bool :=
  xorb (label_at truth i) (label_at labeling i).

Definition hamming_distance (n : nat) (truth labeling : label_type) : Z :=
  Z.of_nat (length (filter (disagree truth labeling) (seq 0 n))).

(** What it takes for the matrix operations of the two overloads to be
    defined: a feature vector that lies within [n] dimensions, and a joint
    feature vector of [n] dimensions. *)
Class FeatureVectorFits (V PSI : Type) {FV : FeatureVector V PSI} : Type := {
  vect_fits : Z -> V -> bool;
  psi_fits : Z -> PSI -> bool;
  dot_defined : forall blk v,
    vect_fits (msize blk) v = true -> exists d, dot blk v = Some d;
  psi_init_fits : forall n, 0 <= n -> psi_fits n (psi_init n) = true;
  psi_add_node_defined : forall ed nd psi v,
    0 <= ed -> 0 < nd ->
    psi_fits (ed + nd) psi = true -> vect_fits nd v = true ->
    exists psi', psi_add_node ed psi v = Some psi' /\
                 psi_fits (ed + nd) psi' = true;
  psi_sub_edge_defined : forall ed nd psi v,
    0 < ed -> 0 <= nd ->
    psi_fits (ed + nd) psi = true -> vect_fits ed v = true ->
    exists psi', psi_sub_edge ed psi v = Some psi' /\
                 psi_fits (ed + nd) psi' = true
}.

(** A sample whose vectors lie within the dimensions of the problem. *)
Definition sample_fits {V PSI : Type} {FV : FeatureVector V PSI}
  {FF : FeatureVectorFits V PSI} (p : problem V) (samp : graph V) : bool :=
  (0 <=? edge_dims p) && (0 <=? node_dims p) &&
  forallb (fun nd =>
    (0 <? node_dims p) && vect_fits (node_dims p) (data nd) &&
    forallb (fun nb => (0 <? edge_dims p) && vect_fits (edge_dims p) (snd nb))
      (neighbors nd)) samp.

(** *** The dense reading of a sparse vector *)

Fixpoint add_at (i : nat) (x : Z) (m : matrix) : matrix :=
  match m, i with
  | [], _ => []
  | y :: m', O => (y + x) :: m'
  | y :: m', S i' => y :: add_at i' x m'
  end.

(** The dense vector of [n] dimensions a sparse vector stands for: every
    pair adds its value at its index. *)
Definition densify (n : Z) (v : sparse_vect) : matrix :=
  fold_left (fun m p => add_at (fst p) (snd p) m) v (zeros n).

Definition densify_graph (nd ed : Z) (g : graph sparse_vect) : graph matrix :=
  map (fun node =>
    {| data := densify nd (data node);
       neighbors :=
         map (fun nb => (fst nb, densify ed (snd nb))) (neighbors node) |}) g.

Definition densify_problem (p : problem sparse_vect) : problem matrix :=
  {| samples := map (densify_graph (node_dims p) (edge_dims p)) (samples p);
     labels := labels p;
     node_dims := node_dims p;
     edge_dims := edge_dims p |}.

(** The node-weight block of a weight vector: its entries
    [edge_dims .. edge_dims + node_dims - 1]. *)
Definition node_weight_block {V : Type} (p : problem V) (w : matrix) : matrix :=
  firstn (Z.to_nat (node_dims p)) (skipn (Z.to_nat (edge_dims p)) w).

(** The labeling that gives every node of a sample the label false. *)
Definition all_false {V : Type} (s : graph V) : label_type :=
  repeat 0%N (number_of_nodes s).

(** The problem object of scenario A. *)
Definition scenario_A_problem : problem matrix :=
  {| samples := [scenario_A_sample]; labels := [scenario_A_labels];
     node_dims := 2; edge_dims := 1 |}.

(** *** The validator, vector by vector

    Both [check_edge] and the node half of [check_node] first reject a
    vector on its own account and then compare its size with the one seen
    first, lines 83 to 87 and 96 to 100. *)

Section ValidatorParts.
Context {V PSI : Type} {FV : FeatureVector V PSI}.

Definition track_dims (dims : Z) (v : V) : option Z :=
  let dims :=
    if is_matrix && (dims =? -1) then Z.of_nat (vect_size v) else dims in
  if is_matrix && negb (Z.of_nat (vect_size v) =? dims) then None
  else Some dims.

Definition check_vector (bad : V -> bool) (dims : Z) (v : V) : option Z :=
  if bad v then None else track_dims dims v.

(** Lines 91 to 94. *)
Definition bad_edge (e : V) : bool :=
  is_matrix && (vect_size e =? 0)%nat || (vect_min e <? 0).

(** Lines 80 and 81. *)
Definition bad_node (v : V) : bool := (vect_size v =? 0)%nat.

(** Lines 73 to 76. *)
Definition sample_guard (sl : graph V * label_type) : bool :=
  (number_of_nodes (fst sl) =? length (snd sl))%nat &&
  negb (graph_contains_length_one_cycle (fst sl)).
End ValidatorParts.

(** *** The vectors of a dataset *)

(** Every node vector of the dataset, in the order the loops visit them. *)
Definition node_vectors {V : Type} (samps : list (graph V)) : list V :=
  flat_map (fun s => map data s) samps.

(** Every edge vector of the dataset, once per end point, in the order the
    loops visit them. *)
Definition edges_of {V : Type} (s : graph V) : list V :=
  flat_map (fun nd => map snd (neighbors nd)) s.

Definition edge_vectors {V : Type} (samps : list (graph V)) : list V :=
  flat_map edges_of samps.

(** One plus the largest of a list of indices, and zero when there is no
    index at all. *)
Definition one_plus_max_index (idxs : list nat) : nat :=
  match idxs with
  | [] => 0%nat
  | _ => S (list_max idxs)
  end.

(** The indices and the entries a feature vector holds, and how the two
    helpers [min] and [max_index_plus_one] read them. *)
Class FeatureVectorContent (V PSI : Type) {FV : FeatureVector V PSI} : Type := {
  vect_indices : V -> list nat;
  vect_entries : V -> list Z;
  vect_min_negative : forall v,
    (vect_min v <? 0) = existsb (fun x => x <? 0) (vect_entries v);
  max_index_plus_one_indices : forall v,
    max_index_plus_one v = one_plus_max_index (vect_indices v);
  max_index_plus_one_long_fits : forall v,
    Z.of_nat (max_index_plus_one v) < 2 ^ 63 ->
    max_index_plus_one_long v = Z.of_nat (max_index_plus_one v)
}.

(** The largest of a list of [long] values, and zero when none is above
    zero: what [std::max] leaves in a member that starts at zero. *)
Definition largest_long (l : list Z) : Z := fold_right Z.max 0 l.

(** The indices of a dataset for which one plus the index is a [long]. *)
Definition indices_fit_long {V PSI : Type} {FV : FeatureVector V PSI}
  {FC : FeatureVectorContent V PSI} (samps : list (graph V)) : Prop :=
  forall v i, In v (node_vectors samps ++ edge_vectors samps) ->
    In i (vect_indices v) -> Z.of_nat i < 2 ^ 63 - 1.

(** The conditions under which the validator is documented to return true:
    a learning problem, one label per node, no edge from a node to itself,
    no negative entry in an edge vector and, for matrices, one size for the
    node vectors, one size for the edge vectors, and no vector of size
    zero. *)
Definition documented_graph_labeling_problem {V PSI : Type}
  {FV : FeatureVector V PSI} {FC : FeatureVectorContent V PSI}
  (samps : list (graph V)) (labs : list label_type) : Prop :=
  is_learning_problem samps labs = true /\
  Forall2 (fun s l => length l = number_of_nodes s) samps labs /\
  Forall (fun s => graph_contains_length_one_cycle s = false) samps /\
  Forall (fun e => Forall (fun x => 0 <= x) (vect_entries e))
    (edge_vectors samps) /\
  (is_matrix = true ->
   (exists n, Forall (fun v => vect_size v = n) (node_vectors samps)) /\
   (exists n, Forall (fun v => vect_size v = n) (edge_vectors samps)) /\
   Forall (fun v => vect_size v <> 0%nat)
     (node_vectors samps ++ edge_vectors samps)).

(** A sparse dataset of one sample: a single node whose vector is empty. *)
Definition empty_node_sample : graph sparse_vect :=
  [ {| data := []; neighbors := [] |} ].

(** A sparse dataset of one sample: two nodes joined by an edge whose
    vector is empty. *)
Definition empty_edge_sample : graph sparse_vect :=
  [ {| data := [(0%nat, 1)]; neighbors := [(1%nat, [])] |};
    {| data := [(0%nat, 1)]; neighbors := [(0%nat, [])] |} ].

(** A sparse dataset of one sample: a single node whose vector stores one
    entry, at the index [2^63]. *)
Definition far_index_sample : graph sparse_vect :=
  [ {| data := [(Z.to_nat (2 ^ 63), 1)]; neighbors := [] |} ].

(** What of a state a caller can see after a call of [separation_oracle]:
    the object, [loss] and [psi]. *)
Definition oracle_outcome {V PSI : Type} (st : state V PSI)
  : problem V * Z * PSI :=
  (this st, loss_ref st, psi_ref st).

(** What the dense and the sparse loop keep in step: the dense vector has
    its full size and the two vectors have the same inner product with the
    weight vector [w]. *)
Definition same_score (p : problem sparse_vect) (w : matrix) (psi_d : matrix)
  (psi_s : sparse_vect) : Prop :=
  msize psi_d = edge_dims p + node_dims p /\
  inner psi_d w = inner_sparse psi_s w.

(** *** Scores *)

(** The edge-weight block of a weight vector: its entries
    [0 .. edge_dims - 1]. *)
Definition edge_weight_block {V : Type} (p : problem V) (w : matrix) : matrix :=
  firstn (Z.to_nat (edge_dims p)) w.

Section Scores.
Context {V PSI : Type} {FV : FeatureVector V PSI}.

(** The value of [dot(block, v)]. *)
Definition score_of (blk : matrix) (v : V) : Z :=
  match dot blk v with
  | Some d => d
  | None => 0
  end.

Definition edge_score (p : problem V) (w : matrix) (v : V) : Z :=
  score_of (edge_weight_block p w) v.

End Scores.

(** The sign of [dot]: on a block and a vector without a negative entry
    it is not negative. *)
Class FeatureVectorScore (V PSI : Type) {FV : FeatureVector V PSI}
  {FF : FeatureVectorFits V PSI} {FC : FeatureVectorContent V PSI} : Type := {
  dot_nonneg : forall blk v d,
    Forall (fun x => 0 <= x) blk ->
    Forall (fun x => 0 <= x) (vect_entries v) ->
    dot blk v = Some d -> 0 <= d
}.

(** A sparse sample whose indices lie below the dimensions of the problem. *)
Definition indices_within (p : problem sparse_vect) (samp : graph sparse_vect)
  : bool :=
  forallb (fun nd =>
    forallb (fun q => Z.of_nat (fst q) <? node_dims p) (data nd) &&
    forallb (fun nb =>
      forallb (fun q => Z.of_nat (fst q) <? edge_dims p) (snd nb))
      (neighbors nd)) samp.

(** *** Further sample data *)

(** Scenario A with sparse vectors: the node vector [1,0] is the pair
    (0,1) and the edge vector [1] is the pair (0,1). *)
Definition scenario_A_sparse_sample : graph sparse_vect := [
  {| data := [(0%nat, 1)]; neighbors := [(1%nat, [(0%nat, 1)])] |};
  {| data := [(0%nat, 1)];
     neighbors := [(0%nat, [(0%nat, 1)]); (2%nat, [(0%nat, 1)])] |};
  {| data := [(0%nat, 1)]; neighbors := [(1%nat, [(0%nat, 1)])] |}
].

Definition scenario_A_sparse_problem : problem sparse_vect :=
  {| samples := [scenario_A_sparse_sample]; labels := [scenario_A_labels];
     node_dims := 1; edge_dims := 1 |}.

(** Two nodes without an edge whose node vectors are [2^53] and [1], in
    [double], as sparse and as dense vectors. *)
Definition rounding_sample_sparse : graph (list (nat * double)) := [
  {| data := [(0%nat, double_of_Z (2 ^ 53))]; neighbors := [] |};
  {| data := [(0%nat, double_of_Z 1)]; neighbors := [] |}
].

Definition rounding_sample_dense : graph (list double) := [
  {| data := [double_of_Z (2 ^ 53)]; neighbors := [] |};
  {| data := [double_of_Z 1]; neighbors := [] |}
].

(** Two nodes joined by an edge: the node vectors [(0,1), (0,2)] and
    [(1,5)], the edge vector [(0,3)]; in the integers, in [double], and its
    dense reading in [double]. *)
Definition small_problem : problem sparse_vect :=
  {| samples := []; labels := []; node_dims := 2; edge_dims := 1 |}.

Definition small_sample : graph sparse_vect := [
  {| data := [(0%nat, 1); (0%nat, 2)]; neighbors := [(1%nat, [(0%nat, 3)])] |};
  {| data := [(1%nat, 5)]; neighbors := [(0%nat, [(0%nat, 3)])] |}
].

Definition small_sample_sparse : graph (list (nat * double)) := [
  {| data := [(0%nat, double_of_Z 1); (0%nat, double_of_Z 2)];
     neighbors := [(1%nat, [(0%nat, double_of_Z 3)])] |};
  {| data := [(1%nat, double_of_Z 5)];
     neighbors := [(0%nat, [(0%nat, double_of_Z 3)])] |}
].

Definition small_sample_dense : graph (list double) := [
  {| data := [double_of_Z 3; double_of_Z 0];
     neighbors := [(1%nat, [double_of_Z 3])] |};
  {| data := [double_of_Z 0; double_of_Z 5];
     neighbors := [(0%nat, [double_of_Z 3])] |}
].


Definition small_weights : list double := map double_of_Z [7; 11; 13].

(** Two nodes without an edge whose vectors point in opposite directions,
    the first labelled true and the second false. *)
Definition separable_sample : graph matrix := [
  {| data := [1]; neighbors := [] |};
  {| data := [-1]; neighbors := [] |}
].

Definition separable_problem : problem matrix :=
  {| samples := [separable_sample]; labels := [[1%N; 0%N]];
     node_dims := 1; edge_dims := 0 |}.

(** * Properties *)

(** ** The error monad and its loops *)

Lemma bind_Some {A B : Type} (m : option A) (f : A -> option B) (b : B) :
  bind m f = Some b <-> exists a, m = Some a /\ f a = Some b.
Proof.
  destruct m as [a|]; simpl; split.
  - intros H. exists a. auto.
  - intros [a' [E H]]. now inversion E; subst.
  - discriminate.
  - intros [a' [E _]]. discriminate.
Qed.

Lemma foldM_ext {A S : Type} (f g : S -> A -> option S) (l : list A) :
  (forall s a, In a l -> f s a = g s a) ->
  forall s, foldM f l s = foldM g l s.
Proof.
  induction l as [|a l IH]; intros H s; simpl; [reflexivity|].
  rewrite (H s a (or_introl eq_refl)).
  destruct (g s a); simpl; [|reflexivity].
  apply IH. intros s' a' Hin. apply H. now right.
Qed.

Lemma foldM_fixed {A S : Type} (f : S -> A -> option S) (l : list A) (s : S) :
  (forall a, In a l -> f s a = Some s) -> foldM f l s = Some s.
Proof.
  induction l as [|a l IH]; intros H; simpl; [reflexivity|].
  rewrite (H a (or_introl eq_refl)). simpl.
  apply IH. intros a' Hin. apply H. now right.
Qed.

(** A loop whose body is defined on every state that satisfies an invariant,
    and keeps it, is defined and ends in such a state. *)
Lemma foldM_invariant {A S : Type} (P : S -> Prop) (f : S -> A -> option S)
  (l : list A) :
  (forall s a, In a l -> P s -> exists s', f s a = Some s' /\ P s') ->
  forall s, P s -> exists s', foldM f l s = Some s' /\ P s'.
Proof.
  induction l as [|a l IH]; intros H s Hs; simpl.
  - exists s. auto.
  - destruct (H s a (or_introl eq_refl) Hs) as [s1 [E1 P1]].
    rewrite E1. simpl. apply IH; [|exact P1].
    intros s' a' Hin. apply H. now right.
Qed.

Lemma mapM_defined {A B : Type} (f : A -> option B) (l : list A) :
  (forall a, In a l -> exists b, f a = Some b) ->
  exists bs, mapM f l = Some bs /\ length bs = length l.
Proof.
  induction l as [|a l IH]; intros H; simpl.
  - exists []. auto.
  - destruct (H a (or_introl eq_refl)) as [b Eb]. rewrite Eb. simpl.
    destruct IH as [bs [Ebs Hl]]; [intros a' Hin; apply H; now right|].
    rewrite Ebs. simpl. exists (b :: bs). simpl. auto.
Qed.

Lemma mapM_ext {A B : Type} (f g : A -> option B) (l : list A) :
  (forall a, In a l -> f a = g a) -> mapM f l = mapM g l.
Proof.
  induction l as [|a l IH]; intros H; simpl; [reflexivity|].
  rewrite (H a (or_introl eq_refl)), IH; [reflexivity|].
  intros a' Hin. apply H. now right.
Qed.

Lemma mapM_nth_error {A B : Type} (f : A -> option B) (l : list A)
  (bs : list B) :
  mapM f l = Some bs ->
  forall i a, nth_error l i = Some a ->
  exists b, f a = Some b /\ nth_error bs i = Some b.
Proof.
  revert bs. induction l as [|x l IH]; intros bs H i a Hi.
  - destruct i; discriminate.
  - simpl in H. apply bind_Some in H. destruct H as [b [Eb H]].
    apply bind_Some in H. destruct H as [bs' [Ebs H]].
    inversion H; subst bs; clear H.
    destruct i as [|i]; simpl in Hi |- *.
    + inversion Hi; subst. exists b. auto.
    + eapply IH; eauto.
Qed.

(** ** Positions *)

Lemma in_indexed {A : Type} (l : list A) (i : nat) (a : A) :
  In (i, a) (indexed l) <-> nth_error l i = Some a.
Proof.
  unfold indexed.
  assert (G : forall k, In (i, a) (combine (seq k (length l)) l) <->
                        (k <= i)%nat /\ nth_error l (i - k) = Some a).
  { induction l as [|x l IH]; intros k; simpl.
    - split; [tauto|]. intros [_ H]. destruct (i - k)%nat; discriminate.
    - rewrite IH. split.
      + intros [E | [Hk Hn]].
        * inversion E; subst. rewrite Nat.sub_diag. simpl. auto.
        * split; [lia|]. replace (i - k)%nat with (S (i - S k)) by lia.
          exact Hn.
      + intros [Hk Hn]. destruct (Nat.eq_dec k i) as [->|Hne].
        * left. rewrite Nat.sub_diag in Hn. simpl in Hn. congruence.
        * right. split; [lia|].
          replace (i - k)%nat with (S (i - S k)) in Hn by lia. exact Hn. }
  rewrite G, Nat.sub_0_r. split; [tauto | intros H; split; [lia | exact H]].
Qed.

Lemma nth_error_defined {A : Type} (l : list A) (i : nat) :
  (i < length l)%nat -> exists a, nth_error l i = Some a.
Proof.
  intros H. destruct (nth_error l i) as [a|] eqn:E; [now exists a|].
  apply nth_error_None in E. lia.
Qed.

Lemma nth_error_nth_default {A : Type} (l : list A) (i : nat) (a d : A) :
  nth_error l i = Some a -> nth i l d = a.
Proof. intros H. now apply nth_error_nth. Qed.

(** ** Labels enter only through their truth value *)

Lemma same_truth_nth_error (l l' : label_type) (i : nat) :
  same_truth l l' ->
  option_map is_true_label (nth_error l i) =
  option_map is_true_label (nth_error l' i).
Proof.
  intros H. rewrite <- !nth_error_map. now rewrite H.
Qed.

Lemma same_truth_length (l l' : label_type) :
  same_truth l l' -> length l = length l'.
Proof.
  intros H. apply (f_equal (@length bool)) in H.
  now rewrite !length_map in H.
Qed.

Lemma same_truth_label_at (l l' : label_type) (i : nat) :
  same_truth l l' -> label_at l i = label_at l' i.
Proof.
  intros H. unfold label_at.
  pose proof (same_truth_nth_error l l' i H) as E.
  pose proof (same_truth_length l l' H) as L.
  destruct (nth_error l i) as [a|] eqn:Ea;
    destruct (nth_error l' i) as [b|] eqn:Eb; simpl in E; try discriminate.
  - assert (Ha : nth i l 0%N = a) by now apply nth_error_nth.
    assert (Hb : nth i l' 0%N = b) by now apply nth_error_nth.
    rewrite Ha, Hb. congruence.
  - apply nth_error_None in Ea. apply nth_error_None in Eb.
    rewrite !nth_overflow by lia. reflexivity.
Qed.

(** Case analysis on a pair of label reads under [same_truth]. *)
Ltac same_truth_cases H l l' i :=
  let E := fresh "E" in
  pose proof (same_truth_nth_error l l' i H) as E;
  destruct (nth_error l i); destruct (nth_error l' i);
  simpl in E; try discriminate; simpl; try reflexivity;
  try (injection E as E; try rewrite E).

Section JointFeatureVector.
Context {V PSI : Type} {FV : FeatureVector V PSI}.

Lemma joint_edge_step_same_truth (p : problem V) (l l' : label_type)
  (i : nat) (b : bool) (psi : PSI) (nb : nat * V) :
  same_truth l l' ->
  joint_edge_step p l i b psi nb = joint_edge_step p l' i b psi nb.
Proof.
  intros H. unfold joint_edge_step.
  same_truth_cases H l l' (fst nb). reflexivity.
Qed.

Lemma joint_node_step_same_truth (p : problem V) (l l' : label_type)
  (psi : PSI) (ind : nat * node_type V) :
  same_truth l l' ->
  joint_node_step p l psi ind = joint_node_step p l' psi ind.
Proof.
  intros H. destruct ind as [i nd]. unfold joint_node_step.
  same_truth_cases H l l' i.
  match goal with |- bind ?m _ = _ => destruct m; simpl; [|reflexivity] end.
  apply foldM_ext. intros s a _. now apply joint_edge_step_same_truth.
Qed.

Lemma get_joint_feature_vector_same_truth (p : problem V) (s : graph V)
  (l l' : label_type) :
  same_truth l l' ->
  get_joint_feature_vector p s l = get_joint_feature_vector p s l'.
Proof.
  intros H. unfold get_joint_feature_vector.
  apply foldM_ext. intros psi a _. now apply joint_node_step_same_truth.
Qed.

(** The loop reads the problem object only for its two dimensions. *)
Lemma get_joint_feature_vector_relabel (p : problem V)
  (labs : list label_type) (s : graph V) (l : label_type) :
  get_joint_feature_vector (relabel p labs) s l =
  get_joint_feature_vector p s l.
Proof. reflexivity. Qed.

(** With every label false no accumulation statement runs. *)
Lemma get_joint_feature_vector_all_false (p : problem V) (s : graph V)
  (l : label_type) :
  graph_wf s = true ->
  length l = number_of_nodes s ->
  Forall (fun x => x = 0%N) l ->
  get_joint_feature_vector p s l = Some (psi_init (get_num_dimensions p)).
Proof.
  intros Hwf Hlen Hall. unfold get_joint_feature_vector.
  assert (Hread : forall i, (i < length l)%nat -> nth_error l i = Some 0%N).
  { intros i Hi. destruct (nth_error_defined l i Hi) as [a Ea].
    rewrite Ea. f_equal.
    rewrite Forall_forall in Hall. apply Hall.
    eapply nth_error_In; eauto. }
  apply foldM_fixed. intros [i nd] Hin. apply in_indexed in Hin.
  assert (Hi : (i < length l)%nat).
  { rewrite Hlen. apply nth_error_Some. unfold number_of_nodes. congruence. }
  unfold joint_node_step. rewrite (Hread i Hi). simpl.
  apply foldM_fixed. intros nb Hnb.
  unfold joint_edge_step.
  unfold graph_wf in Hwf. rewrite forallb_forall in Hwf.
  assert (Hnd : In nd s) by (eapply nth_error_In; eauto).
  specialize (Hwf nd Hnd). rewrite forallb_forall in Hwf.
  specialize (Hwf nb Hnb). apply Nat.ltb_lt in Hwf.
  rewrite (Hread (fst nb)) by lia. simpl.
  now rewrite andb_false_r.
Qed.
End JointFeatureVector.

(** ** Dense blocks *)

Lemma length_zip_with (f : Z -> Z -> Z) (a b : matrix) :
  length (zip_with f a b) = Nat.min (length a) (length b).
Proof.
  revert b. induction a as [|x a IH]; intros [|y b]; simpl; auto.
Qed.

Lemma msize_zeros (n : Z) : 0 <= n -> msize (zeros n) = n.
Proof.
  intros H. unfold msize, zeros. rewrite repeat_length. lia.
Qed.

Lemma rowm_range_defined (m : matrix) (first last : Z) :
  0 <= first -> first <= last -> last < msize m ->
  exists blk, rowm_range m first last = Some blk /\
              msize blk = last - first + 1.
Proof.
  intros H0 H1 H2. unfold rowm_range.
  replace ((0 <=? first) && (first <=? last) && (last <? msize m)) with true
    by (symmetry; rewrite !andb_true_iff; lia).
  eexists. split; [reflexivity|].
  unfold msize in *. rewrite length_firstn, length_skipn. lia.
Qed.

Lemma set_rowm_range_defined (m : matrix) (first last : Z) (v : matrix) :
  0 <= first -> first <= last -> last < msize m ->
  msize v = last - first + 1 ->
  exists r, set_rowm_range m first last v = Some r /\ msize r = msize m.
Proof.
  intros H0 H1 H2 H3. unfold set_rowm_range.
  replace ((0 <=? first) && (first <=? last) && (last <? msize m)
           && (msize v =? last - first + 1)) with true
    by (symmetry; rewrite !andb_true_iff; lia).
  eexists. split; [reflexivity|].
  unfold msize in *. rewrite !length_app, length_firstn, length_skipn. lia.
Qed.

Lemma mat_add_defined (a b : matrix) :
  msize a = msize b ->
  exists s, mat_add a b = Some s /\ msize s = msize a.
Proof.
  intros H. unfold mat_add. rewrite H, Z.eqb_refl.
  eexists. split; [reflexivity|].
  unfold msize in *. rewrite length_zip_with. lia.
Qed.

Lemma mat_sub_defined (a b : matrix) :
  msize a = msize b ->
  exists s, mat_sub a b = Some s /\ msize s = msize a.
Proof.
  intros H. unfold mat_sub. rewrite H, Z.eqb_refl.
  eexists. split; [reflexivity|].
  unfold msize in *. rewrite length_zip_with. lia.
Qed.

Lemma add_node_block_defined (ed nd : Z) (psi v : matrix) :
  0 <= ed -> 0 < nd -> msize psi = ed + nd -> msize v = nd ->
  exists psi', add_node_block ed psi v = Some psi' /\ msize psi' = ed + nd.
Proof.
  intros Hed Hnd Hpsi Hv. unfold add_node_block.
  destruct (rowm_range_defined psi ed (msize psi - 1)) as [blk [E1 L1]];
    try lia.
  rewrite E1. simpl.
  destruct (mat_add_defined blk v) as [s [E2 L2]]; try lia.
  rewrite E2. simpl.
  destruct (set_rowm_range_defined psi ed (msize psi - 1) s) as [r [E3 L3]];
    try lia.
  exists r. split; [exact E3 | lia].
Qed.

Lemma sub_edge_block_defined (ed nd : Z) (psi v : matrix) :
  0 < ed -> 0 <= nd -> msize psi = ed + nd -> msize v = ed ->
  exists psi', sub_edge_block ed psi v = Some psi' /\ msize psi' = ed + nd.
Proof.
  intros Hed Hnd Hpsi Hv. unfold sub_edge_block.
  destruct (rowm_range_defined psi 0 (ed - 1)) as [blk [E1 L1]]; try lia.
  rewrite E1. simpl.
  destruct (mat_sub_defined blk v) as [s [E2 L2]]; try lia.
  rewrite E2. simpl.
  destruct (set_rowm_range_defined psi 0 (ed - 1) s) as [r [E3 L3]];
    try lia.
  exists r. split; [exact E3 | lia].
Qed.

#[export, refine] Instance dense_fits : FeatureVectorFits matrix matrix := {
  vect_fits := fun n v => msize v =? n;
  psi_fits := fun n psi => msize psi =? n
}.
Proof.
  - intros blk v H. apply Z.eqb_eq in H. simpl. unfold dot_dense.
    rewrite H, Z.eqb_refl. eauto.
  - intros n H. apply Z.eqb_eq. now apply msize_zeros.
  - intros ed nd psi v Hed Hnd Hpsi Hv. simpl.
    apply Z.eqb_eq in Hpsi. apply Z.eqb_eq in Hv.
    destruct (add_node_block_defined ed nd psi v) as [r [E L]]; auto.
    exists r. split; [exact E | now apply Z.eqb_eq].
  - intros ed nd psi v Hed Hnd Hpsi Hv. simpl.
    apply Z.eqb_eq in Hpsi. apply Z.eqb_eq in Hv.
    destruct (sub_edge_block_defined ed nd psi v) as [r [E L]]; auto.
    exists r. split; [exact E | now apply Z.eqb_eq].
Defined.

#[export, refine] Instance sparse_fits
  : FeatureVectorFits sparse_vect sparse_vect := {
  vect_fits := fun n v => forallb (fun p => Z.of_nat (fst p) <? n) v;
  psi_fits := fun _ _ => true
}.
Proof.
  - intros blk v _. simpl. eauto.
  - reflexivity.
  - intros; simpl; eauto.
  - intros; simpl; eauto.
Defined.

(** ** The joint feature vector and the Potts graph are defined *)

Section Defined.
Context {V PSI : Type} {FV : FeatureVector V PSI}
  {FF : FeatureVectorFits V PSI}.

Lemma sample_fits_dims (p : problem V) (s : graph V) :
  sample_fits p s = true -> 0 <= edge_dims p /\ 0 <= node_dims p.
Proof.
  unfold sample_fits. rewrite !andb_true_iff. lia.
Qed.

Lemma sample_fits_node (p : problem V) (s : graph V) (nd : node_type V) :
  sample_fits p s = true -> In nd s ->
  0 < node_dims p /\ vect_fits (node_dims p) (data nd) = true.
Proof.
  unfold sample_fits. rewrite !andb_true_iff, forallb_forall.
  intros [_ H] Hin. specialize (H nd Hin).
  rewrite !andb_true_iff in H. split; [lia | tauto].
Qed.

Lemma sample_fits_edge (p : problem V) (s : graph V) (nd : node_type V)
  (nb : nat * V) :
  sample_fits p s = true -> In nd s -> In nb (neighbors nd) ->
  0 < edge_dims p /\ vect_fits (edge_dims p) (snd nb) = true.
Proof.
  unfold sample_fits. rewrite !andb_true_iff, forallb_forall.
  intros [_ H] Hin Hnb. specialize (H nd Hin).
  rewrite !andb_true_iff, forallb_forall in H.
  destruct H as [_ H]. specialize (H nb Hnb).
  rewrite !andb_true_iff in H. split; [lia | tauto].
Qed.

Lemma graph_wf_neighbor (s : graph V) (nd : node_type V) (nb : nat * V) :
  graph_wf s = true -> In nd s -> In nb (neighbors nd) ->
  (fst nb < number_of_nodes s)%nat.
Proof.
  unfold graph_wf. rewrite forallb_forall. intros H Hin Hnb.
  specialize (H nd Hin). rewrite forallb_forall in H.
  apply Nat.ltb_lt. now apply H.
Qed.

Lemma get_joint_feature_vector_defined (p : problem V) (s : graph V)
  (l : label_type) :
  graph_wf s = true ->
  length l = number_of_nodes s ->
  sample_fits p s = true ->
  exists psi, get_joint_feature_vector p s l = Some psi /\
              psi_fits (get_num_dimensions p) psi = true.
Proof.
  intros Hwf Hlen Hfit. unfold get_joint_feature_vector.
  destruct (sample_fits_dims p s Hfit) as [Hed Hnd].
  apply (foldM_invariant
           (fun psi => psi_fits (get_num_dimensions p) psi = true)).
  2: { apply psi_init_fits. unfold get_num_dimensions. lia. }
  intros psi [i nd] Hin Hpsi. apply in_indexed in Hin.
  assert (Hnode : In nd s) by (eapply nth_error_In; eauto).
  assert (Hi : (i < length l)%nat).
  { rewrite Hlen. apply nth_error_Some. unfold number_of_nodes. congruence. }
  destruct (nth_error_defined l i Hi) as [li Eli].
  unfold joint_node_step. rewrite Eli. simpl.
  destruct (sample_fits_node p s nd Hfit Hnode) as [Hnd0 Hv].
  assert (Hstep : exists psi1,
    (if is_true_label li then psi_add_node (edge_dims p) psi (data nd)
     else Some psi) = Some psi1 /\
    psi_fits (get_num_dimensions p) psi1 = true).
  { destruct (is_true_label li); [|eauto].
    apply psi_add_node_defined; auto. }
  destruct Hstep as [psi1 [E1 F1]]. rewrite E1. simpl.
  apply (foldM_invariant
           (fun psi => psi_fits (get_num_dimensions p) psi = true));
    [|exact F1].
  intros psi2 nb Hnb F2. unfold joint_edge_step.
  pose proof (graph_wf_neighbor s nd nb Hwf Hnode Hnb) as Hj.
  destruct (nth_error_defined l (fst nb)) as [lj Elj]; [lia|].
  rewrite Elj. simpl.
  destruct ((i <? fst nb)%nat && xorb (is_true_label li) (is_true_label lj));
    [|eauto].
  destruct (sample_fits_edge p s nd nb Hfit Hnode Hnb) as [Hed0 He].
  apply psi_sub_edge_defined; auto.
Qed.

Lemma potts_graph_of_defined (p : problem V) (s : graph V)
  (truth : label_type) (w : matrix) :
  length truth = number_of_nodes s ->
  sample_fits p s = true ->
  msize w = get_num_dimensions p ->
  exists g, potts_graph_of p s truth w = Some g /\
            length g = number_of_nodes s.
Proof.
  intros Hlen Hfit Hw. unfold potts_graph_of.
  destruct (sample_fits_dims p s Hfit) as [Hed Hnd].
  unfold get_num_dimensions in Hw.
  destruct (mapM_defined (potts_node_of p truth w) (indexed s)) as [g [E L]].
  2: { exists g. split; [exact E|]. rewrite L. unfold indexed.
       rewrite length_combine, length_seq. unfold number_of_nodes. lia. }
  intros [i nd] Hin. apply in_indexed in Hin.
  assert (Hnode : In nd s) by (eapply nth_error_In; eauto).
  destruct (sample_fits_node p s nd Hfit Hnode) as [Hnd0 Hv].
  unfold potts_node_of.
  destruct (rowm_range_defined w (edge_dims p) (msize w - 1))
    as [blk [Eb Lb]]; try lia.
  rewrite Eb. simpl.
  destruct (dot_defined blk (data nd)) as [d Ed].
  { replace (msize blk) with (node_dims p) by lia. exact Hv. }
  rewrite Ed. simpl.
  destruct (nth_error_defined truth i) as [t Et].
  { rewrite Hlen. apply nth_error_Some. unfold number_of_nodes. congruence. }
  rewrite Et. simpl.
  destruct (mapM_defined (potts_link p w i) (neighbors nd)) as [ls [El _]].
  2: { rewrite El. simpl. eauto. }
  intros nb Hnb. unfold potts_link.
  destruct (i <? fst nb)%nat; [|eauto].
  destruct (sample_fits_edge p s nd nb Hfit Hnode Hnb) as [Hed0 He].
  destruct (rowm_range_defined w 0 (edge_dims p - 1)) as [eb [Ee Le]];
    try lia.
  rewrite Ee. simpl.
  destruct (dot_defined eb (snd nb)) as [x Ex].
  { replace (msize eb) with (edge_dims p) by lia. exact He. }
  rewrite Ex. simpl. eauto.
Qed.
End Defined.

(** ** The loss of the oracle *)

Lemma filter_length_zero {A : Type} (f : A -> bool) (l : list A) :
  length (filter f l) = 0%nat <-> forall x, In x l -> f x = false.
Proof.
  induction l as [|a l IH]; simpl.
  - split; [intros _ x [] | reflexivity].
  - destruct (f a) eqn:E; simpl.
    + split; [discriminate|]. intros H.
      rewrite (H a (or_introl eq_refl)) in E. discriminate.
    + rewrite IH. split.
      * intros H x [<-|Hin]; auto.
      * intros H x Hin. apply H. now right.
Qed.

Lemma label_at_nth_error (l : label_type) (i : nat) (x : node_label) :
  nth_error l i = Some x -> label_at l i = is_true_label x.
Proof.
  intros H. unfold label_at. f_equal. now apply nth_error_nth.
Qed.

Lemma oracle_loss_from (truth pre l : label_type) (acc : Z) :
  (length pre + length l <= length truth)%nat ->
  foldM (loss_step truth) (combine (seq (length pre) (length l)) l) acc =
  Some (acc + Z.of_nat (length (filter (disagree truth (pre ++ l))
                                  (seq (length pre) (length l))))).
Proof.
  revert pre acc. induction l as [|x l IH]; intros pre acc Hlen.
  - simpl. f_equal. lia.
  - simpl in Hlen. cbn [length seq combine foldM filter].
    unfold loss_step at 1. cbn [fst snd].
    destruct (nth_error_defined truth (length pre)) as [t Et]; [lia|].
    rewrite Et. cbn [bind].
    assert (Hd : disagree truth (pre ++ x :: l) (length pre) =
                 xorb (is_true_label t) (is_true_label x)).
    { unfold disagree. rewrite (label_at_nth_error truth _ t Et).
      f_equal. apply label_at_nth_error.
      rewrite nth_error_app2, Nat.sub_diag by lia. reflexivity. }
    rewrite Hd.
    specialize (IH (pre ++ [x])).
    rewrite length_app in IH. cbn [length] in IH.
    replace (length pre + 1)%nat with (S (length pre)) in IH by lia.
    rewrite <- app_assoc in IH. cbn [app] in IH.
    destruct (xorb (is_true_label t) (is_true_label x)); cbn [bind length];
      rewrite IH by lia; f_equal; lia.
Qed.

Lemma oracle_loss_hamming (truth labeling : label_type) :
  (length labeling <= length truth)%nat ->
  oracle_loss truth labeling =
  Some (hamming_distance (length labeling) truth labeling).
Proof.
  intros H. unfold oracle_loss, indexed, hamming_distance.
  pose proof (oracle_loss_from truth [] labeling 0) as G.
  cbn [length app Nat.add] in G. rewrite G by lia. reflexivity.
Qed.

Lemma hamming_distance_bounds (n : nat) (truth labeling : label_type) :
  0 <= hamming_distance n truth labeling <= Z.of_nat n.
Proof.
  unfold hamming_distance.
  pose proof (filter_length_le (disagree truth labeling) (seq 0 n)) as H.
  rewrite length_seq in H. lia.
Qed.

Lemma hamming_distance_zero (n : nat) (truth labeling : label_type) :
  hamming_distance n truth labeling = 0 <->
  forall i, (i < n)%nat -> label_at labeling i = label_at truth i.
Proof.
  unfold hamming_distance.
  rewrite <- Nat2Z.inj_0, Nat2Z.inj_iff, filter_length_zero.
  split.
  - intros H i Hi. specialize (H i). rewrite in_seq in H.
    unfold disagree in H.
    destruct (label_at labeling i), (label_at truth i);
      try reflexivity; simpl in H; discriminate H; lia.
  - intros H i Hi. apply in_seq in Hi. unfold disagree.
    rewrite (H i) by lia. apply xorb_nilpotent.
Qed.

(** ** The reference solver returns one label per node *)

Lemma all_labelings_length (n : nat) (l : label_type) :
  In l (all_labelings n) -> length l = n.
Proof.
  revert l. induction n as [|n IH]; intros l; simpl.
  - intros [<-|[]]. reflexivity.
  - rewrite in_flat_map. intros [l' [Hin [<-|[<-|[]]]]]; simpl;
      now rewrite (IH l' Hin).
Qed.

Lemma exhaustive_potts_length (g : potts_graph) :
  length (exhaustive_potts g) = length g.
Proof.
  unfold exhaustive_potts.
  assert (G : forall ls best,
    (forall l, In l ls -> length l = length g) ->
    length best = length g ->
    length (fold_left (fun best l =>
      if potts_score g best <? potts_score g l then l else best) ls best)
    = length g).
  { induction ls as [|l ls IH]; intros best Hls Hb; simpl; [exact Hb|].
    apply IH; [intros l' Hin; apply Hls; now right|].
    destruct (potts_score g best <? potts_score g l);
      [apply Hls; now left | exact Hb]. }
  apply G; [apply all_labelings_length | apply repeat_length].
Qed.

Lemma nth_error_indexed {A : Type} (l : list A) (i : nat) (a : A) :
  nth_error l i = Some a -> nth_error (indexed l) i = Some (i, a).
Proof.
  unfold indexed.
  assert (G : forall k j, nth_error l j = Some a ->
    nth_error (combine (seq k (length l)) l) j = Some ((k + j)%nat, a)).
  { induction l as [|x l IH]; intros k [|j] H; simpl in *; try discriminate.
    - inversion H. now rewrite Nat.add_0_r.
    - rewrite (IH (S k) j H). f_equal. f_equal. lia. }
  apply (G 0%nat i).
Qed.

(** ** The oracle *)

Section OracleProperties.
Context {V PSI : Type} {FV : FeatureVector V PSI}.

Lemma potts_graph_of_same_truth (p : problem V) (s : graph V)
  (l l' : label_type) (w : matrix) :
  same_truth l l' -> potts_graph_of p s l w = potts_graph_of p s l' w.
Proof.
  intros H. unfold potts_graph_of. apply mapM_ext.
  intros [i nd] _. unfold potts_node_of.
  destruct (rowm_range w (edge_dims p) (msize w - 1)); simpl; [|reflexivity].
  destruct (dot m (data nd)); simpl; [|reflexivity].
  same_truth_cases H l l' i. reflexivity.
Qed.

Lemma oracle_loss_same_truth (l l' labeling : label_type) :
  same_truth l l' -> oracle_loss l labeling = oracle_loss l' labeling.
Proof.
  intros H. unfold oracle_loss. apply foldM_ext.
  intros loss il _. unfold loss_step.
  same_truth_cases H l l' (fst il). reflexivity.
Qed.

Lemma separation_oracle_same_truth
  (solver : potts_graph -> label_type) (p : problem V)
  (labs' : list label_type) (idx : nat) (w : matrix) (l l' : label_type) :
  nth_error (labels p) idx = Some l ->
  nth_error labs' idx = Some l' ->
  same_truth l l' ->
  separation_oracle solver (relabel p labs') idx w =
  separation_oracle solver p idx w.
Proof.
  intros El El' H.
  unfold separation_oracle, oracle_graph, oracle_result.
  cbn [relabel samples labels]. rewrite El, El'.
  destruct (nth_error (samples p) idx) as [samp|]; cbn [bind];
    [|reflexivity].
  change (potts_graph_of (relabel p labs') samp l' w)
    with (potts_graph_of p samp l' w).
  rewrite <- (potts_graph_of_same_truth p samp l l' w H).
  destruct (potts_graph_of p samp l w) as [g|]; cbn [bind]; [|reflexivity].
  rewrite <- (oracle_loss_same_truth l l' (solver g) H).
  reflexivity.
Qed.
End OracleProperties.

Lemma oracle_loss_same_truth_labeling (truth l l' : label_type) :
  same_truth l l' -> oracle_loss truth l = oracle_loss truth l'.
Proof.
  unfold oracle_loss, indexed, same_truth. generalize 0. generalize 0%nat.
  revert l'. induction l as [|x l IH]; intros [|y l'] k acc H;
    simpl in H; try discriminate; [reflexivity|].
  injection H as Hxy Hl. cbn [length seq combine foldM].
  unfold loss_step at 1 3. cbn [fst snd]. rewrite Hxy.
  destruct (nth_error truth k); cbn [bind]; [|reflexivity].
  destruct (xorb (is_true_label n) (is_true_label y)); cbn [bind];
    now apply IH.
Qed.

(** ** What [min] and [max_index_plus_one] read *)

Lemma to_long_small (x : nat) : Z.of_nat x < 2 ^ 63 -> to_long x = Z.of_nat x.
Proof.
  intros H. unfold to_long.
  rewrite Z.mod_small by lia.
  destruct (Z.of_nat x <? 2 ^ 63) eqn:E; [reflexivity | lia].
Qed.

Lemma to_long_range (x : nat) : - 2 ^ 63 <= to_long x < 2 ^ 63.
Proof.
  unfold to_long.
  pose proof (Z.mod_pos_bound (Z.of_nat x) (2 ^ 64) ltac:(lia)) as H.
  destruct (Z.of_nat x mod 2 ^ 64 <? 2 ^ 63) eqn:E; lia.
Qed.

Lemma one_plus_max_index_list_max (l : list nat) :
  one_plus_max_index l = list_max (map S l).
Proof.
  destruct l as [|a l]; [reflexivity|].
  unfold one_plus_max_index, list_max. revert a.
  induction l as [|b l IH]; intros a.
  - cbn [map fold_right]. lia.
  - specialize (IH b). cbn [map fold_right] in *. lia.
Qed.

Lemma list_max_seq (k n : nat) : list_max (seq k (S n)) = (k + n)%nat.
Proof.
  revert k. induction n as [|n IH]; intros k.
  - simpl. lia.
  - change (seq k (S (S n))) with (k :: seq (S k) (S n)).
    cbn [list_max fold_right]. fold (list_max (seq (S k) (S n))).
    rewrite IH. lia.
Qed.

Lemma fold_min_negative {A : Type} (f : A -> Z) (l : list A) (a : Z) :
  (fold_left (fun acc x => Z.min acc (f x)) l a <? 0) =
  (a <? 0) || existsb (fun x => x <? 0) (map f l).
Proof.
  revert a. induction l as [|y l IH]; intros a; simpl.
  - now rewrite orb_false_r.
  - rewrite IH, orb_assoc. f_equal.
    destruct (a <? 0) eqn:Ea, (f y <? 0) eqn:Ey; simpl; lia.
Qed.

Lemma fold_max_index (l : sparse_vect) (a : nat) :
  fold_left (fun acc p => Nat.max acc (S (fst p))) l a =
  Nat.max a (list_max (map S (map fst l))).
Proof.
  unfold list_max. revert a.
  induction l as [|p l IH]; intros a; cbn [fold_left map fold_right].
  - lia.
  - rewrite IH. lia.
Qed.

#[export, refine] Instance dense_content
  : FeatureVectorContent matrix matrix := {
  vect_indices := fun v => seq 0 (length v);
  vect_entries := fun v => v
}.
Proof.
  - intros [|x m]; [reflexivity|]. simpl.
    rewrite <- (map_id m) at 2.
    exact (fold_min_negative (fun y => y) m x).
  - intros [|x m]; [reflexivity|]. simpl max_index_plus_one.
    unfold one_plus_max_index.
    change (seq 0 (length (x :: m))) with (0%nat :: seq 1 (length m)).
    change (0%nat :: seq 1 (length m)) with (seq 0 (S (length m))).
    now rewrite list_max_seq.
  - reflexivity.
Defined.

#[export, refine] Instance sparse_content
  : FeatureVectorContent sparse_vect sparse_vect := {
  vect_indices := map fst;
  vect_entries := map snd
}.
Proof.
  - intros v. simpl. unfold min_sparse.
    now rewrite (fold_min_negative snd v 0).
  - intros v. simpl. unfold max_index_plus_one_sparse.
    now rewrite fold_max_index, one_plus_max_index_list_max.
  - intros v H. cbn [max_index_plus_one max_index_plus_one_long
      sparse_vectors] in *. now apply to_long_small.
Defined.

(** ** The dimension scan *)

Section Scan.
Context {V PSI : Type} {FV : FeatureVector V PSI}
  {FC : FeatureVectorContent V PSI}.

Lemma list_max_indices (vs : list V) :
  list_max (map max_index_plus_one vs) =
  one_plus_max_index (flat_map vect_indices vs).
Proof.
  rewrite one_plus_max_index_list_max.
  induction vs as [|v vs IH]; [reflexivity|].
  cbn [map flat_map list_max fold_right].
  fold (list_max (map max_index_plus_one vs)).
  rewrite map_app, list_max_app, IH, max_index_plus_one_indices.
  now rewrite one_plus_max_index_list_max.
Qed.

Lemma largest_long_nonneg (l : list Z) : 0 <= largest_long l.
Proof.
  unfold largest_long. induction l as [|x l IH]; cbn [fold_right]; lia.
Qed.

Lemma largest_long_app (l1 l2 : list Z) :
  largest_long (l1 ++ l2) = Z.max (largest_long l1) (largest_long l2).
Proof.
  unfold largest_long. induction l1 as [|x l1 IH]; cbn [app fold_right].
  - pose proof (largest_long_nonneg l2). unfold largest_long in *. lia.
  - rewrite IH. lia.
Qed.

Lemma scan_edges_max (ed : Z) (nbs : list (nat * V)) :
  0 <= ed ->
  scan_edges ed nbs =
  Z.max ed (largest_long (map max_index_plus_one_long (map snd nbs))).
Proof.
  unfold scan_edges, largest_long. revert ed.
  induction nbs as [|nb nbs IH]; intros ed Hed;
    cbn [fold_left map fold_right].
  - lia.
  - rewrite IH by lia. lia.
Qed.

Lemma scan_nodes_max (samp : graph V) (st : Z * Z) :
  0 <= fst st -> 0 <= snd st ->
  fold_left scan_node samp st =
  (Z.max (fst st)
     (largest_long (map max_index_plus_one_long (map data samp))),
   Z.max (snd st)
     (largest_long (map max_index_plus_one_long (edges_of samp)))).
Proof.
  revert st. induction samp as [|nd samp IH]; intros [a b] Ha Hb;
    cbn [fst snd] in *.
  - cbn. f_equal; lia.
  - cbn [fold_left]. unfold scan_node at 2. cbn [fst snd].
    rewrite scan_edges_max by lia. rewrite IH by (cbn [fst snd]; lia).
    cbn [fst snd map edges_of flat_map]. fold (edges_of samp).
    rewrite map_app, largest_long_app.
    unfold largest_long. cbn [fold_right]. f_equal; lia.
Qed.

Lemma scan_samples_max (samps : list (graph V)) (st : Z * Z) :
  0 <= fst st -> 0 <= snd st ->
  fold_left (fun st samp => fold_left scan_node samp st) samps st =
  (Z.max (fst st)
     (largest_long (map max_index_plus_one_long (node_vectors samps))),
   Z.max (snd st)
     (largest_long (map max_index_plus_one_long (edge_vectors samps)))).
Proof.
  revert st. induction samps as [|s samps IH]; intros [a b] Ha Hb;
    cbn [fst snd] in *.
  - cbn. f_equal; lia.
  - cbn [fold_left]. rewrite scan_nodes_max by (cbn [fst snd]; lia).
    rewrite IH by (cbn [fst snd]; lia). cbn [fst snd].
    unfold node_vectors, edge_vectors. cbn [flat_map].
    rewrite !map_app, !largest_long_app. f_equal; lia.
Qed.

(** The scan leaves in each member the largest [long] it has seen. *)
Lemma scan_dims_largest (samps : list (graph V)) :
  scan_dims samps =
  (largest_long (map max_index_plus_one_long (node_vectors samps)),
   largest_long (map max_index_plus_one_long (edge_vectors samps))).
Proof.
  unfold scan_dims. rewrite scan_samples_max by (cbn [fst snd]; lia).
  cbn [fst snd].
  pose proof (largest_long_nonneg
    (map max_index_plus_one_long (node_vectors samps))).
  pose proof (largest_long_nonneg
    (map max_index_plus_one_long (edge_vectors samps))).
  f_equal; lia.
Qed.

Lemma largest_long_of_nat (l : list nat) :
  largest_long (map Z.of_nat l) = Z.of_nat (list_max l).
Proof.
  unfold largest_long, list_max.
  induction l as [|x l IH]; cbn [map fold_right]; [reflexivity|].
  rewrite IH. lia.
Qed.

Lemma in_below_one_plus_max_index (l : list nat) (i : nat) :
  In i l -> (i < one_plus_max_index l)%nat.
Proof.
  intros Hin. destruct l as [|a l]; [destruct Hin|].
  unfold one_plus_max_index.
  assert (H : Forall (fun k => (k <= list_max (a :: l))%nat) (a :: l))
    by (apply list_max_le; lia).
  rewrite Forall_forall in H. specialize (H i Hin). lia.
Qed.

Lemma one_plus_max_index_bound (l : list nat) (b : Z) :
  0 < b -> (forall i, In i l -> Z.of_nat i < b - 1) ->
  Z.of_nat (one_plus_max_index l) < b.
Proof.
  intros Hb H. destruct l as [|a l]; [simpl; lia|].
  unfold one_plus_max_index.
  assert (L : (list_max (a :: l) < Z.to_nat (b - 1))%nat).
  { apply list_max_lt; [discriminate|]. apply Forall_forall.
    intros i Hi. specialize (H i Hi). lia. }
  lia.
Qed.

(** When one plus every index is a [long], the conversions of lines 179
    and 182 change nothing. *)
Lemma largest_long_indices (vs : list V) :
  (forall v i, In v vs -> In i (vect_indices v) -> Z.of_nat i < 2 ^ 63 - 1) ->
  largest_long (map max_index_plus_one_long vs) =
  Z.of_nat (one_plus_max_index (flat_map vect_indices vs)).
Proof.
  intros H. rewrite <- list_max_indices, <- largest_long_of_nat, map_map.
  f_equal. apply map_ext_in. intros v Hv.
  apply max_index_plus_one_long_fits.
  rewrite max_index_plus_one_indices.
  apply one_plus_max_index_bound; [lia|]. intros i Hi. exact (H v i Hv Hi).
Qed.

Lemma scan_dims_indices (samps : list (graph V)) :
  indices_fit_long samps ->
  scan_dims samps =
  (Z.of_nat (one_plus_max_index (flat_map vect_indices (node_vectors samps))),
   Z.of_nat (one_plus_max_index (flat_map vect_indices (edge_vectors samps)))).
Proof.
  intros H. rewrite scan_dims_largest.
  rewrite !largest_long_indices; [reflexivity| |];
    intros v i Hv Hi; apply (H v i); auto; apply in_or_app; auto.
Qed.

End Scan.

Lemma scenario_A_sparse_indices_fit_long :
  indices_fit_long [scenario_A_sparse_sample].
Proof.
  intros v i Hv Hi. cbn in Hv.
  repeat (destruct Hv as [<- | Hv];
          [cbn in Hi; destruct Hi as [<- | []]; reflexivity|]).
  destruct Hv.
Qed.

(** ** The validator *)

Lemma foldM_app {A S : Type} (f : S -> A -> option S) (l1 l2 : list A)
  (s : S) :
  foldM f (l1 ++ l2) s = (s' <- foldM f l1 s ;; foldM f l2 s').
Proof.
  revert s. induction l1 as [|a l1 IH]; intros s; simpl; [reflexivity|].
  destruct (f s a); simpl; [apply IH | reflexivity].
Qed.

Section ValidatorProperties.
Context {V PSI : Type} {FV : FeatureVector V PSI}.

Lemma check_edge_vector (d : Z) (e : V) :
  check_edge d e = check_vector bad_edge d e.
Proof.
  unfold check_edge, check_vector, bad_edge, track_dims.
  destruct (is_matrix && (vect_size e =? 0)%nat); simpl; [reflexivity|].
  destruct (vect_min e <? 0); reflexivity.
Qed.

Lemma check_node_split (nd ed : Z) (x : node_type V) :
  check_node (nd, ed) x =
  (n1 <- check_vector bad_node nd (data x) ;;
   e1 <- foldM check_edge (map snd (neighbors x)) ed ;;
   Some (n1, e1)).
Proof.
  unfold check_node, check_vector, bad_node, track_dims.
  destruct (vect_size (data x) =? 0)%nat; [reflexivity|].
  destruct (is_matrix && negb _); reflexivity.
Qed.

Lemma check_nodes_split (samp : graph V) (nd ed : Z) :
  foldM check_node samp (nd, ed) =
  (n' <- foldM (check_vector bad_node) (map data samp) nd ;;
   e' <- foldM check_edge (edges_of samp) ed ;;
   Some (n', e')).
Proof.
  revert nd ed. induction samp as [|x samp IH]; intros nd ed;
    [reflexivity|].
  cbn [foldM map edges_of flat_map]. fold (edges_of samp).
  rewrite check_node_split, foldM_app.
  destruct (check_vector bad_node nd (data x)) as [n1|]; cbn [bind];
    [|reflexivity].
  destruct (foldM check_edge (map snd (neighbors x)) ed) as [e1|];
    cbn [bind].
  - apply IH.
  - now destruct (foldM (check_vector bad_node) (map data samp) n1).
Qed.

Lemma check_sample_guard (nd ed : Z) (sl : graph V * label_type) :
  check_sample (nd, ed) sl =
  if sample_guard sl then foldM check_node (fst sl) (nd, ed) else None.
Proof.
  destruct sl as [samp lab]. unfold check_sample, sample_guard. cbn [fst snd].
  destruct (number_of_nodes samp =? length lab)%nat; simpl; [|reflexivity].
  now destruct (graph_contains_length_one_cycle samp).
Qed.

Lemma check_samples_split (sls : list (graph V * label_type)) (nd ed : Z) :
  foldM check_sample sls (nd, ed) =
  if forallb sample_guard sls
  then
    n' <- foldM (check_vector bad_node) (node_vectors (map fst sls)) nd ;;
    e' <- foldM check_edge (edge_vectors (map fst sls)) ed ;;
    Some (n', e')
  else None.
Proof.
  revert nd ed. induction sls as [|sl sls IH]; intros nd ed;
    [reflexivity|].
  cbn [foldM forallb map]. unfold node_vectors, edge_vectors.
  cbn [flat_map]. fold (node_vectors (map fst sls)).
  fold (edge_vectors (map fst sls)).
  rewrite check_sample_guard, !foldM_app.
  destruct (sample_guard sl); cbn [andb bind]; [|reflexivity].
  rewrite check_nodes_split.
  destruct (foldM (check_vector bad_node) (map data (fst sl)) nd) as [n1|];
    cbn [bind]; [|now destruct (forallb sample_guard sls)].
  destruct (foldM check_edge (edges_of (fst sl)) ed) as [e1|]; cbn [bind].
  - apply IH.
  - destruct (forallb sample_guard sls); [|reflexivity].
    now destruct (foldM (check_vector bad_node) (node_vectors (map fst sls))
                    n1).
Qed.

(** Without matrices the size seen first plays no role. *)
Lemma check_vectors_sparse (bad : V -> bool) (vs : list V) (d d' : Z) :
  is_matrix = false ->
  foldM (check_vector bad) vs d = Some d' <->
  Forall (fun v => bad v = false) vs /\ d' = d.
Proof.
  intros Hm. revert d. induction vs as [|v vs IH]; intros d; cbn [foldM].
  - split; [intros H; inversion H; auto | intros [_ ->]; reflexivity].
  - unfold check_vector at 1, track_dims. rewrite Hm. cbn [andb].
    destruct (bad v) eqn:Eb; cbn [bind].
    + split; [discriminate|]. intros [H _]. inversion H; congruence.
    + rewrite IH. split; intros [H E]; (split; [|exact E]).
      * now constructor.
      * now inversion H.
Qed.

(** With matrices, once a size has been seen every later size must
    equal it. *)
Lemma check_vectors_seen (bad : V -> bool) (vs : list V) (n : nat) (d' : Z) :
  is_matrix = true ->
  foldM (check_vector bad) vs (Z.of_nat n) = Some d' <->
  Forall (fun v => bad v = false) vs /\
  Forall (fun v => vect_size v = n) vs /\ d' = Z.of_nat n.
Proof.
  intros Hm. induction vs as [|v vs IH]; cbn [foldM].
  - split; [intros H; inversion H; auto | intros [_ [_ ->]]; reflexivity].
  - unfold check_vector at 1, track_dims. rewrite Hm. cbn [andb].
    destruct (bad v) eqn:Eb; cbn [bind].
    + split; [discriminate|]. intros [H _]. inversion H; congruence.
    + replace (Z.of_nat n =? -1) with false by (symmetry; lia).
      destruct (Z.of_nat (vect_size v) =? Z.of_nat n) eqn:En; cbn [negb bind].
      * apply Z.eqb_eq in En. apply Nat2Z.inj in En.
        rewrite IH. split; intros [H1 [H2 H3]]; repeat split; auto.
        -- now inversion H1.
        -- now inversion H2.
      * apply Z.eqb_neq in En.
        split; [discriminate|]. intros [_ [H _]]. inversion H; subst. lia.
Qed.

Lemma check_vectors_first (bad : V -> bool) (vs : list V) :
  is_matrix = true ->
  (exists d', foldM (check_vector bad) vs (-1) = Some d') <->
  Forall (fun v => bad v = false) vs /\
  exists n, Forall (fun v => vect_size v = n) vs.
Proof.
  intros Hm. destruct vs as [|v vs]; cbn [foldM].
  - split; [intros _; split; [constructor | exists 0%nat; constructor]
           | intros _; eauto].
  - unfold check_vector at 1, track_dims. rewrite Hm. cbn [andb].
    destruct (bad v) eqn:Eb; cbn [bind].
    + split; [intros [d' H]; discriminate|].
      intros [H _]. inversion H; congruence.
    + rewrite Z.eqb_refl, Z.eqb_refl. cbn [negb bind]. split.
      * intros [d' H]. apply (check_vectors_seen bad vs _ d' Hm) in H.
        destruct H as [H1 [H2 _]]. split; [now constructor|].
        exists (vect_size v). now constructor.
      * intros [H1 [n H2]]. exists (Z.of_nat (vect_size v)).
        apply (check_vectors_seen bad vs _ _ Hm).
        inversion H1; subst. inversion H2; subst. auto.
Qed.

Lemma check_vectors_from_start (bad : V -> bool) (vs : list V) :
  (exists d', foldM (check_vector bad) vs (-1) = Some d') <->
  Forall (fun v => bad v = false) vs /\
  (is_matrix = true -> exists n, Forall (fun v => vect_size v = n) vs).
Proof.
  destruct is_matrix eqn:Hm.
  - rewrite (check_vectors_first bad vs Hm). split.
    + intros [H1 H2]. auto.
    + intros [H1 H2]. auto.
  - split.
    + intros [d' H]. apply (check_vectors_sparse bad vs _ _ Hm) in H.
      split; [tauto | discriminate].
    + intros [H _]. exists (-1).
      now apply (check_vectors_sparse bad vs _ _ Hm).
Qed.
End ValidatorProperties.

Lemma map_fst_combine_same {A B : Type} (a : list A) (b : list B) :
  length a = length b -> map fst (combine a b) = a.
Proof.
  revert b. induction a as [|x a IH]; intros [|y b] H; simpl in *;
    try discriminate; [reflexivity|].
  f_equal. apply IH. lia.
Qed.

Lemma no_negative_entry (l : list Z) :
  existsb (fun x => x <? 0) l = false <-> Forall (fun x => 0 <= x) l.
Proof.
  induction l as [|x l IH]; simpl.
  - split; [constructor | reflexivity].
  - rewrite orb_false_iff, IH, Z.ltb_ge. split.
    + intros [H1 H2]. now constructor.
    + intros H. inversion H; auto.
Qed.

Section ValidatorCharacterisation.
Context {V PSI : Type} {FV : FeatureVector V PSI}
  {FC : FeatureVectorContent V PSI}.

Lemma sample_guards (samps : list (graph V)) (labs : list label_type) :
  length samps = length labs ->
  forallb sample_guard (combine samps labs) = true <->
  Forall2 (fun s l => length l = number_of_nodes s) samps labs /\
  Forall (fun s => graph_contains_length_one_cycle s = false) samps.
Proof.
  revert labs. induction samps as [|s samps IH]; intros [|l labs] H;
    simpl in H; try discriminate.
  - simpl. split; [intros _; split; constructor | reflexivity].
  - cbn [combine forallb]. rewrite andb_true_iff, IH by lia.
    unfold sample_guard. cbn [fst snd].
    rewrite andb_true_iff, Nat.eqb_eq, negb_true_iff. split.
    + intros [[H1 H2] [H3 H4]]. split; constructor; auto.
    + intros [H1 H2]. inversion H1; subst. inversion H2; subst. auto.
Qed.

Lemma bad_node_false (v : V) :
  bad_node v = false <-> vect_size v <> 0%nat.
Proof. unfold bad_node. now rewrite Nat.eqb_neq. Qed.

Lemma bad_edge_false (e : V) :
  bad_edge e = false <->
  (is_matrix = true -> vect_size e <> 0%nat) /\
  Forall (fun x => 0 <= x) (vect_entries e).
Proof.
  unfold bad_edge.
  rewrite orb_false_iff, vect_min_negative, no_negative_entry.
  rewrite andb_false_iff, Nat.eqb_neq.
  destruct is_matrix; split; intros [H1 H2]; split; auto.
  - intros _. destruct H1; [discriminate | assumption].
  - intros; discriminate.
Qed.

(** What the validator computes: the documented conditions and, for
    either representation, that no node vector has size zero. *)
Lemma is_graph_labeling_problem_iff (samps : list (graph V))
  (labs : list label_type) :
  is_graph_labeling_problem samps labs = true <->
  documented_graph_labeling_problem samps labs /\
  Forall (fun v => vect_size v <> 0%nat) (node_vectors samps).
Proof.
  unfold is_graph_labeling_problem, documented_graph_labeling_problem.
  destruct (is_learning_problem samps labs) eqn:Elp; cbn [negb].
  2: { split; [discriminate | intros [[H _] _]; discriminate]. }
  assert (Hlen : length samps = length labs).
  { unfold is_learning_problem in Elp. apply andb_true_iff in Elp.
    now apply Nat.eqb_eq. }
  rewrite check_samples_split, (map_fst_combine_same _ _ Hlen).
  pose proof (sample_guards samps labs Hlen) as Hg.
  pose proof (check_vectors_from_start bad_node (node_vectors samps)) as Hn.
  pose proof (check_vectors_from_start bad_edge (edge_vectors samps)) as He.
  rewrite (foldM_ext check_edge (check_vector bad_edge))
    by (intros; apply check_edge_vector).
  assert (Hnodes : Forall (fun v => bad_node v = false) (node_vectors samps)
                   <-> Forall (fun v => vect_size v <> 0%nat)
                         (node_vectors samps)).
  { rewrite !Forall_forall. split; intros H v Hv; apply bad_node_false; auto. }
  assert (Hedges : Forall (fun v => bad_edge v = false) (edge_vectors samps)
                   <-> (is_matrix = true ->
                        Forall (fun v => vect_size v <> 0%nat)
                          (edge_vectors samps)) /\
                       Forall (fun e => Forall (fun x => 0 <= x)
                                 (vect_entries e)) (edge_vectors samps)).
  { rewrite !Forall_forall. split.
    - intros H. split; [intros Hm|]; intros v Hv;
        apply (bad_edge_false v) in H; tauto.
    - intros [H1 H2] v Hv. apply bad_edge_false. split; auto. }
  rewrite Hnodes in Hn. rewrite Hedges in He. clear Hnodes Hedges.
  split.
  - intros H.
    destruct (forallb sample_guard (combine samps labs)) eqn:Eg;
      [|discriminate].
    destruct (foldM (check_vector bad_node) (node_vectors samps) (-1))
      as [n'|] eqn:En; cbn [bind] in H; [|discriminate].
    destruct (foldM (check_vector bad_edge) (edge_vectors samps) (-1))
      as [e'|] eqn:Ee; cbn [bind] in H; [|discriminate].
    destruct Hg as [Hg _]. destruct (Hg eq_refl) as [G1 G2].
    destruct Hn as [Hn _]. destruct (Hn (ex_intro _ n' eq_refl)) as [N1 N2].
    destruct He as [He _].
    destruct (He (ex_intro _ e' eq_refl)) as [[E1 E2] E3].
    repeat split; auto.
    rewrite Forall_app. auto.
  - intros [[_ [G1 [G2 [E2 M]]]] N1].
    destruct Hg as [_ Hg]. rewrite (Hg (conj G1 G2)).
    destruct Hn as [_ Hn]. destruct Hn as [n' En].
    { split; [exact N1|]. intros Hm. now destruct (M Hm). }
    destruct He as [_ He]. destruct He as [e' Ee].
    { repeat split; auto.
      - intros Hm. destruct (M Hm) as [_ [_ H]].
        rewrite Forall_app in H. tauto.
      - intros Hm. now destruct (M Hm) as [_ [H _]]. }
    rewrite En, Ee. reflexivity.
Qed.
End ValidatorCharacterisation.

(** ** Inner products of blocks *)

Lemma sum_list_app (a b : list Z) :
  sum_list (a ++ b) = sum_list a + sum_list b.
Proof.
  unfold sum_list. induction a as [|x a IH]; simpl; [reflexivity|].
  rewrite IH. lia.
Qed.

Lemma inner_sparse_app (a b : sparse_vect) (w : matrix) :
  inner_sparse (a ++ b) w = inner_sparse a w + inner_sparse b w.
Proof. unfold inner_sparse. now rewrite map_app, sum_list_app. Qed.

Lemma inner_cons (x y : Z) (a b : matrix) :
  inner (x :: a) (y :: b) = x * y + inner a b.
Proof. reflexivity. Qed.

Lemma inner_sparse_cons (p : nat * Z) (v : sparse_vect) (w : matrix) :
  inner_sparse (p :: v) w = nth (fst p) w 0 * snd p + inner_sparse v w.
Proof. reflexivity. Qed.

Lemma inner_zeros (n : nat) (w : matrix) : inner (repeat 0 n) w = 0.
Proof.
  revert w. induction n as [|n IH]; intros [|y w]; try reflexivity.
  cbn [repeat]. rewrite inner_cons, IH. lia.
Qed.

(** Adding [v] to the rows from [k] on adds its product with the same rows
    of [w]. *)
Lemma inner_add_block (k : nat) (psi v w : matrix) :
  length psi = length w ->
  (length v + k = length psi)%nat ->
  inner (firstn k psi ++ zip_with Z.add (skipn k psi) v) w =
  inner psi w + inner v (skipn k w).
Proof.
  revert psi v w. induction k as [|k IH]; intros psi v w Hw Hv.
  - cbn [firstn skipn app]. rewrite Nat.add_0_r in Hv.
    revert v w Hw Hv. induction psi as [|x psi IHp]; intros [|a v] [|y w] Hw Hv;
      simpl in Hw, Hv; try discriminate; [reflexivity|].
    cbn [zip_with]. rewrite !inner_cons, IHp by lia. lia.
  - destruct psi as [|x psi]; destruct w as [|y w]; simpl in Hw, Hv;
      try discriminate; try lia.
    cbn [firstn skipn app]. rewrite !inner_cons, IH by lia. lia.
Qed.

(** Subtracting [v] from the first [k] rows subtracts its product with the
    same rows of [w]. *)
Lemma inner_sub_block (k : nat) (psi v w : matrix) :
  length psi = length w ->
  length v = k -> (k <= length psi)%nat ->
  inner (zip_with Z.sub (firstn k psi) v ++ skipn k psi) w =
  inner psi w - inner v (firstn k w).
Proof.
  revert psi v w. induction k as [|k IH]; intros psi v w Hw Hv Hk.
  - destruct v; [|discriminate]. cbn [firstn skipn zip_with app].
    unfold inner at 3. simpl. lia.
  - destruct psi as [|x psi]; destruct w as [|y w]; destruct v as [|a v];
      simpl in Hw, Hv, Hk; try discriminate; try lia.
    cbn [firstn skipn zip_with app]. rewrite !inner_cons, IH by lia. lia.
Qed.

(** The guards of the block operations, as arithmetic. *)
Ltac guard_true :=
  symmetry;
  rewrite ?andb_true_iff, ?Z.eqb_eq, ?Z.leb_le, ?Z.ltb_lt,
    ?length_zip_with, ?length_skipn, ?length_firstn;
  lia.

Lemma add_node_block_eq (ed nd : Z) (psi v : matrix) :
  0 <= ed -> 0 < nd -> msize psi = ed + nd -> msize v = nd ->
  add_node_block ed psi v =
  Some (firstn (Z.to_nat ed) psi ++ zip_with Z.add (skipn (Z.to_nat ed) psi) v).
Proof.
  intros Hed Hnd Hpsi Hv. unfold add_node_block, rowm_range.
  replace ((0 <=? ed) && (ed <=? msize psi - 1)
           && (msize psi - 1 <? msize psi)) with true by guard_true.
  cbn [bind]. unfold msize in *.
  rewrite firstn_all2 by (rewrite length_skipn; lia).
  unfold mat_add, msize.
  replace (Z.of_nat (length (skipn (Z.to_nat ed) psi)) =? Z.of_nat (length v))
    with true by guard_true.
  cbn [bind]. unfold set_rowm_range, msize.
  replace ((0 <=? ed) && (ed <=? Z.of_nat (length psi) - 1)
           && (Z.of_nat (length psi) - 1 <? Z.of_nat (length psi))
           && (Z.of_nat (length (zip_with Z.add (skipn (Z.to_nat ed) psi) v))
               =? Z.of_nat (length psi) - 1 - ed + 1)) with true
    by guard_true.
  rewrite (skipn_all2 (n := Z.to_nat (Z.of_nat (length psi) - 1 + 1)) psi)
    by lia.
  now rewrite app_nil_r.
Qed.

Lemma sub_edge_block_eq (ed nd : Z) (psi v : matrix) :
  0 < ed -> 0 <= nd -> msize psi = ed + nd -> msize v = ed ->
  sub_edge_block ed psi v =
  Some (zip_with Z.sub (firstn (Z.to_nat ed) psi) v ++ skipn (Z.to_nat ed) psi).
Proof.
  intros Hed Hnd Hpsi Hv. unfold sub_edge_block, rowm_range.
  replace ((0 <=? 0) && (0 <=? ed - 1) && (ed - 1 <? msize psi)) with true
    by guard_true.
  cbn [bind]. change (Z.to_nat 0) with 0%nat. cbn [skipn].
  replace (ed - 1 - 0 + 1) with ed by lia.
  unfold mat_sub, msize in *.
  replace (Z.of_nat (length (firstn (Z.to_nat ed) psi)) =? Z.of_nat (length v))
    with true by guard_true.
  cbn [bind]. unfold set_rowm_range, msize.
  replace ((0 <=? 0) && (0 <=? ed - 1) && (ed - 1 <? Z.of_nat (length psi))
           && (Z.of_nat (length (zip_with Z.sub (firstn (Z.to_nat ed) psi) v))
               =? ed - 1 - 0 + 1)) with true by guard_true.
  change (Z.to_nat 0) with 0%nat. cbn [firstn app].
  now replace (ed - 1 + 1) with ed by lia.
Qed.

(** ** Sparse vectors and their dense reading *)

Lemma unsigned_long_add_small (a b : nat) :
  Z.of_nat a + Z.of_nat b < 2 ^ 64 -> unsigned_long_add a b = (a + b)%nat.
Proof.
  intros H. unfold unsigned_long_add. rewrite Z.mod_small by lia. lia.
Qed.

Lemma add_to_sparse_vect_wrap (psi v : sparse_vect) (offset : nat) :
  add_to_sparse_vect psi v offset =
  psi ++ map (fun p => (unsigned_long_add (fst p) offset, snd p)) v.
Proof.
  unfold add_to_sparse_vect. revert psi.
  induction v as [|p v IH]; intros psi; cbn [fold_left map].
  - now rewrite app_nil_r.
  - rewrite IH, <- app_assoc. reflexivity.
Qed.

(** When no sum of an index and the offset leaves the 64 bits, the
    indices move by the offset. *)
Lemma add_to_sparse_vect_app (psi v : sparse_vect) (offset : nat) :
  Forall (fun p => Z.of_nat (fst p) + Z.of_nat offset < 2 ^ 64) v ->
  add_to_sparse_vect psi v offset =
  psi ++ map (fun p => ((fst p + offset)%nat, snd p)) v.
Proof.
  intros H. rewrite add_to_sparse_vect_wrap. f_equal.
  apply map_ext_in. intros q Hq. rewrite Forall_forall in H.
  now rewrite unsigned_long_add_small by (apply H; exact Hq).
Qed.

Lemma subtract_from_sparse_vect_app (psi v : sparse_vect) :
  subtract_from_sparse_vect psi v = psi ++ map (fun p => (fst p, - snd p)) v.
Proof.
  unfold subtract_from_sparse_vect. revert psi.
  induction v as [|p v IH]; intros psi; simpl.
  - now rewrite app_nil_r.
  - rewrite IH, <- app_assoc. reflexivity.
Qed.

Lemma nth_skipn_shift (k i : nat) (w : matrix) :
  nth (i + k) w 0 = nth i (skipn k w) 0.
Proof.
  revert w. induction k as [|k IH]; intros w.
  - now rewrite Nat.add_0_r.
  - rewrite Nat.add_succ_r. destruct w as [|y w]; cbn [skipn nth].
    + now destruct i.
    + apply IH.
Qed.

Lemma nth_firstn_below (k i : nat) (w : matrix) :
  (i < k)%nat -> nth i (firstn k w) 0 = nth i w 0.
Proof.
  revert i w. induction k as [|k IH]; intros i w Hi; [lia|].
  destruct w as [|y w]; [reflexivity|].
  destruct i as [|i]; cbn [firstn nth]; [reflexivity|].
  apply IH. lia.
Qed.

Lemma inner_sparse_shift (v : sparse_vect) (k : nat) (w : matrix) :
  inner_sparse (map (fun p => ((fst p + k)%nat, snd p)) v) w =
  inner_sparse v (skipn k w).
Proof.
  induction v as [|p v IH]; [reflexivity|].
  cbn [map]. rewrite !inner_sparse_cons, IH. cbn [fst snd].
  now rewrite nth_skipn_shift.
Qed.

Lemma inner_sparse_negate (v : sparse_vect) (w : matrix) :
  inner_sparse (map (fun p => (fst p, - snd p)) v) w = - inner_sparse v w.
Proof.
  induction v as [|p v IH]; [reflexivity|].
  cbn [map]. rewrite !inner_sparse_cons, IH. cbn [fst snd]. lia.
Qed.

Lemma inner_sparse_firstn (v : sparse_vect) (k : nat) (w : matrix) :
  Forall (fun p => (fst p < k)%nat) v ->
  inner_sparse v (firstn k w) = inner_sparse v w.
Proof.
  induction v as [|p v IH]; intros H; [reflexivity|].
  inversion H; subst. rewrite !inner_sparse_cons, IH by assumption.
  now rewrite nth_firstn_below.
Qed.

Lemma length_add_at (i : nat) (x : Z) (m : matrix) :
  length (add_at i x m) = length m.
Proof.
  revert i. induction m as [|y m IH]; intros [|i]; simpl; auto.
Qed.

Lemma inner_add_at (i : nat) (x : Z) (m w : matrix) :
  (i < length m)%nat -> length m = length w ->
  inner (add_at i x m) w = inner m w + nth i w 0 * x.
Proof.
  revert i w. induction m as [|y m IH]; intros i [|z w] Hi Hw;
    simpl in Hi, Hw; try lia.
  destruct i as [|i]; cbn [add_at nth]; rewrite !inner_cons.
  - lia.
  - rewrite IH by lia. lia.
Qed.

Lemma densify_from (v : sparse_vect) (m w : matrix) :
  Forall (fun p => (fst p < length m)%nat) v ->
  length m = length w ->
  length (fold_left (fun m p => add_at (fst p) (snd p) m) v m) = length m /\
  inner (fold_left (fun m p => add_at (fst p) (snd p) m) v m) w =
  inner m w + inner_sparse v w.
Proof.
  revert m. induction v as [|p v IH]; intros m Hv Hw.
  - cbn [fold_left]. split; [reflexivity|].
    unfold inner_sparse, sum_list. cbn [map fold_right]. lia.
  - inversion Hv; subst. cbn [fold_left].
    destruct (IH (add_at (fst p) (snd p) m)) as [L E].
    + now rewrite length_add_at.
    + now rewrite length_add_at.
    + rewrite L, E, length_add_at, inner_add_at, inner_sparse_cons by assumption.
      split; [reflexivity | lia].
Qed.

Lemma length_densify (n : Z) (v : sparse_vect) :
  Forall (fun p => (fst p < Z.to_nat n)%nat) v ->
  length (densify n v) = Z.to_nat n.
Proof.
  intros H. unfold densify, zeros.
  destruct (densify_from v (repeat 0 (Z.to_nat n)) (repeat 0 (Z.to_nat n)))
    as [L _]; rewrite ?repeat_length; auto.
  now rewrite L, repeat_length.
Qed.

Lemma inner_densify (n : Z) (v : sparse_vect) (w : matrix) :
  Forall (fun p => (fst p < Z.to_nat n)%nat) v ->
  length w = Z.to_nat n ->
  inner (densify n v) w = inner_sparse v w.
Proof.
  intros H Hw. unfold densify, zeros.
  destruct (densify_from v (repeat 0 (Z.to_nat n)) w) as [_ E];
    rewrite ?repeat_length; auto.
  rewrite E, inner_zeros. lia.
Qed.

(** ** The dense and the sparse overload, side by side *)

Lemma foldM_simulation {A B S T : Type} (R : S -> T -> Prop)
  (f : S -> B -> option S) (g : T -> A -> option T) (h : A -> B)
  (l : list A) :
  (forall s t a, In a l -> R s t ->
     exists s' t', f s (h a) = Some s' /\ g t a = Some t' /\ R s' t') ->
  forall s t, R s t ->
  exists s' t',
    foldM f (map h l) s = Some s' /\ foldM g l t = Some t' /\ R s' t'.
Proof.
  induction l as [|a l IH]; intros Hstep s t HR; cbn [map foldM].
  - exists s, t. auto.
  - destruct (Hstep s t a (or_introl eq_refl) HR) as [s1 [t1 [Es [Et R1]]]].
    rewrite Es, Et. cbn [bind].
    apply IH; [|exact R1]. intros s' t' a' Hin. apply Hstep. now right.
Qed.

Lemma indexed_map {A B : Type} (F : A -> B) (l : list A) :
  indexed (map F l) = map (fun ia => (fst ia, F (snd ia))) (indexed l).
Proof.
  unfold indexed. rewrite length_map. generalize 0%nat.
  induction l as [|a l IH]; intros k; [reflexivity|].
  cbn [length seq map combine fst snd]. now rewrite IH.
Qed.

Lemma sparse_vect_fits (n : Z) (v : sparse_vect) :
  vect_fits n v = true -> Forall (fun p => (fst p < Z.to_nat n)%nat) v.
Proof.
  cbn [vect_fits sparse_fits]. rewrite forallb_forall, Forall_forall.
  intros H x Hx. specialize (H x Hx). lia.
Qed.

Section Refinement.
Variable p : problem sparse_vect.
Variable w : matrix.
Variable label : label_type.
Hypothesis edge_dims_nonneg : 0 <= edge_dims p.
Hypothesis node_dims_nonneg : 0 <= node_dims p.
Hypothesis weight_size : msize w = edge_dims p + node_dims p.
Hypothesis dimensions_fit_long : edge_dims p + node_dims p < 2 ^ 63.

Lemma add_node_same_score (psi_d : matrix) (psi_s v : sparse_vect) :
  0 < node_dims p ->
  vect_fits (node_dims p) v = true ->
  same_score p w psi_d psi_s ->
  exists psi_d',
    add_node_block (edge_dims p) psi_d (densify (node_dims p) v)
      = Some psi_d' /\
    same_score p w psi_d'
      (add_to_sparse_vect psi_s v (Z.to_nat (edge_dims p))).
Proof.
  intros Hnd Hv [Hsize Hinner]. apply sparse_vect_fits in Hv.
  pose proof (length_densify _ _ Hv) as Ld.
  assert (Md : msize (densify (node_dims p) v) = node_dims p)
    by (unfold msize; lia).
  destruct (add_node_block_defined _ _ psi_d _ edge_dims_nonneg Hnd Hsize Md)
    as [psi_d' [E L]].
  exists psi_d'. split; [exact E|]. split; [exact L|].
  rewrite (add_node_block_eq _ _ psi_d _ edge_dims_nonneg Hnd Hsize Md) in E.
  injection E as <-.
  unfold msize in *.
  rewrite inner_add_block by lia.
  rewrite inner_densify by (rewrite ?length_skipn; auto; lia).
  rewrite add_to_sparse_vect_app, inner_sparse_app, inner_sparse_shift.
  - lia.
  - rewrite Forall_forall in *. intros q Hq. specialize (Hv q Hq). lia.
Qed.

Lemma sub_edge_same_score (psi_d : matrix) (psi_s v : sparse_vect) :
  0 < edge_dims p ->
  vect_fits (edge_dims p) v = true ->
  same_score p w psi_d psi_s ->
  exists psi_d',
    sub_edge_block (edge_dims p) psi_d (densify (edge_dims p) v)
      = Some psi_d' /\
    same_score p w psi_d' (subtract_from_sparse_vect psi_s v).
Proof.
  intros Hed Hv [Hsize Hinner]. apply sparse_vect_fits in Hv.
  pose proof (length_densify _ _ Hv) as Ld.
  assert (Md : msize (densify (edge_dims p) v) = edge_dims p)
    by (unfold msize; lia).
  destruct (sub_edge_block_defined _ _ psi_d _ Hed node_dims_nonneg Hsize Md)
    as [psi_d' [E L]].
  exists psi_d'. split; [exact E|]. split; [exact L|].
  rewrite (sub_edge_block_eq _ _ psi_d _ Hed node_dims_nonneg Hsize Md) in E.
  injection E as <-.
  unfold msize in *.
  rewrite inner_sub_block by lia.
  rewrite inner_densify by (rewrite ?length_firstn; auto; lia).
  rewrite inner_sparse_firstn by assumption.
  rewrite subtract_from_sparse_vect_app, inner_sparse_app,
    inner_sparse_negate.
  lia.
Qed.

Lemma joint_edge_step_same_score (i : nat) (b : bool) (psi_d : matrix)
  (psi_s : sparse_vect) (nb : nat * sparse_vect) :
  (fst nb < length label)%nat ->
  0 < edge_dims p /\ vect_fits (edge_dims p) (snd nb) = true ->
  same_score p w psi_d psi_s ->
  exists psi_d' psi_s',
    joint_edge_step (densify_problem p) label i b psi_d
      (fst nb, densify (edge_dims p) (snd nb)) = Some psi_d' /\
    joint_edge_step p label i b psi_s nb = Some psi_s' /\
    same_score p w psi_d' psi_s'.
Proof.
  intros Hj [Hed Hv] HR. unfold joint_edge_step. cbn [fst snd].
  destruct (nth_error_defined label (fst nb) Hj) as [lj Elj].
  rewrite Elj. cbn [bind].
  destruct ((i <? fst nb)%nat && xorb b (is_true_label lj)).
  - cbn [psi_sub_edge dense_vectors sparse_vectors densify_problem edge_dims].
    destruct (sub_edge_same_score psi_d psi_s (snd nb) Hed Hv HR)
      as [psi_d' [E R']].
    eauto.
  - eauto.
Qed.

Lemma joint_node_step_same_score (ss : graph sparse_vect) (psi_d : matrix)
  (psi_s : sparse_vect) (i : nat) (nd : node_type sparse_vect) :
  graph_wf ss = true ->
  length label = number_of_nodes ss ->
  sample_fits p ss = true ->
  nth_error ss i = Some nd ->
  same_score p w psi_d psi_s ->
  exists psi_d' psi_s',
    joint_node_step (densify_problem p) label psi_d
      (i, {| data := densify (node_dims p) (data nd);
             neighbors := map (fun nb => (fst nb,
                                 densify (edge_dims p) (snd nb)))
                            (neighbors nd) |}) = Some psi_d' /\
    joint_node_step p label psi_s (i, nd) = Some psi_s' /\
    same_score p w psi_d' psi_s'.
Proof.
  intros Hwf Hlen Hfit Hnd HR.
  assert (Hin : In nd ss) by (eapply nth_error_In; eauto).
  assert (Hi : (i < length label)%nat).
  { rewrite Hlen. apply nth_error_Some. unfold number_of_nodes. congruence. }
  destruct (nth_error_defined label i Hi) as [li Eli].
  unfold joint_node_step. rewrite Eli. cbn [bind data neighbors].
  destruct (sample_fits_node p ss nd Hfit Hin) as [Hnd0 Hv].
  assert (Hadd : exists psi_d1 psi_s1,
    (if is_true_label li
     then psi_add_node (edge_dims (densify_problem p)) psi_d
            (densify (node_dims p) (data nd))
     else Some psi_d) = Some psi_d1 /\
    (if is_true_label li
     then psi_add_node (edge_dims p) psi_s (data nd)
     else Some psi_s) = Some psi_s1 /\
    same_score p w psi_d1 psi_s1).
  { destruct (is_true_label li); [|eauto].
    cbn [psi_add_node dense_vectors sparse_vectors densify_problem edge_dims].
    destruct (add_node_same_score psi_d psi_s (data nd) Hnd0 Hv HR)
      as [psi_d1 [E R1]].
    eauto. }
  destruct Hadd as [psi_d1 [psi_s1 [Ed [Es R1]]]].
  rewrite Ed, Es. cbn [bind].
  apply (foldM_simulation (same_score p w)
           (joint_edge_step (densify_problem p) label i (is_true_label li))
           (joint_edge_step p label i (is_true_label li))
           (fun nb => (fst nb, densify (edge_dims p) (snd nb))));
    [|exact R1].
  intros s t nb Hnb HR'.
  apply joint_edge_step_same_score; [| |exact HR'].
  - rewrite Hlen. now apply (graph_wf_neighbor ss nd nb).
  - now apply (sample_fits_edge p ss nd nb).
Qed.
End Refinement.

(** In the integers the dense overload, run on the dense reading of a
    sample, and the sparse one, run on the sample itself, both return, and
    the two vectors have the same inner product with a weight vector. *)
Lemma dense_sparse_same_score (p : problem sparse_vect)
  (ss : graph sparse_vect) (label : label_type) (w : matrix) :
  graph_wf ss = true ->
  length label = number_of_nodes ss ->
  sample_fits p ss = true ->
  msize w = get_num_dimensions p ->
  get_num_dimensions p < 2 ^ 63 ->
  exists psi_d psi_s,
    get_joint_feature_vector_dense (densify_problem p)
      (densify_graph (node_dims p) (edge_dims p) ss) label = Some psi_d /\
    get_joint_feature_vector_sparse p ss label = Some psi_s /\
    same_score p w psi_d psi_s.
Proof.
  intros Hwf Hlen Hfit Hw Hlong.
  destruct (sample_fits_dims p ss Hfit) as [Hed Hnd].
  unfold get_joint_feature_vector_dense, get_joint_feature_vector_sparse,
    get_joint_feature_vector, densify_graph.
  rewrite indexed_map.
  apply (foldM_simulation (same_score p w)
           (joint_node_step (densify_problem p) label)
           (joint_node_step p label)
           (fun ia => (fst ia,
              {| data := densify (node_dims p) (data (snd ia));
                 neighbors := map (fun nb => (fst nb,
                                     densify (edge_dims p) (snd nb)))
                                (neighbors (snd ia)) |}))
           (indexed ss)).
  - intros s t [i nd] Hin HR. apply in_indexed in Hin. cbn [fst snd].
    unfold get_num_dimensions in Hw, Hlong.
    now apply (joint_node_step_same_score p w label Hed Hnd Hw Hlong ss).
  - split.
    + apply msize_zeros. unfold get_num_dimensions. cbn. lia.
    + cbn [psi_init dense_vectors sparse_vectors]. unfold zeros.
      now rewrite inner_zeros.
Qed.

(** ** The validator on matrices *)

(** For matrices the validator returns true exactly under the documented
    conditions. *)
Lemma is_graph_labeling_problem_dense_iff (samps : list (graph matrix))
  (labs : list label_type) :
  is_graph_labeling_problem samps labs = true <->
  documented_graph_labeling_problem samps labs.
Proof.
  rewrite is_graph_labeling_problem_iff. split; [tauto|].
  intros H. split; [exact H|].
  destruct H as [_ [_ [_ [_ H]]]]. destruct (H eq_refl) as [_ [_ H']].
  rewrite Forall_app in H'. tauto.
Qed.

(** ** Scenarios B, C and D: what the validator rejects *)

Section Rejections.
Context {V PSI : Type} {FV : FeatureVector V PSI}
  {FC : FeatureVectorContent V PSI}.

Lemma self_loop_rejected (samps : list (graph V)) (labs : list label_type)
  (s : graph V) :
  In s samps -> graph_contains_length_one_cycle s = true ->
  is_graph_labeling_problem samps labs = false.
Proof.
  intros Hin Hc.
  destruct (is_graph_labeling_problem samps labs) eqn:E; [|reflexivity].
  apply is_graph_labeling_problem_iff in E.
  destruct E as [[_ [_ [H _]]] _]. rewrite Forall_forall in H.
  rewrite (H s Hin) in Hc. discriminate.
Qed.

Lemma label_length_mismatch_rejected (samps : list (graph V))
  (labs : list label_type) (i : nat) (s : graph V) (l : label_type) :
  nth_error samps i = Some s -> nth_error labs i = Some l ->
  length l <> number_of_nodes s ->
  is_graph_labeling_problem samps labs = false.
Proof.
  intros Hs Hl Hne.
  destruct (is_graph_labeling_problem samps labs) eqn:E; [|reflexivity].
  apply is_graph_labeling_problem_iff in E.
  destruct E as [[_ [H _]] _]. exfalso. apply Hne. clear Hne.
  revert i Hs Hl. induction H as [|s' l' ss ls Hsl _ IH]; intros [|i] Hs Hl;
    simpl in Hs, Hl; try discriminate.
  - congruence.
  - eauto.
Qed.

Lemma negative_edge_entry_rejected (samps : list (graph V))
  (labs : list label_type) (e : V) (x : Z) :
  In e (edge_vectors samps) -> In x (vect_entries e) -> x < 0 ->
  is_graph_labeling_problem samps labs = false.
Proof.
  intros He Hx Hneg.
  destruct (is_graph_labeling_problem samps labs) eqn:E; [|reflexivity].
  apply is_graph_labeling_problem_iff in E.
  destruct E as [[_ [_ [_ [H _]]]] _]. rewrite Forall_forall in H.
  specialize (H e He). rewrite Forall_forall in H. specialize (H x Hx). lia.
Qed.
End Rejections.

(** ** A validated dense dataset fits the dimensions the constructor finds *)

Lemma list_max_all_equal (l : list nat) (n : nat) :
  l <> [] -> Forall (fun x => x = n) l -> list_max l = n.
Proof.
  intros Hne H. unfold list_max.
  induction H as [|x r Hx Hr IH]; [congruence|].
  cbn [fold_right]. destruct r as [|y r]; cbn [fold_right] in *; [lia|].
  rewrite IH by discriminate. lia.
Qed.

Lemma dims_of_uniform_sizes (vs : list matrix) (v : matrix) (n : nat) :
  Forall (fun u => vect_size u = n) vs -> In v vs ->
  Z.max 0 (largest_long (map max_index_plus_one_long vs)) = msize v.
Proof.
  intros H Hin.
  change (map max_index_plus_one_long vs)
    with (map (fun u : matrix => Z.of_nat (max_index_plus_one u)) vs).
  rewrite <- (map_map max_index_plus_one Z.of_nat), largest_long_of_nat.
  rewrite (list_max_all_equal (map max_index_plus_one vs) n).
  - rewrite Forall_forall in H. unfold msize.
    change (length v) with (vect_size v). rewrite (H v Hin). lia.
  - destruct vs; [destruct Hin | discriminate].
  - rewrite Forall_forall in *. intros x Hx. apply in_map_iff in Hx.
    destruct Hx as [u [<- Hu]]. exact (H u Hu).
Qed.

Lemma validated_dense_sample_fits (samps : list (graph matrix))
  (labs : list label_type) (p : problem matrix) (samp : graph matrix) :
  structural_svm_graph_labeling_problem samps labs = Some p ->
  In samp samps ->
  sample_fits p samp = true.
Proof.
  unfold structural_svm_graph_labeling_problem.
  destruct (is_graph_labeling_problem samps labs) eqn:E; [|discriminate].
  intros Hp Hin. injection Hp as <-.
  apply is_graph_labeling_problem_dense_iff in E.
  destruct E as [_ [_ [_ [_ H]]]].
  destruct (H eq_refl) as [[n Hn] [[m Hm] Hz]]. clear H.
  rewrite Forall_app in Hz. destruct Hz as [Hzn Hze].
  unfold sample_fits. cbn [node_dims edge_dims].
  unfold scan_dims. rewrite scan_samples_max by (cbn [fst snd]; lia).
  cbn [fst snd]. rewrite !andb_true_iff. split; [lia|].
  rewrite forallb_forall. intros nd Hnd.
  assert (Hdata : In (data nd) (node_vectors samps)).
  { unfold node_vectors. apply in_flat_map. exists samp. split; [exact Hin|].
    now apply in_map. }
  rewrite (dims_of_uniform_sizes _ (data nd) n Hn Hdata).
  rewrite Forall_forall in Hzn. pose proof (Hzn _ Hdata) as Hnz.
  cbn [vect_size dense_vectors] in Hnz.
  rewrite !andb_true_iff. repeat split.
  - unfold msize. lia.
  - cbn [vect_fits dense_fits]. lia.
  - rewrite forallb_forall. intros nb Hnb.
    assert (Hedge : In (snd nb) (edge_vectors samps)).
    { unfold edge_vectors. apply in_flat_map. exists samp.
      split; [exact Hin|]. unfold edges_of. apply in_flat_map. exists nd.
      split; [exact Hnd | now apply in_map]. }
    rewrite (dims_of_uniform_sizes _ (snd nb) m Hm Hedge).
    rewrite Forall_forall in Hze. pose proof (Hze _ Hedge) as Hez.
    cbn [vect_size dense_vectors] in Hez.
    rewrite andb_true_iff. split.
    + unfold msize. lia.
    + cbn [vect_fits dense_fits]. lia.
Qed.

(** ** Every dense vector is the dense reading of its own pairs *)

Lemma add_at_middle (pre r : matrix) (x y : Z) :
  add_at (length pre) x (pre ++ y :: r) = pre ++ (y + x) :: r.
Proof.
  induction pre as [|z pre IH]; [reflexivity|].
  cbn [length app add_at]. now rewrite IH.
Qed.

Lemma densify_indexed_from (pre v : matrix) :
  fold_left (fun m p => add_at (fst p) (snd p) m)
    (combine (seq (length pre) (length v)) v) (pre ++ repeat 0 (length v))
  = pre ++ v.
Proof.
  revert pre. induction v as [|x v IH]; intros pre; [reflexivity|].
  cbn [length seq combine fold_left repeat fst snd].
  rewrite add_at_middle. specialize (IH (pre ++ [x])).
  rewrite length_app, <- !app_assoc in IH. cbn [length app] in IH.
  replace (length pre + 1)%nat with (S (length pre)) in IH by lia.
  exact IH.
Qed.

Lemma densify_indexed (n : Z) (v : matrix) :
  msize v = n -> densify n (indexed v) = v.
Proof.
  intros H. unfold densify, indexed, zeros, msize in *.
  replace (Z.to_nat n) with (length v) by lia.
  exact (densify_indexed_from [] v).
Qed.

(** ** Runs over related arithmetics *)

Lemma Forall2_firstn {A B : Type} (R : A -> B -> Prop) (n : nat)
  (l : list A) (l' : list B) :
  Forall2 R l l' -> Forall2 R (firstn n l) (firstn n l').
Proof.
  intros H. revert n. induction H as [|x y l l' Hxy _ IH]; intros [|n];
    cbn [firstn]; constructor; auto.
Qed.

Lemma Forall2_skipn {A B : Type} (R : A -> B -> Prop) (n : nat)
  (l : list A) (l' : list B) :
  Forall2 R l l' -> Forall2 R (skipn n l) (skipn n l').
Proof.
  intros H. revert n. induction H as [|x y l l' Hxy H IH]; intros [|n];
    cbn [skipn]; auto.
Qed.

Lemma Forall2_combine {A B A' B' : Type} (R : A -> A' -> Prop)
  (S : B -> B' -> Prop) (a : list A) (a' : list A') (b : list B)
  (b' : list B') :
  Forall2 R a a' -> Forall2 S b b' ->
  Forall2 (fun xy xy' => R (fst xy) (fst xy') /\ S (snd xy) (snd xy'))
    (combine a b) (combine a' b').
Proof.
  intros H. revert b b'. induction H as [|x y l l' Hxy _ IH];
    intros b b' Hb; [constructor|].
  destruct Hb as [|u v b b' Huv Hb]; cbn [combine]; constructor; auto.
Qed.

Lemma Forall2_repeat {A B : Type} (R : A -> B -> Prop) (x : A) (y : B)
  (n : nat) :
  R x y -> Forall2 R (repeat x n) (repeat y n).
Proof.
  intros H. induction n as [|n IH]; cbn [repeat]; constructor; auto.
Qed.

Lemma Forall2_eq_refl {A : Type} (l : list A) : Forall2 eq l l.
Proof. induction l; constructor; auto. Qed.

Lemma Forall2_eq_inv {A : Type} (l l' : list A) : Forall2 eq l l' -> l = l'.
Proof. intros H. induction H; congruence. Qed.

Lemma mapM_Forall2 {A B : Type} (f : A -> option B) (l : list A)
  (l' : list B) :
  mapM f l = Some l' -> Forall2 (fun a b => f a = Some b) l l'.
Proof.
  revert l'. induction l as [|a l IH]; intros l' E.
  - cbn [mapM] in E. injection E as <-. constructor.
  - cbn [mapM] in E. apply bind_Some in E. destruct E as [b [Eb E]].
    apply bind_Some in E. destruct E as [bs [Ebs E]]. injection E as <-.
    constructor; auto.
Qed.

(** A loop over related containers, from related states. *)
Lemma foldM_related {A A' S S' : Type} (RA : A -> A' -> Prop)
  (RS : S -> S' -> Prop) (f : S -> A -> option S)
  (f' : S' -> A' -> option S') (l : list A) (l' : list A') :
  Forall2 RA l l' ->
  (forall s a s1 s' a', In a l -> f s a = Some s1 -> RS s s' -> RA a a' ->
     exists s1', f' s' a' = Some s1' /\ RS s1 s1') ->
  forall s s' r, RS s s' -> foldM f l s = Some r ->
  exists r', foldM f' l' s' = Some r' /\ RS r r'.
Proof.
  intros H. induction H as [|a a' l l' Ha _ IH]; intros Hf s s' r Hs E.
  - cbn [foldM] in *. injection E as <-. eauto.
  - cbn [foldM] in *. apply bind_Some in E. destruct E as [s1 [E1 E]].
    destruct (Hf s a s1 s' a' (or_introl eq_refl) E1 Hs Ha) as [s1' [E1' R1]].
    rewrite E1'. cbn [bind].
    apply (IH (fun s a s1 s' a' Hin => Hf s a s1 s' a' (or_intror Hin))
             s1 s1' r R1 E).
Qed.

Lemma indexed_related {A A' : Type} (R : A -> A' -> Prop) (l : list A)
  (l' : list A') :
  Forall2 R l l' ->
  Forall2 (fun ia ia' => fst ia = fst ia' /\ R (snd ia) (snd ia'))
    (indexed l) (indexed l').
Proof.
  intros H. unfold indexed. rewrite <- (Forall2_length H).
  apply Forall2_combine; [apply Forall2_eq_refl | exact H].
Qed.

(** The loop of the two overloads over related accumulation statements. *)
Lemma joint_feature_loop_related {V1 V2 P1 P2 : Type}
  (RV : V1 -> V2 -> Prop) (RP : P1 -> P2 -> Prop)
  (add1 sub1 : P1 -> V1 -> option P1) (add2 sub2 : P2 -> V2 -> option P2) :
  (forall psi v psi1 psi' v', add1 psi v = Some psi1 -> RP psi psi' ->
     RV v v' -> exists psi1', add2 psi' v' = Some psi1' /\ RP psi1 psi1') ->
  (forall psi v psi1 psi' v', sub1 psi v = Some psi1 -> RP psi psi' ->
     RV v v' -> exists psi1', sub2 psi' v' = Some psi1' /\ RP psi1 psi1') ->
  forall (g : graph V1) (g' : graph V2) (label : label_type) (init : P1)
         (init' : P2) (psi : P1),
    graph_related RV g g' -> RP init init' ->
    joint_feature_loop add1 sub1 init g label = Some psi ->
    exists psi',
      joint_feature_loop add2 sub2 init' g' label = Some psi' /\ RP psi psi'.
Proof.
  intros Hadd Hsub g g' label init init' psi Hg Hinit E.
  unfold joint_feature_loop in *.
  eapply foldM_related; [ | | | exact E];
    [exact (indexed_related _ _ _ Hg) | | exact Hinit].
  intros s [i nd] s1 s' [i' nd'] _ Es Rs [Hi [Hd Hn]].
  cbn [fst snd] in Hi, Hd, Hn. subst i'.
  unfold loop_node_step in *.
  destruct (nth_error label i) as [li|]; cbn [bind] in *; [|discriminate].
  apply bind_Some in Es. destruct Es as [s2 [E2 Es]].
  assert (H2 : exists s2',
    (if is_true_label li then add2 s' (data nd') else Some s') = Some s2' /\
    RP s2 s2').
  { destruct (is_true_label li).
    - exact (Hadd _ _ _ _ _ E2 Rs Hd).
    - injection E2 as <-. eauto. }
  destruct H2 as [s2' [E2' R2]]. rewrite E2'. cbn [bind].
  eapply foldM_related; [ | | | exact Es]; [exact Hn | | exact R2].
  intros t nb t1 t' nb' _ Et Rt [Hj He].
  unfold loop_edge_step in *. rewrite <- Hj.
  destruct (nth_error label (fst nb)) as [lj|]; cbn [bind] in *;
    [|discriminate].
  destruct ((i <? fst nb)%nat && xorb (is_true_label li) (is_true_label lj)).
  - exact (Hsub _ _ _ _ _ Et Rt He).
  - injection Et as <-. eauto.
Qed.

Section Simulation.
Context {D1 D2 : Type} (ar1 : arithmetic D1) (ar2 : arithmetic D2)
  (R : D1 -> D2 -> Prop).
Hypothesis sim : simulates ar1 ar2 R.

Lemma zip_op_related (op1 : D1 -> D1 -> option D1)
  (op2 : D2 -> D2 -> option D2) :
  (forall x y r x' y', op1 x y = Some r -> R x x' -> R y y' ->
     exists r', op2 x' y' = Some r' /\ R r r') ->
  forall a b r a' b',
    zip_op op1 a b = Some r -> Forall2 R a a' -> Forall2 R b b' ->
    exists r', zip_op op2 a' b' = Some r' /\ Forall2 R r r'.
Proof.
  intros Hop a b r a' b' E Ha. revert b b' r E.
  induction Ha as [|x x' a a' Hx _ IH]; intros b b' r E Hb.
  - destruct Hb; cbn [zip_op] in *; [|discriminate].
    injection E as <-. eauto.
  - destruct Hb as [|y y' b b' Hy Hb]; cbn [zip_op] in *; [discriminate|].
    apply bind_Some in E. destruct E as [z [Ez E]].
    apply bind_Some in E. destruct E as [zs [Ezs E]]. injection E as <-.
    destruct (Hop x y z x' y' Ez Hx Hy) as [z' [Ez' Rz]].
    destruct (IH b b' zs Ezs Hb) as [zs' [Ezs' Rzs]].
    rewrite Ez'. cbn [bind]. rewrite Ezs'. cbn [bind]. eauto.
Qed.

Lemma rowm_range_of_related (m : list D1) (m' : list D2) (first last : Z)
  (blk : list D1) :
  Forall2 R m m' -> rowm_range_of m first last = Some blk ->
  exists blk', rowm_range_of m' first last = Some blk' /\ Forall2 R blk blk'.
Proof.
  intros Hm. unfold rowm_range_of. rewrite <- (Forall2_length Hm).
  destruct ((0 <=? first) && (first <=? last)
            && (last <? Z.of_nat (length m))); [|discriminate].
  intros E. injection E as <-. eexists. split; [reflexivity|].
  now apply Forall2_firstn, Forall2_skipn.
Qed.

Lemma set_rowm_range_of_related (m v : list D1) (m' v' : list D2)
  (first last : Z) (r : list D1) :
  Forall2 R m m' -> Forall2 R v v' ->
  set_rowm_range_of m first last v = Some r ->
  exists r', set_rowm_range_of m' first last v' = Some r' /\ Forall2 R r r'.
Proof.
  intros Hm Hv. unfold set_rowm_range_of.
  rewrite <- (Forall2_length Hm), <- (Forall2_length Hv).
  destruct ((0 <=? first) && (first <=? last)
            && (last <? Z.of_nat (length m))
            && (Z.of_nat (length v) =? last - first + 1)); [|discriminate].
  intros E. injection E as <-. eexists. split; [reflexivity|].
  apply Forall2_app; [now apply Forall2_firstn|].
  apply Forall2_app; [exact Hv | now apply Forall2_skipn].
Qed.

Lemma add_node_block_in_related (ed : Z) (psi v psi1 : list D1)
  (psi' v' : list D2) :
  add_node_block_in ar1 ed psi v = Some psi1 ->
  Forall2 R psi psi' -> Forall2 R v v' ->
  exists psi1', add_node_block_in ar2 ed psi' v' = Some psi1' /\
                Forall2 R psi1 psi1'.
Proof.
  intros E Hpsi Hv. unfold add_node_block_in in *.
  rewrite <- (Forall2_length Hpsi).
  apply bind_Some in E. destruct E as [blk [Eb E]].
  apply bind_Some in E. destruct E as [s [Es E]].
  destruct (rowm_range_of_related _ _ _ _ _ Hpsi Eb) as [blk' [Eb' Rb]].
  destruct (zip_op_related _ _ (sim_add _ _ _ sim) _ _ _ _ _ Es Rb Hv)
    as [s' [Es' Rs]].
  rewrite Eb'. cbn [bind]. rewrite Es'. cbn [bind].
  exact (set_rowm_range_of_related _ _ _ _ _ _ _ Hpsi Rs E).
Qed.

Lemma sub_edge_block_in_related (ed : Z) (psi v psi1 : list D1)
  (psi' v' : list D2) :
  sub_edge_block_in ar1 ed psi v = Some psi1 ->
  Forall2 R psi psi' -> Forall2 R v v' ->
  exists psi1', sub_edge_block_in ar2 ed psi' v' = Some psi1' /\
                Forall2 R psi1 psi1'.
Proof.
  intros E Hpsi Hv. unfold sub_edge_block_in in *.
  apply bind_Some in E. destruct E as [blk [Eb E]].
  apply bind_Some in E. destruct E as [s [Es E]].
  destruct (rowm_range_of_related _ _ _ _ _ Hpsi Eb) as [blk' [Eb' Rb]].
  destruct (zip_op_related _ _ (sim_sub _ _ _ sim) _ _ _ _ _ Es Rb Hv)
    as [s' [Es' Rs]].
  rewrite Eb'. cbn [bind]. rewrite Es'. cbn [bind].
  exact (set_rowm_range_of_related _ _ _ _ _ _ _ Hpsi Rs E).
Qed.

Lemma add_to_sparse_vect_in_related (psi v : list (nat * D1))
  (psi' v' : list (nat * D2)) (offset : nat) :
  sparse_related R psi psi' -> sparse_related R v v' ->
  sparse_related R (add_to_sparse_vect_in psi v offset)
    (add_to_sparse_vect_in psi' v' offset).
Proof.
  unfold sparse_related, add_to_sparse_vect_in. intros Hpsi Hv.
  revert psi psi' Hpsi.
  induction Hv as [|q q' v v' [Hq1 Hq2] _ IH]; intros psi psi' Hpsi;
    cbn [fold_left]; [exact Hpsi|].
  apply IH. apply Forall2_app; [exact Hpsi|].
  constructor; [|constructor]. cbn [fst snd]. now rewrite Hq1.
Qed.

Lemma subtract_from_sparse_vect_in_related (psi v : list (nat * D1))
  (psi' v' : list (nat * D2)) :
  sparse_related R psi psi' -> sparse_related R v v' ->
  sparse_related R (subtract_from_sparse_vect_in ar1 psi v)
    (subtract_from_sparse_vect_in ar2 psi' v').
Proof.
  unfold sparse_related, subtract_from_sparse_vect_in. intros Hpsi Hv.
  revert psi psi' Hpsi.
  induction Hv as [|q q' v v' [Hq1 Hq2] _ IH]; intros psi psi' Hpsi;
    cbn [fold_left]; [exact Hpsi|].
  apply IH. apply Forall2_app; [exact Hpsi|].
  constructor; [|constructor]. cbn [fst snd]. split; [exact Hq1|].
  now apply (sim_neg _ _ _ sim).
Qed.

Lemma dot_in_related (a b : list D1) (a' b' : list D2) (x : D1) :
  dot_in ar1 a b = Some x -> Forall2 R a a' -> Forall2 R b b' ->
  exists x', dot_in ar2 a' b' = Some x' /\ R x x'.
Proof.
  intros E Ha Hb. unfold dot_in in *.
  rewrite <- (Forall2_length Ha), <- (Forall2_length Hb).
  destruct (length a =? length b)%nat; [|discriminate].
  eapply foldM_related; [ | | | exact E];
    [apply (Forall2_combine R R); eassumption | | exact (sim_zero _ _ _ sim)].
  intros s xy s1 s' xy' _ Es Rs [R1 R2].
  apply bind_Some in Es. destruct Es as [t [Et Es]].
  destruct (sim_mul _ _ _ sim _ _ _ _ _ Et R1 R2) as [t' [Et' Rt]].
  rewrite Et'. cbn [bind].
  exact (sim_add _ _ _ sim _ _ _ _ _ Es Rs Rt).
Qed.

Lemma nth_error_related (w : list D1) (w' : list D2) (i : nat) (x : D1) :
  Forall2 R w w' -> nth_error w i = Some x ->
  exists x', nth_error w' i = Some x' /\ R x x'.
Proof.
  intros H. revert i. induction H as [|y y' w w' Hy _ IH]; intros [|i] E;
    cbn [nth_error] in *; try discriminate.
  - injection E as <-. eauto.
  - now apply IH.
Qed.

Lemma dot_sparse_in_related (v : list (nat * D1)) (v' : list (nat * D2))
  (w : list D1) (w' : list D2) (x : D1) :
  dot_sparse_in ar1 v w = Some x -> sparse_related R v v' ->
  Forall2 R w w' ->
  exists x', dot_sparse_in ar2 v' w' = Some x' /\ R x x'.
Proof.
  intros E Hv Hw. unfold dot_sparse_in in *.
  eapply foldM_related; [ | | | exact E];
    [exact Hv | | exact (sim_zero _ _ _ sim)].
  intros s q s1 s' q' _ Es Rs [R1 R2].
  apply bind_Some in Es. destruct Es as [y [Ey Es]].
  apply bind_Some in Es. destruct Es as [t [Et Es]].
  rewrite <- R1.
  destruct (nth_error_related _ _ _ _ Hw Ey) as [y' [Ey' Ry]].
  rewrite Ey'. cbn [bind].
  destruct (sim_mul _ _ _ sim _ _ _ _ _ Et Ry R2) as [t' [Et' Rt]].
  rewrite Et'. cbn [bind].
  exact (sim_add _ _ _ sim _ _ _ _ _ Es Rs Rt).
Qed.

Lemma get_joint_feature_vector_dense_in_related (ed nd : Z)
  (g : graph (list D1)) (g' : graph (list D2)) (label : label_type)
  (psi : list D1) :
  get_joint_feature_vector_dense_in ar1 ed nd g label = Some psi ->
  graph_related (Forall2 R) g g' ->
  exists psi',
    get_joint_feature_vector_dense_in ar2 ed nd g' label = Some psi' /\
    Forall2 R psi psi'.
Proof.
  intros E Hg. unfold get_joint_feature_vector_dense_in in *.
  eapply joint_feature_loop_related; [ | | exact Hg | | exact E].
  - intros psi0 v psi1 psi0' v'. apply add_node_block_in_related.
  - intros psi0 v psi1 psi0' v'. apply sub_edge_block_in_related.
  - apply Forall2_repeat. exact (sim_zero _ _ _ sim).
Qed.

Lemma get_joint_feature_vector_sparse_in_related (ed : Z)
  (g : graph (list (nat * D1))) (g' : graph (list (nat * D2)))
  (label : label_type) (psi : list (nat * D1)) :
  get_joint_feature_vector_sparse_in ar1 ed g label = Some psi ->
  graph_related (sparse_related R) g g' ->
  exists psi',
    get_joint_feature_vector_sparse_in ar2 ed g' label = Some psi' /\
    sparse_related R psi psi'.
Proof.
  intros E Hg. unfold get_joint_feature_vector_sparse_in in *.
  eapply joint_feature_loop_related; [ | | exact Hg | | exact E].
  - intros psi0 v psi1 psi0' v' E0 Rp Rv. injection E0 as <-.
    eexists. split; [reflexivity|].
    now apply add_to_sparse_vect_in_related.
  - intros psi0 v psi1 psi0' v' E0 Rp Rv. injection E0 as <-.
    eexists. split; [reflexivity|].
    now apply subtract_from_sparse_vect_in_related.
  - constructor.
Qed.
End Simulation.

(** ** The three arithmetics *)

Lemma integer_value_opp (x : double) (z : Z) :
  integer_value x = Some z -> integer_value (SFopp x) = Some (- z).
Proof.
  destruct x as [s|s| |s m e]; cbn [integer_value SFopp]; try discriminate.
  - intros E. injection E as <-. reflexivity.
  - assert (H : forall v, cond_Zopp (negb s) v = - cond_Zopp s v).
    { intros v. destruct s; cbn [negb cond_Zopp];
        [symmetry; apply Z.opp_involutive | reflexivity]. }
    destruct (0 <=? e).
    + intros E. injection E as <-. now rewrite H.
    + destruct (Z.pos m mod 2 ^ (- e) =? 0); [|discriminate].
      intros E. injection E as <-. now rewrite H.
Qed.

Lemma exactly_integer (op_Z : Z -> Z -> Z) (op : double -> double -> double)
  (x y r : double) (a b : Z) :
  exactly op_Z op x y = Some r ->
  integer_value x = Some a -> integer_value y = Some b ->
  r = op x y /\ integer_value r = Some (op_Z a b).
Proof.
  unfold exactly. intros E Ha Hb. rewrite Ha, Hb in E.
  destruct (integer_value (op x y)) as [c|] eqn:Ec; [|discriminate].
  destruct (c =? op_Z a b) eqn:Eq; [|discriminate].
  injection E as <-. apply Z.eqb_eq in Eq. subst c. auto.
Qed.

Lemma exactly_result (op_Z : Z -> Z -> Z) (op : double -> double -> double)
  (x y r : double) :
  exactly op_Z op x y = Some r -> r = op x y.
Proof.
  unfold exactly. intros E.
  destruct (integer_value x); [|discriminate].
  destruct (integer_value y); [|discriminate].
  destruct (integer_value (op x y)); [|discriminate].
  destruct (_ =? _); [|discriminate]. now injection E.
Qed.

(** What binary64 does without rounding, the integers do. *)
Lemma binary64_exact_integers :
  simulates binary64_exact integers (fun x z => integer_value x = Some z).
Proof.
  constructor; cbn [ar_zero ar_add ar_sub ar_mul ar_neg binary64_exact integers].
  - reflexivity.
  - intros x y r a b E Ha Hb.
    destruct (exactly_integer _ _ _ _ _ _ _ E Ha Hb) as [_ H]. eauto.
  - intros x y r a b E Ha Hb.
    destruct (exactly_integer _ _ _ _ _ _ _ E Ha Hb) as [_ H]. eauto.
  - intros x y r a b E Ha Hb.
    destruct (exactly_integer _ _ _ _ _ _ _ E Ha Hb) as [_ H]. eauto.
  - intros x z. apply integer_value_opp.
Qed.

(** What binary64 does without rounding, binary64 does. *)
Lemma binary64_exact_binary64 : simulates binary64_exact binary64 eq.
Proof.
  constructor; cbn [ar_zero ar_add ar_sub ar_mul ar_neg binary64_exact binary64].
  - reflexivity.
  - intros x y r x' y' E <- <-. rewrite (exactly_result _ _ _ _ _ E). eauto.
  - intros x y r x' y' E <- <-. rewrite (exactly_result _ _ _ _ _ E). eauto.
  - intros x y r x' y' E <- <-. rewrite (exactly_result _ _ _ _ _ E). eauto.
  - intros x x' <-. reflexivity.
Qed.

(** ** Over the integers the overloads are those of the embedding *)

Lemma bind_ext {A B : Type} (m : option A) (f g : A -> option B) :
  (forall a, f a = g a) -> bind m f = bind m g.
Proof. intros H. destruct m; cbn [bind]; auto. Qed.

Lemma zip_op_integers (f : Z -> Z -> Z) (a b : matrix) :
  zip_op (fun x y => Some (f x y)) a b =
  if msize a =? msize b then Some (zip_with f a b) else None.
Proof.
  unfold msize. revert b. induction a as [|x a IH]; intros [|y b];
    cbn [zip_op zip_with length bind]; try reflexivity.
  rewrite IH.
  replace (Z.of_nat (S (length a)) =? Z.of_nat (S (length b)))
    with (Z.of_nat (length a) =? Z.of_nat (length b)).
  - destruct (Z.of_nat (length a) =? Z.of_nat (length b)); reflexivity.
  - destruct (Z.eqb_spec (Z.of_nat (length a)) (Z.of_nat (length b)));
      destruct (Z.eqb_spec (Z.of_nat (S (length a)))
                  (Z.of_nat (S (length b))));
      try reflexivity; lia.
Qed.

Lemma add_node_block_in_integers (ed : Z) (psi v : matrix) :
  add_node_block_in integers ed psi v = add_node_block ed psi v.
Proof.
  unfold add_node_block_in, add_node_block.
  change (rowm_range_of psi ed (Z.of_nat (length psi) - 1))
    with (rowm_range psi ed (msize psi - 1)).
  destruct (rowm_range psi ed (msize psi - 1)) as [blk|]; cbn [bind];
    [|reflexivity].
  cbn [ar_add integers]. rewrite zip_op_integers. reflexivity.
Qed.

Lemma sub_edge_block_in_integers (ed : Z) (psi v : matrix) :
  sub_edge_block_in integers ed psi v = sub_edge_block ed psi v.
Proof.
  unfold sub_edge_block_in, sub_edge_block.
  change (rowm_range_of psi 0 (ed - 1)) with (rowm_range psi 0 (ed - 1)).
  destruct (rowm_range psi 0 (ed - 1)) as [blk|]; cbn [bind];
    [|reflexivity].
  cbn [ar_sub integers]. rewrite zip_op_integers. reflexivity.
Qed.

Lemma get_joint_feature_vector_dense_in_integers (p : problem matrix)
  (sample : graph matrix) (label : label_type) :
  get_joint_feature_vector_dense_in integers (edge_dims p) (node_dims p)
    sample label =
  get_joint_feature_vector_dense p sample label.
Proof.
  unfold get_joint_feature_vector_dense_in, get_joint_feature_vector_dense,
    get_joint_feature_vector, joint_feature_loop.
  apply foldM_ext. intros psi [i nd] _.
  unfold loop_node_step, joint_node_step.
  apply bind_ext. intros li.
  cbn [psi_add_node dense_vectors].
  rewrite add_node_block_in_integers.
  apply bind_ext. intros psi1.
  apply foldM_ext. intros psi2 nb _.
  unfold loop_edge_step, joint_edge_step.
  apply bind_ext. intros lj.
  cbn [psi_sub_edge dense_vectors].
  now rewrite sub_edge_block_in_integers.
Qed.

Lemma get_joint_feature_vector_sparse_in_integers (p : problem sparse_vect)
  (sample : graph sparse_vect) (label : label_type) :
  get_joint_feature_vector_sparse_in integers (edge_dims p) sample label =
  get_joint_feature_vector_sparse p sample label.
Proof. reflexivity. Qed.

Lemma dot_in_integers_from (a b : matrix) (acc : Z) :
  foldM (fun acc xy =>
           t <- ar_mul integers (fst xy) (snd xy) ;; ar_add integers acc t)
    (combine a b) acc = Some (acc + inner a b).
Proof.
  revert b acc. induction a as [|x a IH]; intros [|y b] acc;
    cbn [combine foldM]; try (f_equal; unfold inner; cbn; lia).
  cbn [ar_mul ar_add integers bind fst snd]. rewrite IH, inner_cons.
  f_equal. lia.
Qed.

Lemma dot_in_integers (a b : matrix) (x : Z) :
  dot_in integers a b = Some x -> x = inner a b.
Proof.
  unfold dot_in. destruct (length a =? length b)%nat; [|discriminate].
  rewrite dot_in_integers_from. cbn [ar_zero integers]. intros E.
  injection E as <-. lia.
Qed.

Lemma dot_sparse_in_integers_from (v : sparse_vect) (w : matrix)
  (acc x : Z) :
  foldM (fun acc q =>
           y <- nth_error w (fst q) ;;
           t <- ar_mul integers y (snd q) ;; ar_add integers acc t)
    v acc = Some x ->
  x = acc + inner_sparse v w.
Proof.
  revert acc. induction v as [|q v IH]; intros acc E; cbn [foldM] in E.
  - injection E as <-. unfold inner_sparse, sum_list. cbn. lia.
  - apply bind_Some in E. destruct E as [s [Es E]].
    apply bind_Some in Es. destruct Es as [y [Ey Es]].
    cbn [ar_mul ar_add integers bind] in Es. injection Es as <-.
    rewrite (IH _ E), inner_sparse_cons.
    rewrite (nth_error_nth w (fst q) 0 Ey). lia.
Qed.

Lemma dot_sparse_in_integers (v : sparse_vect) (w : matrix) (x : Z) :
  dot_sparse_in integers v w = Some x -> x = inner_sparse v w.
Proof.
  unfold dot_sparse_in. intros E.
  rewrite (dot_sparse_in_integers_from v w _ x E). cbn [ar_zero integers].
  lia.
Qed.

(** ** The integers that the entries are *)

Lemma integer_values_related (v : list double) (v' : matrix) :
  integer_values v = Some v' ->
  Forall2 (fun x z => integer_value x = Some z) v v'.
Proof. apply mapM_Forall2. Qed.

Lemma integer_values_sparse_related (v : list (nat * double))
  (v' : sparse_vect) :
  integer_values_sparse v = Some v' ->
  sparse_related (fun x z => integer_value x = Some z) v v'.
Proof.
  intros E. apply mapM_Forall2 in E. unfold sparse_related.
  induction E as [|q q' v v' Hq _ IH]; constructor; [|exact IH].
  apply bind_Some in Hq. destruct Hq as [z [Ez Hq]]. injection Hq as <-.
  auto.
Qed.

Lemma integer_values_graph_related {V W : Type} (values : V -> option W)
  (R : V -> W -> Prop) (g : graph V) (g' : graph W) :
  (forall v w, values v = Some w -> R v w) ->
  integer_values_graph values g = Some g' -> graph_related R g g'.
Proof.
  intros HR E. apply mapM_Forall2 in E. unfold graph_related.
  induction E as [|nd nd' g g' Hnd _ IH]; constructor; [|exact IH].
  apply bind_Some in Hnd. destruct Hnd as [d [Ed Hnd]].
  apply bind_Some in Hnd. destruct Hnd as [nbs [Enbs Hnd]].
  injection Hnd as <-. cbn [data neighbors]. split; [now apply HR|].
  apply mapM_Forall2 in Enbs.
  induction Enbs as [|nb nb' l l' Hnb _ IHn]; constructor; [|exact IHn].
  apply bind_Some in Hnb. destruct Hnb as [e [Ee Hnb]]. injection Hnb as <-.
  cbn [fst snd]. split; [reflexivity | now apply HR].
Qed.

Lemma graph_related_refl {V : Type} (R : V -> V -> Prop) :
  (forall v, R v v) -> forall g : graph V, graph_related R g g.
Proof.
  intros HR g. unfold graph_related.
  induction g as [|nd g IH]; constructor; [|exact IH].
  split; [apply HR|].
  induction (neighbors nd) as [|nb l IHl]; constructor; auto.
Qed.

Lemma sparse_related_refl {D : Type} (v : list (nat * D)) :
  sparse_related eq v v.
Proof. induction v; constructor; auto. Qed.

Lemma sparse_related_eq {D : Type} (v v' : list (nat * D)) :
  sparse_related eq v v' -> v = v'.
Proof.
  intros H. induction H as [|[i x] [j y] v v' [H1 H2] _ IH]; [reflexivity|].
  cbn [fst snd] in *. congruence.
Qed.

(** ** Calls on the problem object *)

Lemma length_set_size (n : Z) (m : matrix) :
  length (set_size n m) = Z.to_nat n.
Proof.
  unfold set_size. rewrite length_app, length_firstn, repeat_length. lia.
Qed.

Lemma assign_all_repeat (x : Z) (m : matrix) :
  assign_all x m = repeat x (length m).
Proof.
  unfold assign_all. induction m as [|y m IH]; [reflexivity|].
  cbn [map length repeat]. now rewrite IH.
Qed.

(** [psi.set_size(n); psi = 0], lines 223 and 224. *)
#[export, refine] Instance dense_reset : FeatureVectorReset matrix matrix := {
  psi_reset := fun n psi => assign_all 0 (set_size n psi)
}.
Proof.
  intros n psi. rewrite assign_all_repeat, length_set_size. reflexivity.
Defined.

(** [psi.clear()], line 280. *)
#[export, refine] Instance sparse_reset
  : FeatureVectorReset sparse_vect sparse_vect := {
  psi_reset := fun _ psi => clear psi
}.
Proof.
  intros n psi. reflexivity.
Defined.

(** The loop of [get_joint_feature_vector] keeps what [psi] holds when it
    starts: without the statements of lines 223, 224 and 280 a call would
    depend on the call before it. *)
Lemma joint_feature_loop_keeps_psi :
  foldM (joint_node_step scenario_A_sparse_problem scenario_A_labels)
    (indexed scenario_A_sparse_sample) [(7%nat, 1)] <>
  foldM (joint_node_step scenario_A_sparse_problem scenario_A_labels)
    (indexed scenario_A_sparse_sample) [].
Proof. vm_compute. discriminate. Qed.

Section CallProperties.
Context {V PSI : Type} {FV : FeatureVector V PSI}
  {FR : FeatureVectorReset V PSI}.

(** A call of [get_joint_feature_vector] leaves in [psi] what the function
    of the embedding returns, whatever [psi] held, and touches nothing
    else. *)
Lemma get_joint_feature_vector_call_eq (sample : graph V)
  (label : label_type) (st : state V PSI) :
  get_joint_feature_vector_call sample label st =
  psi <- get_joint_feature_vector (this st) sample label ;;
  Some (write_psi psi st).
Proof.
  unfold get_joint_feature_vector_call, get_joint_feature_vector.
  cbn [write_psi this psi_ref returned loss_ref].
  rewrite psi_reset_init.
  destruct (foldM (joint_node_step (this st) label) (indexed sample)
              (psi_init (get_num_dimensions (this st)))); reflexivity.
Qed.

(** A call of [separation_oracle] leaves in [loss] and [psi] what the
    function of the embedding returns, whatever the two held. *)
Lemma separation_oracle_call_eq (solver : potts_graph -> label_type)
  (idx : nat) (w : matrix) (st : state V PSI) :
  separation_oracle_call solver idx w st =
  out <- separation_oracle solver (this st) idx w ;;
  Some (write_psi (snd out) (write_loss (fst out) st)).
Proof.
  unfold separation_oracle_call, separation_oracle, oracle_graph,
    oracle_result, oracle_loss.
  destruct (nth_error (samples (this st)) idx) as [samp|]; cbn [bind];
    [|reflexivity].
  destruct (nth_error (labels (this st)) idx) as [truth|]; cbn [bind];
    [|reflexivity].
  destruct (potts_graph_of (this st) samp truth w) as [g|]; cbn [bind];
    [|reflexivity].
  cbn [write_loss loss_ref].
  destruct (foldM (loss_step truth) (indexed (solver g)) 0) as [loss|];
    cbn [bind]; [|reflexivity].
  rewrite get_joint_feature_vector_call_eq. cbn [write_loss this].
  destruct (get_joint_feature_vector (this st) samp (solver g)) as [psi|];
    reflexivity.
Qed.

(** No call assigns to a member of the object. *)
Lemma exec_this (solver : potts_graph -> label_type) (st st' : state V PSI)
  (c : call V) :
  exec solver st c = Some st' -> this st' = this st.
Proof.
  destruct c as [| | |sample label|idx|idx w]; cbn [exec].
  - intros E. now injection E as <-.
  - intros E. now injection E as <-.
  - intros E. now injection E as <-.
  - rewrite get_joint_feature_vector_call_eq. intros E.
    apply bind_Some in E. destruct E as [psi [_ E]]. now injection E as <-.
  - unfold get_truth_joint_feature_vector_call. intros E.
    apply bind_Some in E. destruct E as [samp [_ E]].
    apply bind_Some in E. destruct E as [lab [_ E]].
    rewrite get_joint_feature_vector_call_eq in E.
    apply bind_Some in E. destruct E as [psi [_ E]]. now injection E as <-.
  - rewrite separation_oracle_call_eq. intros E.
    apply bind_Some in E. destruct E as [out [_ E]]. now injection E as <-.
Qed.

Lemma run_this (solver : potts_graph -> label_type) (cs : list (call V))
  (st st' : state V PSI) :
  run solver cs st = Some st' -> this st' = this st.
Proof.
  unfold run. revert st. induction cs as [|c cs IH]; intros st E.
  - cbn [foldM] in E. now injection E as <-.
  - cbn [foldM] in E. apply bind_Some in E. destruct E as [st1 [E1 E]].
    rewrite (IH st1 E). exact (exec_this solver st st1 c E1).
Qed.
End CallProperties.

(** * The claims *)

(** C1.  On the dense instance of scenario A (the path 0-1-2, every node
    vector [1,0], every edge vector [1], labels true, true, false) the
    constructor finds [node_dims = 2] and [edge_dims = 1], and the joint
    feature vector of the sample under its labels is [-1, 2, 0]: the edge
    block holds [-1] and the node block holds [2, 0]. *)
Theorem C1_scenario_A_joint_feature_vector :
  structural_svm_graph_labeling_problem [scenario_A_sample] [scenario_A_labels]
    = Some scenario_A_problem /\
  get_joint_feature_vector_dense scenario_A_problem scenario_A_sample
    scenario_A_labels = Some [-1; 2; 0] /\
  get_truth_joint_feature_vector scenario_A_problem 0 = Some [-1; 2; 0].
Proof. repeat split; vm_compute; reflexivity. Qed.




(** C3.  The loss returned by [separation_oracle] is the number of nodes at
    which the labeling returned by the solver disagrees with the truth
    labeling; it lies between 0 and the number of nodes, and is 0 exactly
    when the two labelings agree at every node. *)
Theorem C3_loss_is_hamming_distance {V PSI : Type} {FV : FeatureVector V PSI}
  {FF : FeatureVectorFits V PSI}
  (solver : potts_graph -> label_type) (p : problem V) (idx : nat)
  (w : matrix) (samp : graph V) (truth : label_type) :
  nth_error (samples p) idx = Some samp ->
  nth_error (labels p) idx = Some truth ->
  length truth = number_of_nodes samp ->
  graph_wf samp = true ->
  sample_fits p samp = true ->
  msize w = get_num_dimensions p ->
  (forall g, length (solver g) = length g) ->
  exists g psi,
    oracle_graph p idx w = Some g /\
    separation_oracle solver p idx w =
      Some (hamming_distance (number_of_nodes samp) truth (solver g), psi) /\
    0 <= hamming_distance (number_of_nodes samp) truth (solver g)
      <= Z.of_nat (number_of_nodes samp) /\
    (hamming_distance (number_of_nodes samp) truth (solver g) = 0 <->
     forall i, (i < number_of_nodes samp)%nat ->
       label_at (solver g) i = label_at truth i).
Proof.
  intros Es Et Hlen Hwf Hfit Hw Hsolver.
  destruct (potts_graph_of_defined p samp truth w Hlen Hfit Hw)
    as [g [Eg Lg]].
  assert (Hl : length (solver g) = number_of_nodes samp)
    by (rewrite Hsolver; exact Lg).
  destruct (get_joint_feature_vector_defined p samp (solver g) Hwf Hl Hfit)
    as [psi [Epsi _]].
  exists g, psi.
  assert (Egraph : oracle_graph p idx w = Some g).
  { unfold oracle_graph. rewrite Es, Et. exact Eg. }
  split; [exact Egraph|]. split.
  - unfold separation_oracle. rewrite Egraph. cbn [bind].
    unfold oracle_result. rewrite Es, Et. cbn [bind].
    rewrite oracle_loss_hamming by lia. cbn [bind].
    rewrite Epsi, Hl. reflexivity.
  - split; [apply hamming_distance_bounds | apply hamming_distance_zero].
Qed.

Lemma C3_loss_is_hamming_distance_witness :
  exists g psi,
    oracle_graph scenario_A_problem 0 [0; 1; 0] = Some g /\
    separation_oracle exhaustive_potts scenario_A_problem 0 [0; 1; 0] =
      Some (hamming_distance 3 scenario_A_labels (exhaustive_potts g), psi) /\
    0 <= hamming_distance 3 scenario_A_labels (exhaustive_potts g) <= 3 /\
    (hamming_distance 3 scenario_A_labels (exhaustive_potts g) = 0 <->
     forall i, (i < 3)%nat ->
       label_at (exhaustive_potts g) i = label_at scenario_A_labels i).
Proof.
  apply (C3_loss_is_hamming_distance exhaustive_potts scenario_A_problem 0%nat
           [0; 1; 0] scenario_A_sample scenario_A_labels);
    try reflexivity.
  exact exhaustive_potts_length.
Defined.

(** C4.  In [separation_oracle] the potential of every node [i] of the
    Potts graph is the dot product of the node-weight block of the weight
    vector, its entries from [edge_dims] up to [edge_dims + node_dims], with
    the feature vector of node [i], minus 1 when the truth label of [i] is
    true and plus 1 when it is false. *)
Theorem C4_node_potential {V PSI : Type} {FV : FeatureVector V PSI}
  {FF : FeatureVectorFits V PSI}
  (p : problem V) (idx : nat) (w : matrix) (samp : graph V)
  (truth : label_type) :
  nth_error (samples p) idx = Some samp ->
  nth_error (labels p) idx = Some truth ->
  length truth = number_of_nodes samp ->
  sample_fits p samp = true ->
  msize w = get_num_dimensions p ->
  exists g,
    oracle_graph p idx w = Some g /\
    length g = number_of_nodes samp /\
    forall i nd t,
      nth_error samp i = Some nd ->
      nth_error truth i = Some t ->
      exists d gn,
        dot (node_weight_block p w) (data nd) = Some d /\
        nth_error g i = Some gn /\
        potential gn = if is_true_label t then d - 1 else d + 1.
Proof.
  intros Es Et Hlen Hfit Hw.
  destruct (potts_graph_of_defined p samp truth w Hlen Hfit Hw)
    as [g [Eg Lg]].
  exists g. split; [unfold oracle_graph; rewrite Es, Et; exact Eg|].
  split; [exact Lg|].
  intros i nd t Hnd Ht.
  unfold potts_graph_of in Eg.
  destruct (mapM_nth_error _ _ _ Eg i (i, nd) (nth_error_indexed _ _ _ Hnd))
    as [gn [En Hgn]].
  unfold potts_node_of in En.
  apply bind_Some in En. destruct En as [blk [Eblk En]].
  apply bind_Some in En. destruct En as [d [Ed En]].
  apply bind_Some in En. destruct En as [t' [Et' En]].
  apply bind_Some in En. destruct En as [ls [_ En]].
  assert (t' = t) by congruence. subst t'.
  inversion En; subst gn; clear En.
  exists d. eexists. split; [|split; [exact Hgn | reflexivity]].
  assert (Eb : blk = node_weight_block p w).
  { unfold rowm_range in Eblk.
    destruct ((0 <=? edge_dims p) && (edge_dims p <=? msize w - 1)
              && (msize w - 1 <? msize w)); [|discriminate].
    inversion Eblk. unfold node_weight_block. f_equal.
    unfold get_num_dimensions in Hw. f_equal. lia. }
  now rewrite <- Eb.
Qed.

Lemma C4_node_potential_witness :
  exists g,
    oracle_graph scenario_A_problem 0 [0; 1; 0] = Some g /\
    length g = 3%nat /\
    forall i nd t,
      nth_error scenario_A_sample i = Some nd ->
      nth_error scenario_A_labels i = Some t ->
      exists d gn,
        dot (node_weight_block scenario_A_problem [0; 1; 0]) (data nd)
          = Some d /\
        nth_error g i = Some gn /\
        potential gn = if is_true_label t then d - 1 else d + 1.
Proof.
  apply (C4_node_potential scenario_A_problem 0%nat [0; 1; 0]
           scenario_A_sample scenario_A_labels); reflexivity.
Defined.

(** C5.  The validator is documented to return true exactly when the pair
    is a learning problem, every label vector has one label per node, no
    sample has an edge from a node to itself, no edge vector has a negative
    entry and, for matrices only, the node vectors share one size, the edge
    vectors share one size and no vector has size zero.  On the sparse
    dataset of one sample with a single node whose vector is empty all of
    this holds, and the validator returns false: line 80 tests the size of
    a node vector without asking for a matrix. *)
Theorem C5_sparse_empty_node_vector_rejected :
  documented_graph_labeling_problem [empty_node_sample] [[0%N]] /\
  is_graph_labeling_problem [empty_node_sample] [[0%N]] = false.
Proof.
  split; [|reflexivity].
  unfold documented_graph_labeling_problem.
  split; [reflexivity|].
  split; [repeat constructor|].
  split; [repeat constructor|].
  split; [constructor|].
  intros H. discriminate H.
Qed.

(** C6, as stated, fails: a sparse dataset whose only edge carries an empty
    vector, and which is sound otherwise, is accepted. *)
Lemma C6_sparse_empty_edge_vector_accepted :
  In ([] : sparse_vect) (edge_vectors [empty_edge_sample]) /\
  vect_size ([] : sparse_vect) = 0%nat /\
  is_graph_labeling_problem [empty_edge_sample] [[0%N; 1%N]] = true.
Proof.
  split; [left; reflexivity|]. split; reflexivity.
Qed.

(** C6, amended.  Under the dense representation the validator returns
    false whenever a node vector or an edge vector of the dataset has size
    zero. *)
Theorem C6_dense_zero_length_rejected (samps : list (graph matrix))
  (labs : list label_type) (v : matrix) :
  In v (node_vectors samps ++ edge_vectors samps) ->
  vect_size v = 0%nat ->
  is_graph_labeling_problem samps labs = false.
Proof.
  intros Hin Hv.
  destruct (is_graph_labeling_problem samps labs) eqn:E; [|reflexivity].
  apply is_graph_labeling_problem_dense_iff in E.
  destruct E as [_ [_ [_ [_ H]]]]. destruct (H eq_refl) as [_ [_ H']].
  rewrite Forall_forall in H'. now destruct (H' v Hin).
Qed.

Lemma C6_dense_zero_length_rejected_witness :
  is_graph_labeling_problem
    [[ {| data := [1; 0]; neighbors := [(1%nat, [])] |};
       {| data := [1; 0]; neighbors := [(0%nat, [])] |} ]]
    [[0%N; 1%N]] = false.
Proof.
  apply (C6_dense_zero_length_rejected
           [[ {| data := [1; 0]; neighbors := [(1%nat, [])] |};
              {| data := [1; 0]; neighbors := [(0%nat, [])] |} ]]
           [[0%N; 1%N]] []).
  - cbn. auto.
  - reflexivity.
Defined.




(** C8.  [separation_oracle] is deterministic.  A call writes [loss] and
    [psi], which it receives by reference, and reads the object, the index
    and the weight vector; with a solver that returns one labeling per
    Potts graph, two calls on the same object with the same index and the
    same weight vector come to the same end whatever [loss] and [psi] held
    before: both fail or both return, with the same loss and the same
    feature vector, hence feature vectors with the same inner product
    against that weight vector.  In particular a call repeated on the
    state the first call left changes nothing, and the object is the same
    after the call. *)
Theorem C8_separation_oracle_deterministic {V PSI : Type}
  {FV : FeatureVector V PSI} {FR : FeatureVectorReset V PSI}
  (solver : potts_graph -> label_type) (idx : nat) (w : matrix)
  (st st' : state V PSI) :
  this st = this st' ->
  option_map oracle_outcome (separation_oracle_call solver idx w st) =
  option_map oracle_outcome (separation_oracle_call solver idx w st') /\
  (forall out out',
     separation_oracle_call solver idx w st = Some out ->
     separation_oracle_call solver idx w st' = Some out' ->
     loss_ref out = loss_ref out' /\
     psi_ref out = psi_ref out' /\
     psi_dot (psi_ref out) w = psi_dot (psi_ref out') w) /\
  (forall out,
     separation_oracle_call solver idx w st = Some out ->
     this out = this st /\
     separation_oracle_call solver idx w out = Some out).
Proof.
  intros Hthis.
  assert (Hsame : option_map oracle_outcome
                    (separation_oracle_call solver idx w st) =
                  option_map oracle_outcome
                    (separation_oracle_call solver idx w st')).
  { rewrite !separation_oracle_call_eq, <- Hthis.
    destruct (separation_oracle solver (this st) idx w) as [[loss psi]|];
      cbn [bind option_map]; [|reflexivity].
    unfold oracle_outcome.
    cbn [write_psi write_loss this loss_ref psi_ref fst snd].
    now rewrite Hthis. }
  split; [exact Hsame|]. split.
  - intros out out' E E'. rewrite E, E' in Hsame. cbn [option_map] in Hsame.
    unfold oracle_outcome in Hsame. injection Hsame as _ Hl Hp.
    now rewrite Hl, Hp.
  - intros out E. rewrite separation_oracle_call_eq in E.
    apply bind_Some in E. destruct E as [[loss psi] [Eo E]].
    injection E as <-. cbn [write_psi write_loss this fst snd].
    split; [reflexivity|].
    rewrite separation_oracle_call_eq.
    cbn [write_psi write_loss this fst snd returned loss_ref psi_ref].
    rewrite Eo. reflexivity.
Qed.

Lemma C8_separation_oracle_deterministic_witness :
  option_map oracle_outcome
    (separation_oracle_call exhaustive_potts 0 [0; 1; 0]
       {| this := scenario_A_problem; returned := 0;
          loss_ref := 0; psi_ref := [] |}) =
  option_map oracle_outcome
    (separation_oracle_call exhaustive_potts 0 [0; 1; 0]
       {| this := scenario_A_problem; returned := 7;
          loss_ref := 40; psi_ref := [9; 9; 9; 9; 9] |}) /\
  (forall out out',
     separation_oracle_call exhaustive_potts 0 [0; 1; 0]
       {| this := scenario_A_problem; returned := 0;
          loss_ref := 0; psi_ref := [] |} = Some out ->
     separation_oracle_call exhaustive_potts 0 [0; 1; 0]
       {| this := scenario_A_problem; returned := 7;
          loss_ref := 40; psi_ref := [9; 9; 9; 9; 9] |} = Some out' ->
     loss_ref out = loss_ref out' /\
     psi_ref out = psi_ref out' /\
     psi_dot (FeatureVector := dense_vectors) (psi_ref out) [0; 1; 0] =
     psi_dot (FeatureVector := dense_vectors) (psi_ref out') [0; 1; 0]) /\
  (forall out,
     separation_oracle_call exhaustive_potts 0 [0; 1; 0]
       {| this := scenario_A_problem; returned := 0;
          loss_ref := 0; psi_ref := [] |} = Some out ->
     this out = scenario_A_problem /\
     separation_oracle_call exhaustive_potts 0 [0; 1; 0] out = Some out).
Proof.
  apply (C8_separation_oracle_deterministic (FV := dense_vectors)
           exhaustive_potts 0%nat [0; 1; 0]
           {| this := scenario_A_problem; returned := 0;
              loss_ref := 0; psi_ref := [] |}
           {| this := scenario_A_problem; returned := 7;
              loss_ref := 40; psi_ref := [9; 9; 9; 9; 9] |}).
  reflexivity.
Defined.

(** C9.  Label values enter only through their being zero or not: for two
    label vectors [l] and [l'] that are zero at the same positions, the
    dense and the sparse [get_joint_feature_vector] return the same vector,
    the loss computed against either is the same, and [separation_oracle]
    returns the same loss and feature vector on a problem whose label
    vector of the sample is [l] or [l']. *)
Theorem C9_labels_only_through_truth (l l' : label_type) :
  same_truth l l' ->
  (forall p s, get_joint_feature_vector_dense p s l =
               get_joint_feature_vector_dense p s l') /\
  (forall p s, get_joint_feature_vector_sparse p s l =
               get_joint_feature_vector_sparse p s l') /\
  (forall other, oracle_loss l other = oracle_loss l' other /\
                 oracle_loss other l = oracle_loss other l') /\
  (forall (V PSI : Type) (FV : FeatureVector V PSI)
          (solver : potts_graph -> label_type) (p : problem V)
          (labs' : list label_type) (idx : nat) (w : matrix),
      nth_error (labels p) idx = Some l ->
      nth_error labs' idx = Some l' ->
      separation_oracle solver (relabel p labs') idx w =
      separation_oracle solver p idx w).
Proof.
  intros H. repeat split.
  - intros p s. now apply get_joint_feature_vector_same_truth.
  - intros p s. now apply get_joint_feature_vector_same_truth.
  - now apply oracle_loss_same_truth.
  - now apply oracle_loss_same_truth_labeling.
  - intros V PSI FV solver p labs' idx w El El'.
    now apply (separation_oracle_same_truth solver p labs' idx w l l').
Qed.

Lemma C9_labels_only_through_truth_witness :
  get_joint_feature_vector_dense scenario_A_problem scenario_A_sample
    [1%N; 1%N; 0%N] =
  get_joint_feature_vector_dense scenario_A_problem scenario_A_sample
    [7%N; 255%N; 0%N].
Proof.
  apply (proj1 (C9_labels_only_through_truth [1%N; 1%N; 0%N]
                  [7%N; 255%N; 0%N] eq_refl)).
Defined.

(** C10.  Under the labeling that is false at every node the dense
    [get_joint_feature_vector] returns the zero vector of
    [edge_dims + node_dims] entries and the sparse one returns the empty
    vector; the inner product of either with any weight vector is 0. *)
Theorem C10_all_false_labeling (pd : problem matrix) (sd : graph matrix)
  (ps : problem sparse_vect) (ss : graph sparse_vect) (w : matrix) :
  graph_wf sd = true ->
  graph_wf ss = true ->
  get_joint_feature_vector_dense pd sd (all_false sd) =
    Some (zeros (edge_dims pd + node_dims pd)) /\
  (0 <= edge_dims pd + node_dims pd ->
   msize (zeros (edge_dims pd + node_dims pd)) = edge_dims pd + node_dims pd) /\
  inner (zeros (edge_dims pd + node_dims pd)) w = 0 /\
  get_joint_feature_vector_sparse ps ss (all_false ss) = Some [] /\
  inner_sparse [] w = 0.
Proof.
  intros Hd Hs.
  assert (Hall : forall n, Forall (fun x => x = 0%N) (repeat 0%N n)).
  { intros n. apply Forall_forall. intros x Hx.
    now apply repeat_spec in Hx. }
  repeat split.
  - apply (get_joint_feature_vector_all_false (FV := dense_vectors));
      [exact Hd | apply repeat_length | apply Hall].
  - apply msize_zeros.
  - unfold inner, zeros. generalize (Z.to_nat (edge_dims pd + node_dims pd)).
    intros n. revert w. induction n as [|n IH]; intros [|y w]; simpl; auto.
  - apply (get_joint_feature_vector_all_false (FV := sparse_vectors));
      [exact Hs | apply repeat_length | apply Hall].
Qed.

Lemma C10_all_false_labeling_witness :
  get_joint_feature_vector_dense scenario_A_problem scenario_A_sample
    (all_false scenario_A_sample) = Some (zeros (1 + 2)) /\
  (0 <= 1 + 2 -> msize (zeros (1 + 2)) = 1 + 2) /\
  inner (zeros (1 + 2)) [5; 6; 7] = 0 /\
  get_joint_feature_vector_sparse
    {| samples := []; labels := []; node_dims := 1; edge_dims := 1 |}
    [ {| data := [(0%nat, 4)]; neighbors := [(1%nat, [(0%nat, 2)])] |};
      {| data := [(0%nat, 3)]; neighbors := [(0%nat, [(0%nat, 2)])] |} ]
    (all_false
       [ {| data := [(0%nat, 4)]; neighbors := [(1%nat, [(0%nat, 2)])] |};
         {| data := [(0%nat, 3)]; neighbors := [(0%nat, [(0%nat, 2)])] |} ])
    = Some [] /\
  inner_sparse [] [5; 6; 7] = 0.
Proof.
  apply (C10_all_false_labeling scenario_A_problem scenario_A_sample
           {| samples := []; labels := []; node_dims := 1; edge_dims := 1 |}
           [ {| data := [(0%nat, 4)]; neighbors := [(1%nat, [(0%nat, 2)])] |};
             {| data := [(0%nat, 3)]; neighbors := [(0%nat, [(0%nat, 2)])] |} ]
           [5; 6; 7]); reflexivity.
Defined.

(** * Further properties *)

(** ** The sign of [dot] *)

Lemma inner_nonneg (a b : matrix) :
  Forall (fun x => 0 <= x) a -> Forall (fun x => 0 <= x) b -> 0 <= inner a b.
Proof.
  intros Ha. revert b. induction Ha as [|x a Hx Ha IH]; intros b Hb.
  - destruct b; unfold inner; simpl; lia.
  - destruct Hb as [|y b Hy Hb]; [unfold inner; simpl; lia|].
    rewrite inner_cons. specialize (IH b Hb). nia.
Qed.

Lemma nth_nonneg (l : matrix) (i : nat) :
  Forall (fun x => 0 <= x) l -> 0 <= nth i l 0.
Proof.
  intros H. revert i. induction H as [|x l Hx Hl IH]; intros [|i]; simpl;
    try lia; auto.
Qed.

Lemma inner_sparse_nonneg (v : sparse_vect) (w : matrix) :
  Forall (fun x => 0 <= x) w -> Forall (fun x => 0 <= x) (map snd v) ->
  0 <= inner_sparse v w.
Proof.
  intros Hw. induction v as [|q v IH]; intros Hv.
  - unfold inner_sparse. simpl. lia.
  - cbn [map] in Hv. inversion Hv; subst.
    rewrite inner_sparse_cons. pose proof (nth_nonneg w (fst q) Hw).
    specialize (IH H2). nia.
Qed.

#[export, refine] Instance dense_score : FeatureVectorScore matrix matrix := {}.
Proof.
  intros blk v d Hb Hv Hdot.
  cbn [dot vect_entries dense_vectors dense_content] in *.
  unfold dot_dense in Hdot.
  destruct (msize blk =? msize v); [|discriminate]. injection Hdot as <-.
  now apply inner_nonneg.
Defined.

#[export, refine] Instance sparse_score
  : FeatureVectorScore sparse_vect sparse_vect := {}.
Proof.
  intros blk v d Hb Hv Hdot.
  cbn [dot vect_entries sparse_vectors sparse_content] in *.
  injection Hdot as <-. now apply inner_sparse_nonneg.
Defined.

Lemma score_of_dot {V PSI : Type} {FV : FeatureVector V PSI} (blk : matrix)
  (v : V) (d : Z) :
  dot blk v = Some d -> score_of blk v = d.
Proof. intros H. unfold score_of. now rewrite H. Qed.

Lemma rowm_range_edge_block {V : Type} (p : problem V) (w eb : matrix) :
  rowm_range w 0 (edge_dims p - 1) = Some eb -> eb = edge_weight_block p w.
Proof.
  unfold rowm_range.
  destruct ((0 <=? 0) && (0 <=? edge_dims p - 1)
            && (edge_dims p - 1 <? msize w)); [|discriminate].
  intros E. injection E as <-. unfold edge_weight_block.
  change (Z.to_nat 0) with 0%nat. cbn [skipn]. f_equal. lia.
Qed.

(** ** Indices stay below the dimensions *)

Section ConstructedIndices.
Context {V PSI : Type} {FV : FeatureVector V PSI}
  {FC : FeatureVectorContent V PSI}.

Lemma scan_dims_nonneg (samps : list (graph V)) :
  0 <= fst (scan_dims samps) /\ 0 <= snd (scan_dims samps).
Proof.
  rewrite scan_dims_largest. cbn [fst snd].
  split; apply largest_long_nonneg.
Qed.

Lemma scan_dims_above_indices (samps : list (graph V)) :
  indices_fit_long samps ->
  (forall v i, In v (node_vectors samps) -> In i (vect_indices v) ->
     Z.of_nat i < fst (scan_dims samps)) /\
  (forall v i, In v (edge_vectors samps) -> In i (vect_indices v) ->
     Z.of_nat i < snd (scan_dims samps)).
Proof.
  intros Hfit. rewrite (scan_dims_indices samps Hfit). cbn [fst snd].
  split; intros v i Hv Hi; apply inj_lt, in_below_one_plus_max_index;
    apply in_flat_map; exists v; auto.
Qed.

(** When one plus every index is a [long], so is each dimension. *)
Lemma scan_dims_fit_long (samps : list (graph V)) :
  indices_fit_long samps ->
  fst (scan_dims samps) < 2 ^ 63 /\ snd (scan_dims samps) < 2 ^ 63.
Proof.
  intros Hfit. rewrite (scan_dims_indices samps Hfit). cbn [fst snd].
  split; apply one_plus_max_index_bound; try lia; intros i Hi;
    apply in_flat_map in Hi; destruct Hi as [v [Hv Hi]];
    apply (Hfit v i); auto; apply in_or_app; auto.
Qed.

Lemma constructed_dims (samps : list (graph V)) (labs : list label_type)
  (p : problem V) :
  structural_svm_graph_labeling_problem samps labs = Some p ->
  is_graph_labeling_problem samps labs = true /\
  samples p = samps /\ labels p = labs /\
  node_dims p = fst (scan_dims samps) /\ edge_dims p = snd (scan_dims samps).
Proof.
  unfold structural_svm_graph_labeling_problem.
  destruct (is_graph_labeling_problem samps labs); [|discriminate].
  intros E. injection E as <-. repeat split.
Qed.
End ConstructedIndices.

Lemma in_node_vectors {V : Type} (samps : list (graph V)) (samp : graph V)
  (nd : node_type V) :
  In samp samps -> In nd samp -> In (data nd) (node_vectors samps).
Proof.
  intros Hs Hn. unfold node_vectors. apply in_flat_map. exists samp.
  split; [exact Hs | now apply in_map].
Qed.

Lemma in_edge_vectors {V : Type} (samps : list (graph V)) (samp : graph V)
  (nd : node_type V) (nb : nat * V) :
  In samp samps -> In nd samp -> In nb (neighbors nd) ->
  In (snd nb) (edge_vectors samps).
Proof.
  intros Hs Hn Hb. unfold edge_vectors. apply in_flat_map. exists samp.
  split; [exact Hs|]. unfold edges_of. apply in_flat_map. exists nd.
  split; [exact Hn | now apply in_map].
Qed.

Lemma constructed_indices_within (samps : list (graph sparse_vect))
  (labs : list label_type) (p : problem sparse_vect) (samp : graph sparse_vect) :
  structural_svm_graph_labeling_problem samps labs = Some p ->
  indices_fit_long samps ->
  In samp samps ->
  indices_within p samp = true.
Proof.
  intros Hp Hfit Hin. destruct (constructed_dims samps labs p Hp)
    as [_ [_ [_ [Hn He]]]].
  destruct (scan_dims_above_indices samps Hfit) as [An Ae].
  unfold indices_within. rewrite forallb_forall. intros nd Hnd.
  rewrite andb_true_iff, !forallb_forall. split.
  - intros q Hq. apply Z.ltb_lt. rewrite Hn.
    apply (An (data nd)); [now apply (in_node_vectors samps samp)|].
    cbn [vect_indices sparse_content]. now apply in_map.
  - intros nb Hnb. rewrite forallb_forall. intros q Hq.
    apply Z.ltb_lt. rewrite He.
    apply (Ae (snd nb)); [now apply (in_edge_vectors samps samp nd)|].
    cbn [vect_indices sparse_content]. now apply in_map.
Qed.

Lemma sample_fits_indices_within (p : problem sparse_vect)
  (samp : graph sparse_vect) :
  sample_fits p samp = true -> indices_within p samp = true.
Proof.
  unfold sample_fits, indices_within.
  rewrite !andb_true_iff, !forallb_forall. intros [_ H] nd Hnd.
  specialize (H nd Hnd). rewrite !andb_true_iff in H.
  destruct H as [[_ H1] H2]. rewrite andb_true_iff. split; [exact H1|].
  rewrite forallb_forall in *. intros nb Hnb. specialize (H2 nb Hnb).
  rewrite andb_true_iff in H2. tauto.
Qed.

(** The sparse overload never fails on a labeling of the right length, and
    every index it appends lies below [edge_dims + node_dims]. *)
Lemma sparse_joint_feature_vector_indices (p : problem sparse_vect)
  (samp : graph sparse_vect) (l : label_type) :
  graph_wf samp = true ->
  length l = number_of_nodes samp ->
  indices_within p samp = true ->
  0 <= edge_dims p -> 0 <= node_dims p ->
  get_num_dimensions p <= 2 ^ 64 ->
  exists psi,
    get_joint_feature_vector_sparse p samp l = Some psi /\
    Forall (fun q => Z.of_nat (fst q) < get_num_dimensions p) psi.
Proof.
  intros Hwf Hlen Hin Hed Hnd Hlong.
  unfold get_joint_feature_vector_sparse, get_joint_feature_vector.
  unfold indices_within in Hin. rewrite forallb_forall in Hin.
  apply (foldM_invariant
           (fun psi : sparse_vect =>
              Forall (fun q => Z.of_nat (fst q) < get_num_dimensions p) psi)).
  2: { constructor. }
  intros psi [i nd] Hind Hpsi. apply in_indexed in Hind.
  assert (Hnode : In nd samp) by (eapply nth_error_In; eauto).
  specialize (Hin nd Hnode). rewrite andb_true_iff, !forallb_forall in Hin.
  destruct Hin as [Hdata Hedges].
  assert (Hi : (i < length l)%nat).
  { rewrite Hlen. apply nth_error_Some. unfold number_of_nodes. congruence. }
  destruct (nth_error_defined l i Hi) as [li Eli].
  unfold joint_node_step. rewrite Eli. cbn [bind].
  assert (Hadd : exists psi1,
    (if is_true_label li
     then psi_add_node (edge_dims p) psi (data nd) else Some psi)
      = Some psi1 /\
    Forall (fun q => Z.of_nat (fst q) < get_num_dimensions p) psi1).
  { destruct (is_true_label li); [|eauto].
    cbn [psi_add_node sparse_vectors]. eexists. split; [reflexivity|].
    rewrite add_to_sparse_vect_app.
    2: { apply Forall_forall. intros q Hq. specialize (Hdata q Hq).
         unfold get_num_dimensions in Hlong. lia. }
    apply Forall_app. split; [exact Hpsi|].
    apply Forall_forall. intros q Hq. apply in_map_iff in Hq.
    destruct Hq as [q0 [<- Hq0]]. cbn [fst].
    specialize (Hdata q0 Hq0). unfold get_num_dimensions. lia. }
  destruct Hadd as [psi1 [E1 F1]]. rewrite E1. cbn [bind].
  apply (foldM_invariant
           (fun psi : sparse_vect =>
              Forall (fun q => Z.of_nat (fst q) < get_num_dimensions p) psi));
    [|exact F1].
  intros psi2 nb Hnb F2. unfold joint_edge_step.
  destruct (nth_error_defined l (fst nb)) as [lj Elj].
  { rewrite Hlen. now apply (graph_wf_neighbor samp nd nb). }
  rewrite Elj. cbn [bind].
  destruct ((i <? fst nb)%nat && xorb (is_true_label li) (is_true_label lj));
    [|eauto].
  cbn [psi_sub_edge sparse_vectors]. eexists. split; [reflexivity|].
  rewrite subtract_from_sparse_vect_app. apply Forall_app.
  split; [exact F2|].
  apply Forall_forall. intros q Hq. apply in_map_iff in Hq.
  destruct Hq as [q0 [<- Hq0]]. cbn [fst].
  specialize (Hedges nb Hnb). rewrite forallb_forall in Hedges.
  specialize (Hedges q0 Hq0). unfold get_num_dimensions. lia.
Qed.

(** ** More on [mapM], labels and the Potts graph *)

Lemma mapM_length {A B : Type} (f : A -> option B) (l : list A)
  (bs : list B) :
  mapM f l = Some bs -> length bs = length l.
Proof.
  revert bs. induction l as [|a l IH]; intros bs E.
  - simpl in E. now injection E as <-.
  - cbn [mapM] in E. apply bind_Some in E. destruct E as [b [_ E]].
    apply bind_Some in E. destruct E as [bs' [Ebs E]]. injection E as <-.
    cbn [length]. now rewrite (IH bs' Ebs).
Qed.

Lemma length_indexed {A : Type} (l : list A) : length (indexed l) = length l.
Proof.
  unfold indexed. rewrite length_combine, length_seq. lia.
Qed.

Lemma potts_graph_of_length {V PSI : Type} {FV : FeatureVector V PSI}
  (p : problem V) (samp : graph V) (truth : label_type) (w : matrix)
  (g : potts_graph) :
  potts_graph_of p samp truth w = Some g -> length g = number_of_nodes samp.
Proof.
  intros E. unfold potts_graph_of in E. apply mapM_length in E.
  now rewrite length_indexed in E.
Qed.

Lemma Forall2_nth_error_left {A B : Type} (R : A -> B -> Prop)
  (l1 : list A) (l2 : list B) (i : nat) (a : A) :
  Forall2 R l1 l2 -> nth_error l1 i = Some a ->
  exists b, nth_error l2 i = Some b /\ R a b.
Proof.
  intros H. revert i. induction H as [|x y l1 l2 Hxy _ IH]; intros [|i] Hi;
    simpl in Hi; try discriminate.
  - injection Hi as <-. exists y. auto.
  - now apply IH.
Qed.

Lemma validated_labels {V PSI : Type} {FV : FeatureVector V PSI}
  {FC : FeatureVectorContent V PSI} (samps : list (graph V))
  (labs : list label_type) (i : nat) (s : graph V) :
  is_graph_labeling_problem samps labs = true ->
  nth_error samps i = Some s ->
  exists l, nth_error labs i = Some l /\ length l = number_of_nodes s.
Proof.
  intros H Hs. apply is_graph_labeling_problem_iff in H.
  destruct H as [[_ [H _]] _].
  exact (Forall2_nth_error_left _ _ _ i s H Hs).
Qed.

Lemma same_truth_of_label_at (l l' : label_type) :
  length l = length l' ->
  (forall i, (i < length l)%nat -> label_at l i = label_at l' i) ->
  same_truth l l'.
Proof.
  unfold same_truth. revert l'.
  induction l as [|x l IH]; intros [|y l'] Hlen H; simpl in Hlen;
    try discriminate; [reflexivity|].
  cbn [map]. f_equal.
  - apply (H 0%nat). simpl. lia.
  - apply IH; [lia|]. intros i Hi. apply (H (S i)). simpl. lia.
Qed.

(** The links the oracle writes at node [i]: the neighbours of the sample
    in their order, with a weight from the end point of lower index. *)
Lemma potts_links_map {V PSI : Type} {FV : FeatureVector V PSI}
  (p : problem V) (w : matrix) (i : nat) (nbs : list (nat * V))
  (ls : list (nat * option Z)) :
  mapM (potts_link p w i) nbs = Some ls ->
  ls = map (fun nb =>
          (fst nb,
           if (i <? fst nb)%nat then Some (edge_score p w (snd nb))
           else None)) nbs.
Proof.
  revert ls. induction nbs as [|nb nbs IH]; intros ls E.
  - simpl in E. now injection E as <-.
  - cbn [mapM] in E. apply bind_Some in E. destruct E as [lk [Elk E]].
    apply bind_Some in E. destruct E as [ls' [Els E]]. injection E as <-.
    cbn [map]. rewrite <- (IH ls' Els). f_equal.
    unfold potts_link in Elk. destruct (i <? fst nb)%nat.
    + apply bind_Some in Elk. destruct Elk as [eb [Eeb Elk]].
      apply bind_Some in Elk. destruct Elk as [x [Ex Elk]].
      injection Elk as <-.
      apply (rowm_range_edge_block p w) in Eeb. subst eb.
      unfold edge_score. now rewrite (score_of_dot _ _ _ Ex).
    + now injection Elk as <-.
Qed.

Lemma potts_node_links {V PSI : Type} {FV : FeatureVector V PSI}
  (p : problem V) (truth : label_type) (w : matrix) (i : nat)
  (nd : node_type V) (gn : potts_node) :
  potts_node_of p truth w (i, nd) = Some gn ->
  links gn = map (fun nb =>
          (fst nb,
           if (i <? fst nb)%nat then Some (edge_score p w (snd nb))
           else None)) (neighbors nd).
Proof.
  intros E. unfold potts_node_of in E.
  apply bind_Some in E. destruct E as [blk [_ E]].
  apply bind_Some in E. destruct E as [d [_ E]].
  apply bind_Some in E. destruct E as [t [_ E]].
  apply bind_Some in E. destruct E as [ls [Els E]].
  injection E as <-. cbn [links]. now apply potts_links_map.
Qed.

Lemma edge_score_nonneg {V PSI : Type} {FV : FeatureVector V PSI}
  {FF : FeatureVectorFits V PSI} {FC : FeatureVectorContent V PSI}
  {FS : FeatureVectorScore V PSI} (p : problem V) (w : matrix) (e : V) :
  Forall (fun x => 0 <= x) (edge_weight_block p w) ->
  Forall (fun x => 0 <= x) (vect_entries e) ->
  0 <= edge_score p w e.
Proof.
  intros Hw He. unfold edge_score, score_of.
  destruct (dot (edge_weight_block p w) e) as [d|] eqn:E; [|lia].
  exact (dot_nonneg _ _ _ Hw He E).
Qed.

Lemma dense_size_mismatch (samps : list (graph matrix))
  (labs : list label_type) (vs : list matrix) (u v : matrix) :
  is_graph_labeling_problem samps labs = true ->
  vs = node_vectors samps \/ vs = edge_vectors samps ->
  In u vs -> In v vs -> vect_size u = vect_size v.
Proof.
  intros H Hvs Hu Hv. apply is_graph_labeling_problem_dense_iff in H.
  destruct H as [_ [_ [_ [_ H]]]].
  destruct (H eq_refl) as [[n Hn] [[m Hm] _]].
  rewrite Forall_forall in Hn, Hm.
  destruct Hvs as [-> | ->].
  - now rewrite (Hn u Hu), (Hn v Hv).
  - now rewrite (Hm u Hu), (Hm v Hv).
Qed.

(** * Further properties of the code *)

(** X1.  The validator returns true exactly when the pair is a learning
    problem, every label vector has one label per node, no sample has an
    edge from a node to itself, no edge vector has a negative entry, no
    node vector has size zero and, for matrices, the node vectors share one
    size, the edge vectors share one size and no edge vector has size
    zero.  This holds for the dense and for the sparse representation. *)
Theorem X1_validator_characterisation {V PSI : Type}
  {FV : FeatureVector V PSI} {FC : FeatureVectorContent V PSI}
  (samps : list (graph V)) (labs : list label_type) :
  is_graph_labeling_problem samps labs = true <->
  is_learning_problem samps labs = true /\
  Forall2 (fun s l => length l = number_of_nodes s) samps labs /\
  Forall (fun s => graph_contains_length_one_cycle s = false) samps /\
  Forall (fun e => Forall (fun x => 0 <= x) (vect_entries e))
    (edge_vectors samps) /\
  Forall (fun v => vect_size v <> 0%nat) (node_vectors samps) /\
  (is_matrix = true ->
   (exists n, Forall (fun v => vect_size v = n) (node_vectors samps)) /\
   (exists n, Forall (fun v => vect_size v = n) (edge_vectors samps)) /\
   Forall (fun v => vect_size v <> 0%nat) (edge_vectors samps)).
Proof.
  rewrite is_graph_labeling_problem_iff.
  unfold documented_graph_labeling_problem. split.
  - intros [[H1 [H2 [H3 [H4 H5]]]] H6]. repeat split; auto.
    + now destruct (H5 H).
    + now destruct (H5 H) as [_ [Hm _]].
    + destruct (H5 H) as [_ [_ Hz]]. rewrite Forall_app in Hz. tauto.
  - intros [H1 [H2 [H3 [H4 [H6 H5]]]]]. repeat split; auto.
    + now destruct (H5 H).
    + now destruct (H5 H) as [_ [Hm _]].
    + destruct (H5 H) as [_ [_ Hz]]. rewrite Forall_app. tauto.
Qed.

(** X2.  A dataset one of whose samples has an edge from a node to itself
    is rejected, whatever else it holds. *)
Theorem X2_self_loop_rejected {V PSI : Type} {FV : FeatureVector V PSI}
  {FC : FeatureVectorContent V PSI}
  (samps : list (graph V)) (labs : list label_type) (s : graph V) :
  In s samps -> graph_contains_length_one_cycle s = true ->
  is_graph_labeling_problem samps labs = false.
Proof.
  intros Hin Hcycle.
  destruct (is_graph_labeling_problem samps labs) eqn:E; [|reflexivity].
  apply is_graph_labeling_problem_iff in E.
  destruct E as [[_ [_ [Hnone _]]] _].
  rewrite Forall_forall in Hnone. specialize (Hnone s Hin). congruence.
Qed.

Lemma X2_self_loop_rejected_witness :
  is_graph_labeling_problem
    [[ {| data := [1; 0]; neighbors := [(0%nat, [1])] |} ]] [[1%N]] = false.
Proof.
  apply (X2_self_loop_rejected (FV := dense_vectors)
           [[ {| data := [1; 0]; neighbors := [(0%nat, [1])] |} ]] [[1%N]]
           [ {| data := [1; 0]; neighbors := [(0%nat, [1])] |} ]).
  - left. reflexivity.
  - reflexivity.
Defined.

(** X3.  A dataset in which the label vector of some sample has another
    length than the sample has nodes is rejected. *)
Theorem X3_label_length_mismatch_rejected {V PSI : Type}
  {FV : FeatureVector V PSI} {FC : FeatureVectorContent V PSI}
  (samps : list (graph V)) (labs : list label_type) (i : nat) (s : graph V)
  (l : label_type) :
  nth_error samps i = Some s -> nth_error labs i = Some l ->
  length l <> number_of_nodes s ->
  is_graph_labeling_problem samps labs = false.
Proof.
  intros Hs Hl Hne.
  destruct (is_graph_labeling_problem samps labs) eqn:E; [|reflexivity].
  destruct (validated_labels samps labs i s E Hs) as [l' [El' Hlen]].
  congruence.
Qed.

Lemma X3_label_length_mismatch_rejected_witness :
  is_graph_labeling_problem [scenario_A_sample] [[1%N; 1%N]] = false.
Proof.
  apply (X3_label_length_mismatch_rejected (FV := dense_vectors)
           [scenario_A_sample] [[1%N; 1%N]] 0%nat scenario_A_sample
           [1%N; 1%N]).
  - reflexivity.
  - reflexivity.
  - discriminate.
Defined.

(** X4.  A dataset with a negative entry in some edge vector is
    rejected. *)
Theorem X4_negative_edge_entry_rejected {V PSI : Type}
  {FV : FeatureVector V PSI} {FC : FeatureVectorContent V PSI}
  (samps : list (graph V)) (labs : list label_type) (e : V) (x : Z) :
  In e (edge_vectors samps) -> In x (vect_entries e) -> x < 0 ->
  is_graph_labeling_problem samps labs = false.
Proof.
  intros He Hx Hneg.
  destruct (is_graph_labeling_problem samps labs) eqn:E; [|reflexivity].
  apply is_graph_labeling_problem_iff in E.
  destruct E as [[_ [_ [_ [Hpos _]]]] _].
  rewrite Forall_forall in Hpos. specialize (Hpos e He).
  rewrite Forall_forall in Hpos. specialize (Hpos x Hx). lia.
Qed.

Lemma X4_negative_edge_entry_rejected_witness :
  is_graph_labeling_problem
    [[ {| data := [1; 0]; neighbors := [(1%nat, [-1])] |};
       {| data := [1; 0]; neighbors := [(0%nat, [-1])] |} ]]
    [[1%N; 0%N]] = false.
Proof.
  apply (X4_negative_edge_entry_rejected (FV := dense_vectors)
           [[ {| data := [1; 0]; neighbors := [(1%nat, [-1])] |};
              {| data := [1; 0]; neighbors := [(0%nat, [-1])] |} ]]
           [[1%N; 0%N]] [-1] (-1)).
  - left. reflexivity.
  - left. reflexivity.
  - reflexivity.
Defined.

(** X5.  Under the dense representation a dataset with two node vectors
    of different sizes, or with two edge vectors of different sizes, is
    rejected. *)
Theorem X5_dense_size_mismatch_rejected (samps : list (graph matrix))
  (labs : list label_type) (u v : matrix) :
  (In u (node_vectors samps) /\ In v (node_vectors samps)) \/
  (In u (edge_vectors samps) /\ In v (edge_vectors samps)) ->
  vect_size u <> vect_size v ->
  is_graph_labeling_problem samps labs = false.
Proof.
  intros Hin Hne.
  destruct (is_graph_labeling_problem samps labs) eqn:E; [|reflexivity].
  exfalso. apply Hne.
  destruct Hin as [[Hu Hv] | [Hu Hv]].
  - exact (dense_size_mismatch samps labs _ u v E (or_introl eq_refl) Hu Hv).
  - exact (dense_size_mismatch samps labs _ u v E (or_intror eq_refl) Hu Hv).
Qed.

Lemma X5_dense_size_mismatch_rejected_witness :
  is_graph_labeling_problem
    [[ {| data := [1; 0]; neighbors := [] |};
       {| data := [1]; neighbors := [] |} ]]
    [[1%N; 0%N]] = false.
Proof.
  apply (X5_dense_size_mismatch_rejected
           [[ {| data := [1; 0]; neighbors := [] |};
              {| data := [1]; neighbors := [] |} ]]
           [[1%N; 0%N]] [1; 0] [1]).
  - left. split; [left; reflexivity | right; left; reflexivity].
  - discriminate.
Defined.

(** X6.  The two dimensions the constructor finds are never negative,
    whatever the indices of the dataset.  When every index is below
    [2^63 - 1], so that one plus the index is a [long], every index of a
    node vector of the dataset lies below [node_dims], every index of an
    edge vector below [edge_dims], and the two dimensions are below
    [2^63]. *)
Theorem X6_dimensions_bound_indices {V PSI : Type} {FV : FeatureVector V PSI}
  {FC : FeatureVectorContent V PSI}
  (samps : list (graph V)) (labs : list label_type) (p : problem V) :
  structural_svm_graph_labeling_problem samps labs = Some p ->
  0 <= node_dims p /\ 0 <= edge_dims p /\
  (indices_fit_long samps ->
   node_dims p < 2 ^ 63 /\ edge_dims p < 2 ^ 63 /\
   (forall v i, In v (node_vectors samps) -> In i (vect_indices v) ->
      Z.of_nat i < node_dims p) /\
   (forall v i, In v (edge_vectors samps) -> In i (vect_indices v) ->
      Z.of_nat i < edge_dims p)).
Proof.
  intros Hp. destruct (constructed_dims samps labs p Hp)
    as [_ [_ [_ [-> ->]]]].
  destruct (scan_dims_nonneg samps) as [H1 H2].
  split; [exact H1|]. split; [exact H2|]. intros Hfit.
  destruct (scan_dims_above_indices samps Hfit) as [H3 H4].
  destruct (scan_dims_fit_long samps Hfit) as [H5 H6].
  auto.
Qed.

Lemma X6_dimensions_bound_indices_witness :
  0 <= node_dims scenario_A_sparse_problem /\
  0 <= edge_dims scenario_A_sparse_problem /\
  node_dims scenario_A_sparse_problem < 2 ^ 63 /\
  edge_dims scenario_A_sparse_problem < 2 ^ 63 /\
  (forall v i, In v (node_vectors [scenario_A_sparse_sample]) ->
     In i (vect_indices v) ->
     Z.of_nat i < node_dims scenario_A_sparse_problem) /\
  (forall v i, In v (edge_vectors [scenario_A_sparse_sample]) ->
     In i (vect_indices v) ->
     Z.of_nat i < edge_dims scenario_A_sparse_problem).
Proof.
  destruct (X6_dimensions_bound_indices (FV := sparse_vectors)
              (FC := sparse_content) [scenario_A_sparse_sample]
              [scenario_A_labels] scenario_A_sparse_problem eq_refl)
    as [H1 [H2 H3]].
  split; [exact H1|]. split; [exact H2|].
  exact (H3 scenario_A_sparse_indices_fit_long).
Defined.

(** X7.  After construction from a dense dataset every node vector of
    every sample has exactly [node_dims] entries and every edge vector has
    exactly [edge_dims] entries, and neither size is zero. *)
Theorem X7_validated_dense_dimensions (samps : list (graph matrix))
  (labs : list label_type) (p : problem matrix) (samp : graph matrix)
  (nd : node_type matrix) :
  structural_svm_graph_labeling_problem samps labs = Some p ->
  In samp samps -> In nd samp ->
  msize (data nd) = node_dims p /\ 0 < node_dims p /\
  forall nb, In nb (neighbors nd) ->
    msize (snd nb) = edge_dims p /\ 0 < edge_dims p.
Proof.
  intros Hp Hs Hn.
  pose proof (validated_dense_sample_fits samps labs p samp Hp Hs) as Hfit.
  destruct (sample_fits_node p samp nd Hfit Hn) as [H0 Hv].
  cbn [vect_fits dense_fits] in Hv. apply Z.eqb_eq in Hv.
  repeat split; auto.
  - destruct (sample_fits_edge p samp nd nb Hfit Hn H) as [_ He].
    cbn [vect_fits dense_fits] in He. now apply Z.eqb_eq in He.
  - now destruct (sample_fits_edge p samp nd nb Hfit Hn H).
Qed.

Lemma X7_validated_dense_dimensions_witness :
  msize (data {| data := [1; 0]; neighbors := [(1%nat, [1])] |})
    = node_dims scenario_A_problem /\
  0 < node_dims scenario_A_problem /\
  forall nb,
    In nb (neighbors {| data := [1; 0]; neighbors := [(1%nat, [1])] |}) ->
    msize (snd nb) = edge_dims scenario_A_problem /\
    0 < edge_dims scenario_A_problem.
Proof.
  apply (X7_validated_dense_dimensions [scenario_A_sample]
           [scenario_A_labels] scenario_A_problem scenario_A_sample
           {| data := [1; 0]; neighbors := [(1%nat, [1])] |}).
  - reflexivity.
  - left. reflexivity.
  - left. reflexivity.
Defined.

(** X8.  On a problem constructed from a dense dataset, and a sample of it
    whose neighbour indices name nodes, the dense
    [get_joint_feature_vector] breaks no requirement of a matrix
    operation: for every labeling with one label per node it returns a
    vector of [get_num_dimensions] entries, and so does
    [get_truth_joint_feature_vector] at the index of the sample. *)
Theorem X8_dense_feature_vector_defined (samps : list (graph matrix))
  (labs : list label_type) (p : problem matrix) (idx : nat)
  (samp : graph matrix) :
  structural_svm_graph_labeling_problem samps labs = Some p ->
  nth_error samps idx = Some samp ->
  graph_wf samp = true ->
  (forall l, length l = number_of_nodes samp ->
     exists psi, get_joint_feature_vector_dense p samp l = Some psi /\
                 msize psi = get_num_dimensions p) /\
  (exists psi, get_truth_joint_feature_vector p idx = Some psi /\
               msize psi = get_num_dimensions p).
Proof.
  intros Hp Hs Hwf.
  assert (Hin : In samp samps) by (eapply nth_error_In; eauto).
  pose proof (validated_dense_sample_fits samps labs p samp Hp Hin) as Hfit.
  destruct (constructed_dims samps labs p Hp) as [Hval [Esamps [Elabs _]]].
  assert (Hall : forall l, length l = number_of_nodes samp ->
     exists psi, get_joint_feature_vector_dense p samp l = Some psi /\
                 msize psi = get_num_dimensions p).
  { intros l Hl.
    destruct (get_joint_feature_vector_defined p samp l Hwf Hl Hfit)
      as [psi [E F]].
    exists psi. split; [exact E|].
    cbn [psi_fits dense_fits] in F. now apply Z.eqb_eq in F. }
  split; [exact Hall|].
  destruct (validated_labels samps labs idx samp Hval Hs) as [l [El Hl]].
  destruct (Hall l Hl) as [psi [E L]]. exists psi. split; [|exact L].
  unfold get_truth_joint_feature_vector. rewrite Esamps, Elabs, Hs, El.
  exact E.
Qed.

Lemma X8_dense_feature_vector_defined_witness :
  (forall l, length l = number_of_nodes scenario_A_sample ->
     exists psi,
       get_joint_feature_vector_dense scenario_A_problem scenario_A_sample l
         = Some psi /\
       msize psi = get_num_dimensions scenario_A_problem) /\
  (exists psi,
     get_truth_joint_feature_vector scenario_A_problem 0 = Some psi /\
     msize psi = get_num_dimensions scenario_A_problem).
Proof.
  apply (X8_dense_feature_vector_defined [scenario_A_sample]
           [scenario_A_labels] scenario_A_problem 0%nat scenario_A_sample);
    reflexivity.
Defined.



Lemma mapM_nth_error_inv {A B : Type} (f : A -> option B) (l : list A)
  (bs : list B) :
  mapM f l = Some bs ->
  forall i b, nth_error bs i = Some b ->
  exists a, nth_error l i = Some a /\ f a = Some b.
Proof.
  revert bs. induction l as [|x l IH]; intros bs H i b Hi.
  - simpl in H. injection H as <-. destruct i; discriminate.
  - cbn [mapM] in H. apply bind_Some in H. destruct H as [b0 [Eb H]].
    apply bind_Some in H. destruct H as [bs' [Ebs H]]. injection H as <-.
    destruct i as [|i]; simpl in Hi |- *.
    + injection Hi as <-. exists x. auto.
    + eapply IH; eauto.
Qed.

(** X16.  When the edge-weight block of the weight vector has no negative
    entry and no edge vector of the sample has one, every weight the
    oracle writes on an edge of the Potts graph is non-negative. *)
Theorem X16_potts_edge_weights_nonnegative {V PSI : Type}
  {FV : FeatureVector V PSI} {FF : FeatureVectorFits V PSI}
  {FC : FeatureVectorContent V PSI} {FS : FeatureVectorScore V PSI}
  (p : problem V) (idx : nat) (w : matrix) (samp : graph V)
  (truth : label_type) :
  nth_error (samples p) idx = Some samp ->
  nth_error (labels p) idx = Some truth ->
  length truth = number_of_nodes samp ->
  sample_fits p samp = true ->
  msize w = get_num_dimensions p ->
  Forall (fun x => 0 <= x) (edge_weight_block p w) ->
  Forall (fun e => Forall (fun x => 0 <= x) (vect_entries e))
    (edges_of samp) ->
  exists g,
    oracle_graph p idx w = Some g /\
    forall gn j x, In gn g -> In (j, Some x) (links gn) -> 0 <= x.
Proof.
  intros Es Et Ht Hfit Hw Hblock Hedges.
  destruct (potts_graph_of_defined p samp truth w Ht Hfit Hw) as [g [Eg Lg]].
  exists g. split; [unfold oracle_graph; rewrite Es, Et; exact Eg|].
  intros gn j x Hgn Hlk.
  destruct (In_nth_error g gn Hgn) as [i Hi].
  unfold potts_graph_of in Eg.
  destruct (mapM_nth_error_inv _ _ _ Eg i gn Hi) as [[i' nd] [Hind Hnode]].
  apply nth_error_In, in_indexed in Hind.
  assert (Hnd : In nd samp) by (eapply nth_error_In; eauto).
  rewrite (potts_node_links p truth w i' nd gn Hnode) in Hlk.
  apply in_map_iff in Hlk. destruct Hlk as [nb [Enb Hnb]].
  destruct (i' <? fst nb)%nat; [|discriminate].
  injection Enb as _ <-.
  apply edge_score_nonneg; [exact Hblock|].
  rewrite Forall_forall in Hedges. apply Hedges.
  unfold edges_of. apply in_flat_map. exists nd.
  split; [exact Hnd | now apply in_map].
Qed.

Lemma X16_potts_edge_weights_nonnegative_witness :
  exists g,
    oracle_graph scenario_A_problem 0 [2; 3; 5] = Some g /\
    forall gn j x, In gn g -> In (j, Some x) (links gn) -> 0 <= x.
Proof.
  apply (X16_potts_edge_weights_nonnegative (FV := dense_vectors)
           scenario_A_problem 0%nat [2; 3; 5] scenario_A_sample
           scenario_A_labels); try reflexivity.
  - repeat constructor. discriminate.
  - repeat constructor; discriminate.
Defined.

(** X17.  When [separation_oracle] returns the loss 0, the feature vector
    it returns is the one [get_truth_joint_feature_vector] returns for the
    sample. *)
Theorem X17_zero_loss_returns_truth_vector {V PSI : Type}
  {FV : FeatureVector V PSI}
  (solver : potts_graph -> label_type) (p : problem V) (idx : nat)
  (w : matrix) (samp : graph V) (truth : label_type) (psi : PSI) :
  nth_error (samples p) idx = Some samp ->
  nth_error (labels p) idx = Some truth ->
  length truth = number_of_nodes samp ->
  (forall g, length (solver g) = length g) ->
  separation_oracle solver p idx w = Some (0, psi) ->
  get_truth_joint_feature_vector p idx = Some psi.
Proof.
  intros Es Et Ht Hlen H.
  unfold separation_oracle in H. apply bind_Some in H.
  destruct H as [g [Eg H]].
  unfold oracle_graph in Eg. rewrite Es, Et in Eg. cbn [bind] in Eg.
  pose proof (potts_graph_of_length p samp truth w g Eg) as Lg.
  assert (Hl : length (solver g) = number_of_nodes samp)
    by (rewrite Hlen; exact Lg).
  unfold oracle_result in H. rewrite Es, Et in H. cbn [bind] in H.
  rewrite oracle_loss_hamming in H by lia. cbn [bind] in H.
  apply bind_Some in H. destruct H as [psi' [Epsi H]].
  injection H as Hloss <-.
  rewrite Hl in Hloss.
  pose proof (proj1 (hamming_distance_zero _ _ _) Hloss) as Hagree.
  unfold get_truth_joint_feature_vector. rewrite Es, Et. cbn [bind].
  rewrite <- Epsi. apply get_joint_feature_vector_same_truth.
  apply same_truth_of_label_at; [lia|].
  intros i Hi. symmetry. apply Hagree. lia.
Qed.

Lemma X17_zero_loss_returns_truth_vector_witness :
  get_truth_joint_feature_vector separable_problem 0 = Some [1].
Proof.
  apply (X17_zero_loss_returns_truth_vector (FV := dense_vectors)
           exhaustive_potts separable_problem 0%nat [5] separable_sample
           [1%N; 0%N] [1]); try reflexivity.
  exact exhaustive_potts_length.
Defined.

(** X18.  On a problem constructed from a dense dataset, for a sample of
    it whose neighbour indices name nodes, a weight vector of
    [get_num_dimensions] entries and a solver that returns one label per
    node, [separation_oracle] breaks no requirement of a matrix operation
    and reads no label past the end: it returns a loss between 0 and the
    number of nodes and a feature vector of [get_num_dimensions]
    entries. *)
Theorem X18_oracle_defined_on_validated_dense
  (solver : potts_graph -> label_type) (samps : list (graph matrix))
  (labs : list label_type) (p : problem matrix) (idx : nat) (w : matrix)
  (samp : graph matrix) :
  structural_svm_graph_labeling_problem samps labs = Some p ->
  nth_error samps idx = Some samp ->
  graph_wf samp = true ->
  msize w = get_num_dimensions p ->
  (forall g, length (solver g) = length g) ->
  exists loss psi,
    separation_oracle solver p idx w = Some (loss, psi) /\
    0 <= loss <= Z.of_nat (number_of_nodes samp) /\
    msize psi = get_num_dimensions p.
Proof.
  intros Hp Hs Hwf Hw Hlen.
  assert (Hin : In samp samps) by (eapply nth_error_In; eauto).
  pose proof (validated_dense_sample_fits samps labs p samp Hp Hin) as Hfit.
  destruct (constructed_dims samps labs p Hp) as [Hval [Esamps [Elabs _]]].
  destruct (validated_labels samps labs idx samp Hval Hs) as [truth [Et Ht]].
  destruct (potts_graph_of_defined p samp truth w Ht Hfit Hw) as [g [Eg Lg]].
  assert (Hl : length (solver g) = number_of_nodes samp)
    by (rewrite Hlen; exact Lg).
  destruct (get_joint_feature_vector_defined p samp (solver g) Hwf Hl Hfit)
    as [psi [Epsi Fpsi]].
  exists (hamming_distance (number_of_nodes samp) truth (solver g)), psi.
  split; [|split].
  - unfold separation_oracle, oracle_graph. rewrite Esamps, Elabs, Hs, Et.
    cbn [bind]. rewrite Eg. cbn [bind]. unfold oracle_result.
    rewrite Esamps, Elabs, Hs, Et. cbn [bind].
    rewrite oracle_loss_hamming by lia. cbn [bind].
    rewrite Epsi, Hl. reflexivity.
  - apply hamming_distance_bounds.
  - cbn [psi_fits dense_fits] in Fpsi. now apply Z.eqb_eq in Fpsi.
Qed.

Lemma X18_oracle_defined_on_validated_dense_witness :
  exists loss psi,
    separation_oracle exhaustive_potts scenario_A_problem 0 [2; 3; 5]
      = Some (loss, psi) /\
    0 <= loss <= Z.of_nat (number_of_nodes scenario_A_sample) /\
    msize psi = get_num_dimensions scenario_A_problem.
Proof.
  apply (X18_oracle_defined_on_validated_dense exhaustive_potts
           [scenario_A_sample] [scenario_A_labels] scenario_A_problem 0%nat
           [2; 3; 5] scenario_A_sample); try reflexivity.
  exact exhaustive_potts_length.
Defined.

Lemma label_lengths_transfer {A : Type} (f : A -> nat) (samps : list A)
  (labs labs' : list label_type) :
  map (@length node_label) labs = map (@length node_label) labs' ->
  Forall2 (fun s l => length l = f s) samps labs ->
  Forall2 (fun s l => length l = f s) samps labs'.
Proof.
  intros Hmap H. revert labs' Hmap.
  induction H as [|s l samps labs Hsl _ IH]; intros [|l' labs'] Hmap;
    simpl in Hmap; try discriminate; constructor.
  - injection Hmap as Hl _. congruence.
  - apply IH. now injection Hmap.
Qed.

(** X19.  The validator reads the label vectors for their lengths only:
    two lists of label vectors with the same lengths, position by
    position, are accepted or rejected alike, whatever the labels are. *)
Theorem X19_validator_reads_label_lengths_only {V PSI : Type}
  {FV : FeatureVector V PSI} {FC : FeatureVectorContent V PSI}
  (samps : list (graph V)) (labs labs' : list label_type) :
  map (@length node_label) labs = map (@length node_label) labs' ->
  is_graph_labeling_problem samps labs =
  is_graph_labeling_problem samps labs'.
Proof.
  assert (G : forall a b : list label_type,
    map (@length node_label) a = map (@length node_label) b ->
    is_graph_labeling_problem samps a = true ->
    is_graph_labeling_problem samps b = true).
  { intros a b Hmap H. apply is_graph_labeling_problem_iff in H.
    apply is_graph_labeling_problem_iff.
    destruct H as [[H1 [H2 H3]] H4]. split; [|exact H4].
    split; [|split; [|exact H3]].
    - unfold is_learning_problem in *.
      assert (Hlen : length b = length a).
      { apply (f_equal (@length nat)) in Hmap.
        now rewrite !length_map in Hmap. }
      now rewrite Hlen.
    - now apply (label_lengths_transfer _ samps a b). }
  intros Hmap.
  destruct (is_graph_labeling_problem samps labs) eqn:E1;
    destruct (is_graph_labeling_problem samps labs') eqn:E2;
    try reflexivity.
  - rewrite (G labs labs' Hmap E1) in E2. discriminate.
  - rewrite (G labs' labs (eq_sym Hmap) E2) in E1. discriminate.
Qed.

Lemma X19_validator_reads_label_lengths_only_witness :
  is_graph_labeling_problem [scenario_A_sample] [scenario_A_labels] =
  is_graph_labeling_problem [scenario_A_sample] [[9%N; 0%N; 200%N]].
Proof.
  apply (X19_validator_reads_label_lengths_only (FV := dense_vectors)
           [scenario_A_sample] [scenario_A_labels] [[9%N; 0%N; 200%N]]).
  reflexivity.
Defined.
